(** * carnage-reporter: the glyph-template recognition engine of [src/main.cpp]

    A shallow embedding of the functions of [main.cpp] that rasterize text
    with the game's font ([draw_text]), binarize a monochrome buffer
    ([filter_monochrome]), score a template against the screenshot ([match]),
    calibrate the header anchors ([find_header_text]), walk the rows
    ([skip_to_next_line] and the row loop), decode a run of characters
    ([string_at]) and rank the decoded rows ([places]); and of what [main]
    does around them: the luma conversion of the picture ([Monochrome]),
    the byte order of the font file ([swap_endian]) and its glyph table,
    the candidate tables ([numbers], [all]), the end of [string_at] (the
    stripped whitespace and the fixed look-alikes), the team and the name
    of a row, and the report.

    Conventions of the embedding.
    - [std::uint32_t], [std::int16_t] and [std::uint8_t] values are integers
      of [Z]; every C++ operation that can leave the type's range is followed
      by the reduction the type performs ([u32], [i16], [u8]).
    - A [std::vector] is a list; an intensity ([Monochrome]) is its byte.
    - A [float] score is kept as the exact fraction it approximates: the
      rounding of [static_cast<float>(hits) / total] and of the literals
      [0.85F] and [0.80F] is not modelled.
    - Reading a vector outside its bounds is undefined in C++.  The functions
      whose reads are guarded by the code ([draw_text], [match]) read through
      a total accessor that yields [0] there, and their reads are shown to be
      inside the buffers; the row scanning functions, which carry no such
      guard for the row index, read through a checked accessor. *)

From Stdlib Require Import ZArith List Lia QArith Bool String Ascii Permutation Sorted.
From stdpp Require Import base list.

Local Open Scope Z_scope.

(** ** Fixed-width integers *)

Definition u32 (z : Z) : Z := z mod 2 ^ 32.
Definition u8 (z : Z) : Z := z mod 2 ^ 8.
Definition i16 (z : Z) : Z := (z + 2 ^ 15) mod 2 ^ 16 - 2 ^ 15.

(** [swap_endian<std::int16_t>]: the two bytes of the value, exchanged. *)
Definition swap_endian16 (value : Z) : Z :=
  i16 ((value mod 256) * 256 + (value / 256) mod 256).

(** [swap_endian<std::uint32_t>]: the four bytes of the value, reversed. *)
Definition swap_endian32 (value : Z) : Z :=
  (value mod 256) * 2 ^ 24 + ((value / 2 ^ 8) mod 256) * 2 ^ 16
  + ((value / 2 ^ 16) mod 256) * 2 ^ 8 + (value / 2 ^ 24) mod 256.

(** The loop [for (i = lo; i < hi; i++)] over an unsigned counter. *)
Definition range (lo hi : Z) : list Z := seqZ lo (hi - lo).

(** ** The font resource *)

(** [struct Font]; only the fields read by the engine.  The fields hold the
    big-endian values as they are in the file. *)
Record Font := {
  ascending_height : Z;
  descending_height : Z;
  leading_height : Z;
  leading_width : Z
}.

(** [struct FontCharacter], fields as stored (big-endian). *)
Record FontCharacter := {
  character : Z;
  character_width : Z;
  bitmap_width : Z;
  bitmap_height : Z;
  bitmap_origin_x : Z;
  bitmap_origin_y : Z;
  hardware_character_index : Z;
  pixels_offset : Z
}.

(** A value-initialized [FontCharacter], as in [std::vector<FontCharacter>(256)]. *)
Definition no_character : FontCharacter :=
  {| character := 0; character_width := 0; bitmap_width := 0; bitmap_height := 0;
     bitmap_origin_x := 0; bitmap_origin_y := 0; hardware_character_index := 0;
     pixels_offset := 0 |}.

(** The table of 256 glyph slots built in [main] from the records of the
    file: a record whose code is in 1..255 fills its slot, the others are
    discarded. *)
Definition load_characters (all_characters : list FontCharacter) : list FontCharacter :=
  foldl (fun characters c =>
           let character_index := swap_endian16 (character c) in
           if (character_index <? 256) && (0 <? character_index)
           then <[Z.to_nat character_index := c]> characters
           else characters)
        (replicate 256 no_character) all_characters.

(** ** Images *)

(** [Image<Monochrome>]. *)
Record MonochromeImage := {
  width : Z;
  height : Z;
  pixels : list Z;
  text : list Z
}.

Definition with_pixels (i : MonochromeImage) (p : list Z) : MonochromeImage :=
  {| width := width i; height := height i; pixels := p; text := text i |}.

(** Total read of a buffer (see the conventions above). *)
Definition px (buffer : list Z) (i : Z) : Z := default 0 (buffer !! Z.to_nat i).

(** The characters of a C string: the bytes before the first NUL. *)
Fixpoint c_str (text : list Z) : list Z :=
  match text with
  | [] => []
  | c :: rest => if c =? 0 then [] else c :: c_str rest
  end.

(** The bytes of a string literal. *)
Fixpoint bytes (s : string) : list Z :=
  match s with
  | EmptyString => []
  | String a rest => Z.of_nat (nat_of_ascii a) :: bytes rest
  end.

(** ** Text rasterizer *)

Section Rasterizer.
Variable monochrome_pixels : list Z.
Variable characters : list FontCharacter.
Variable font : Font.

(** [characters[static_cast<std::uint8_t>( *c)]] *)
Definition glyph (c : Z) : FontCharacter :=
  nth (Z.to_nat (u8 c)) characters no_character.

(** The lambda [set_pixel] of [draw_text]. *)
Definition set_pixel (drawn_text : MonochromeImage) (x y pixel : Z) : MonochromeImage :=
  if (x <? width drawn_text) && (y <? height drawn_text)
  then with_pixels drawn_text
         (<[Z.to_nat (u32 (x + y * width drawn_text)) := u8 (pixel * 3 / 4)]>
            (pixels drawn_text))
  else drawn_text.

(** One turn of the drawing loop of [draw_text], without the cursor. *)
Definition draw_glyph (c : FontCharacter) (x_cursor : Z) (drawn_text : MonochromeImage)
  : MonochromeImage :=
  let bitmap_width := swap_endian16 (bitmap_width c) in
  let bitmap_height := swap_endian16 (bitmap_height c) in
  let bitmap_y := swap_endian16 (ascending_height font) - swap_endian16 (bitmap_origin_y c) in
  if (0 <? bitmap_width) && (0 <? bitmap_height) then
    let offset := swap_endian32 (pixels_offset c) in
    foldl (fun drawn y =>
             foldl (fun drawn x =>
                      set_pixel drawn (u32 (x_cursor + x)) (u32 (y + bitmap_y))
                                (px monochrome_pixels (offset + u32 (x + y * bitmap_width))))
                   drawn (range 0 bitmap_width))
          drawn_text (range 0 bitmap_height)
  else drawn_text.

(** One turn of the drawing loop: the glyph, then [x_cursor += character_width]. *)
Definition draw_character (state : MonochromeImage * Z) (c : FontCharacter)
  : MonochromeImage * Z :=
  (draw_glyph c (snd state) (fst state),
   u32 (snd state + swap_endian16 (character_width c))).

(** [drawn_text.width += swap_endian(c.character_width)] over the characters. *)
Definition text_width (characters_to_draw : list FontCharacter) : Z :=
  foldl (fun w c => u32 (w + swap_endian16 (character_width c))) 0 characters_to_draw.

Definition draw_text (text : list Z) : MonochromeImage :=
  let characters_to_draw := map glyph (c_str text) in
  let h := u32 (swap_endian16 (ascending_height font)
                + swap_endian16 (descending_height font)) in
  let w := text_width characters_to_draw in
  let drawn_text :=
    {| width := w; height := h;
       pixels := replicate (Z.to_nat (u32 (h * w))) 0;
       text := c_str text |} in
  fst (foldl draw_character (drawn_text, 0) characters_to_draw).
End Rasterizer.

(** ** Monochrome threshold *)

Definition MINIMUM : Z := 0x4F.

Definition filter_pixel (m : Z) : Z := if m <? MINIMUM then 0 else 0xFF.

Definition filter_monochrome (monochrome_data : list Z) : list Z :=
  map filter_pixel monochrome_data.

Definition filtered (i : MonochromeImage) : MonochromeImage :=
  with_pixels i (filter_monochrome (pixels i)).

(** ** Scores *)

(** [a < b] on scores. *)
Definition Qlt_b (a b : Q) : bool := negb (Qle_bool b a).

(** ** Outcomes of [main]: it goes on, or it leaves through [std::exit]. *)

Definition EXIT_FAILURE : Z := 1.

(** What [find_header_text] prints before it exits. *)
Record failure := {
  failed_text : list Z;
  guess_x : Z;
  guess_y : Z;
  guess_percent : Q
}.

Inductive outcome (A : Type) : Type :=
| Continue (a : A)
| Exit (status : Z) (message : failure).
Arguments Continue {A} a.
Arguments Exit {A} status message.

Definition outcome_bind {A B : Type} (m : outcome A) (f : A -> outcome B) : outcome B :=
  match m with
  | Continue a => f a
  | Exit status message => Exit status message
  end.

(** ** Results of the functions that read the screenshot unguarded *)

Inductive run (A : Type) : Type :=
| Done (a : A)
| OutOfBounds (index : Z)
| OutOfFuel.
Arguments Done {A} a.
Arguments OutOfBounds {A} index.
Arguments OutOfFuel {A}.

Definition run_bind {A B : Type} (m : run A) (f : A -> run B) : run B :=
  match m with
  | Done a => f a
  | OutOfBounds index => OutOfBounds index
  | OutOfFuel => OutOfFuel
  end.

Declare Scope outcome_scope.
Delimit Scope outcome_scope with outcome.
Notation "'let!' p ':=' m 'in' k" := (outcome_bind m (fun p => k))
  (at level 10, p pattern, m at level 100, k at level 200) : outcome_scope.

Declare Scope run_scope.
Delimit Scope run_scope with run.
Notation "x <- m ;; k" := (run_bind m (fun x => k))
  (at level 100, m at next level, right associativity) : run_scope.

(** Checked read: [buffer[i]], or the index when it is outside the vector. *)
Definition read (buffer : list Z) (i : Z) : run Z :=
  match buffer !! Z.to_nat i with
  | Some v => Done v
  | None => OutOfBounds i
  end.

(** The five header anchors of [main]. *)
Record Anchors := {
  name_x : Z; name_y : Z;
  score_x : Z; score_y : Z;
  kills_x : Z; kills_y : Z;
  assists_x : Z; assists_y : Z;
  deaths_x : Z; deaths_y : Z
}.

(** ** The engine over one screenshot and one font *)

Section Engine.
(** [monochrome_version] and [width] of [main] (the screenshot has 480 rows);
    [pixels], [characters] and [font] of [main]. *)
Variable monochrome_version : list Z.
Variable image_width : Z.
Variable monochrome_pixels : list Z.
Variable characters : list FontCharacter.
Variable font : Font.

(** The lambda [match]. *)
Definition match_ (text : MonochromeImage) (x y : Z) : Q :=
  if (image_width <? u32 (x + width text)) || (480 <? u32 (y + height text))
     || (width text =? 0) || (height text =? 0)
  then 0%Q
  else
    let hits :=
      foldl (fun hits ty =>
               foldl (fun hits tx =>
                        let text_pixel := px (pixels text) (u32 (tx + ty * width text)) in
                        let image_pixel :=
                          px monochrome_version (u32 (tx + x + (ty + y) * image_width)) in
                        let difference := text_pixel - image_pixel in
                        let difference :=
                          if difference <? 0 then difference * -1 else difference in
                        u32 (hits + (if difference <? 0x10 then 1 else 0)))
                     hits (range 0 (width text)))
            0 (range 0 (height text)) in
    let total := u32 (height text * width text) in
    hits # Z.to_pos total.

Definition line_height_search : Z := swap_endian16 (ascending_height font).

(** The body of the two scanning loops of [find_header_text]. *)
Definition try_position (text_drawn : MonochromeImage) (y : Z) (found : Q * Z * Z) (x : Z)
  : Q * Z * Z :=
  let '(found_percent, found_x, found_y) := found in
  let match_percent := match_ text_drawn x y in
  if Qlt_b found_percent match_percent then (match_percent, x, y) else found.

Definition scan_window (text_drawn : MonochromeImage) (min_x min_y : Z) (found : Q * Z * Z)
  : Q * Z * Z :=
  foldl (fun found y => foldl (try_position text_drawn y) found (range min_x image_width))
        found (range min_y (u32 (min_y + line_height_search))).

(** The lambda [find_header_text]; [found_x] and [found_y] are the contents
    of the two reference parameters on entry. *)
Definition find_header_text (text : list Z) (min_x min_y found_x found_y : Z)
  : outcome (Z * Z) :=
  let text_drawn := filtered (draw_text monochrome_pixels characters font text) in
  let '(found_percent, found_x, found_y) :=
    scan_window text_drawn min_x min_y (0%Q, found_x, found_y) in
  if Qlt_b found_percent (85 # 100)
  then Exit EXIT_FAILURE
         {| failed_text := text; guess_x := found_x; guess_y := found_y;
            guess_percent := (found_percent * 100)%Q |}
  else Continue (found_x, found_y).

(** "Find the headers": the five calls of [main]; [u] holds the contents of
    the ten variables before the calls. *)
Definition find_headers (u : Anchors) : outcome Anchors :=
  (let! (name_x, name_y) :=
     find_header_text (bytes "Name") 120 120 (name_x u) (name_y u) in
   let! (score_x, score_y) :=
     find_header_text (bytes "Score") name_x (u32 (name_y - 10)) (score_x u) (score_y u) in
   let! (kills_x, kills_y) :=
     find_header_text (bytes "Kills") score_x (u32 (name_y - 10)) (kills_x u) (kills_y u) in
   let! (assists_x, assists_y) :=
     find_header_text (bytes "Assists") kills_x (u32 (name_y - 10))
                      (assists_x u) (assists_y u) in
   let! (deaths_x, deaths_y) :=
     find_header_text (bytes "Deaths") assists_x (u32 (name_y - 10))
                      (deaths_x u) (deaths_y u) in
   Continue (Build_Anchors name_x name_y score_x score_y kills_x kills_y
                           assists_x assists_y deaths_x deaths_y))%outcome.

Local Open Scope run_scope.

(** *** Row segmentation *)

(** The inner loop of [skip_to_next_line]: is there ink on row [y_cursor] in
    the columns [xs]? *)
Fixpoint row_has_ink (y_cursor : Z) (xs : list Z) : run bool :=
  match xs with
  | [] => Done false
  | x :: rest =>
      m <- read monochrome_version (u32 (x + y_cursor * image_width));;
      if m =? 0 then row_has_ink y_cursor rest else Done true
  end.

(** The [while (y_cursor < 480)] loop; [rows] bounds the rows left below. *)
Fixpoint skip_rows (deaths_x : Z) (rows : nat) (y_cursor : Z) : run Z :=
  match rows with
  | O => Done y_cursor
  | S rows' =>
      if y_cursor <? 480 then
        ink <- row_has_ink y_cursor (range deaths_x image_width);;
        if ink then skip_rows deaths_x rows' (u32 (y_cursor + 1)) else Done y_cursor
      else Done y_cursor
  end.

(** The lambda [skip_to_next_line], as a function of [y_cursor]. *)
Definition skip_to_next_line (deaths_x y_cursor : Z) : run Z :=
  let y_cursor := u32 (y_cursor + line_height_search ÷ 2) in
  skip_rows deaths_x (Z.to_nat (480 - y_cursor)) y_cursor.

(** The presence check at the head of the row loop: [found_something]. *)
Fixpoint found_in_row (y : Z) (xs : list Z) : run bool :=
  match xs with
  | [] => Done false
  | x :: rest =>
      m <- read monochrome_version (u32 (x + y * image_width));;
      if 0 <? m then Done true else found_in_row y rest
  end.

Fixpoint found_in_rows (deaths_x : Z) (ys : list Z) : run bool :=
  match ys with
  | [] => Done false
  | y :: rest =>
      found <- found_in_row y (range deaths_x image_width);;
      if found then Done true else found_in_rows deaths_x rest
  end.

Definition found_something (deaths_x y_cursor : Z) : run bool :=
  found_in_rows deaths_x (range y_cursor (u32 (y_cursor + line_height_search))).

(** The row loop of [main], reduced to what drives it: the rows it decodes
    are the values of [y_cursor] at which the presence check succeeds. *)
Fixpoint row_loop (fuel : nat) (deaths_x y_cursor : Z) : run (list Z) :=
  match fuel with
  | O => OutOfFuel
  | S fuel' =>
      found <- found_something deaths_x y_cursor;;
      if found then
        next <- skip_to_next_line deaths_x y_cursor;;
        rows <- row_loop fuel' deaths_x next;;
        Done (y_cursor :: rows)
      else Done []
  end.

(** [main] from the calibration to the end of the row loop. *)
Definition segment (fuel : nat) (a : Anchors) : run (list Z) :=
  y_cursor <- skip_to_next_line (deaths_x a) (name_y a);;
  row_loop fuel (deaths_x a) y_cursor.

(** *** String decoder *)

(** The drought scan at the head of [string_at]. *)
Fixpoint column_has_ink (max_x : Z) (ys : list Z) : run bool :=
  match ys with
  | [] => Done false
  | y :: rest =>
      m <- read monochrome_version (u32 (max_x + y * image_width));;
      if m =? 0 then column_has_ink max_x rest else Done true
  end.

Fixpoint drought_scan (search_y : Z) (xs : list Z) (drought : Z) : run Z :=
  match xs with
  | [] => Done drought
  | max_x :: rest =>
      ink <- column_has_ink max_x
              (range (u32 (search_y + 4)) (u32 (search_y + line_height_search)));;
      drought_scan search_y rest (if ink then 0 else u32 (drought + 1))
  end.

(** The value of [max_x] when the decoding loop starts. *)
Definition trimmed_end (search_x search_y end_x : Z) : run Z :=
  let first := u32 (search_x + 1) in
  drought <- drought_scan search_y (range first end_x) 0;;
  Done (u32 (Z.max first end_x - drought)).

(** The best match so far in one turn of the decoding loop:
    [best_character_percent] and, once a candidate has scored above it,
    [best_character], [best_length] and [best_x]. *)
Definition best := (Q * option (Z * Z * Z))%type.

(** The body of the innermost loop.  [x + c.width * 0.5F > max_x] is kept
    exact: [2 * x + c.width > 2 * max_x]. *)
Definition try_candidate (x max_x search_y my mx : Z) (b : best) (c : MonochromeImage)
  : best :=
  if 2 * max_x <? 2 * x + width c then b
  else
    let test := match_ c (u32 (x + mx)) (u32 (search_y + my)) in
    if Qlt_b (fst b) test then (test, Some (hd 0 (text c), width c, u32 mx)) else b.

Definition best_candidate (table : list MonochromeImage) (x max_x search_y : Z) : best :=
  foldl (fun b my =>
           foldl (fun b mx => foldl (try_candidate x max_x search_y my mx) b table)
                 b (range (-3) 4))
        (0%Q, None) (range (-3) 4).

(** The loop [while (x < max_x)] of [string_at]: the string decoded from
    cursor [x] on, appended to [final_string]. *)
Fixpoint decode (fuel : nat) (table : list MonochromeImage) (max_x search_y x : Z)
  (final_string : list Z) : run (list Z) :=
  match fuel with
  | O => OutOfFuel
  | S fuel' =>
      if x <? max_x then
        match snd (best_candidate table x max_x search_y) with
        | None => Done final_string
        | Some (best_character, best_length, _) =>
            decode fuel' table max_x search_y (u32 (x + best_length))
                   (final_string ++ [best_character])
        end
      else Done final_string
  end.

(** [string_at] up to the end of its decoding loop (before the trailing
    spaces are stripped and the names are fixed). *)
Definition string_at (fuel : nat) (search_x search_y end_x : Z) (table : list MonochromeImage)
  : run (list Z) :=
  max_x <- trimmed_end search_x search_y end_x;;
  decode fuel table max_x search_y search_x [].
End Engine.

(** ** Ranking *)

(** [struct PlayerStats]. *)
Record PlayerStats := {
  red : bool;
  name : list Z;
  score : Z;
  kills : Z;
  assists : Z;
  deaths : Z
}.

(** The body of the inner loop of "Determine what place people are in",
    after the test on the addresses: [true] when it runs [players_below++]. *)
Definition counted (player player_test : PlayerStats) : bool :=
  if score player_test <? score player then false
  else if score player <? score player_test then true
  else if kills player_test <? kills player then false
  else if kills player <? kills player_test then true
  else if deaths player <? deaths player_test then false
  else if deaths player_test <? deaths player then true
  else if assists player_test <? assists player then false
  else if assists player <? assists player_test then true
  else true.

(** [players_below] for the player at index [i]. *)
Definition players_below (players : list PlayerStats) (i : nat) (player : PlayerStats) : nat :=
  length (List.filter (fun jp => negb (Nat.eqb i (fst jp)) && counted player (snd jp))
                 (imap pair players)).

Definition places (players : list PlayerStats) : list nat :=
  imap (fun i player => S (players_below players i player)) players.

(** ** Colour to monochrome *)

(** [struct ImagePixel]. *)
Module ImagePixel.
Record t := { red : Z; green : Z; blue : Z; alpha : Z }.
End ImagePixel.

Definition UINT8_MAX : Z := 255.
Definition RED_WEIGHT : Z := 0x90.
Definition GREEN_WEIGHT : Z := 0x0F.
Definition BLUE_WEIGHT : Z := 0x60.

(** The right-hand side of [COMPOSITE_BITMAP_GRAYSCALE_SET_CHANNEL_VALUE_FOR_COLOR]. *)
Definition channel_value (channel weight : Z) : Z :=
  (channel * weight + (UINT8_MAX + 1) / 2) / UINT8_MAX.

(** The constructor [Monochrome(const ImagePixel &)]: the intensity, a
    [std::uint8_t], after the three [+=]. *)
Definition Monochrome (pixel : ImagePixel.t) : Z :=
  let intensity := 0 in
  let intensity := u8 (intensity + channel_value (ImagePixel.red pixel) RED_WEIGHT) in
  let intensity := u8 (intensity + channel_value (ImagePixel.green pixel) GREEN_WEIGHT) in
  u8 (intensity + channel_value (ImagePixel.blue pixel) BLUE_WEIGHT).

(** "Convert to monochrome" in [main]: [monochrome_version] from [image_data]. *)
Definition convert_to_monochrome (image_data : list ImagePixel.t) : list Z :=
  filter_monochrome (map Monochrome image_data).

(** ** The report *)

Definition i8 (z : Z) : Z := (z + 2 ^ 7) mod 2 ^ 8 - 2 ^ 7.

(** The suffix [th] chosen for a place. *)
Definition ordinal_suffix (place : nat) : string :=
  if ((place mod 100 <? 10) || (19 <=? place mod 100))%nat then
    match (place mod 10)%nat with
    | 1%nat => "st"
    | 2%nat => "nd"
    | 3%nat => "rd"
    | _ => "th"
    end
  else "th".

(** "Determine if it's free-for-all". *)
Fixpoint free_for_all (players : list PlayerStats) : bool :=
  match players with
  | [] => true
  | player :: rest => if red player then false else free_for_all rest
  end.

(** "Tally up scores": [team.stat += player.stat] on [std::int8_t] fields. *)
Definition tally (team player : PlayerStats) : PlayerStats :=
  {| red := red team; name := name team;
     score := i8 (score team + score player);
     kills := i8 (kills team + kills player);
     assists := i8 (assists team + assists player);
     deaths := i8 (deaths team + deaths player) |}.

(** A value-initialized [PlayerStats]. *)
Definition no_stats : PlayerStats :=
  {| red := false; name := []; score := 0; kills := 0; assists := 0; deaths := 0 |}.

(** [PlayerStats teams[2] = {}] after the loop: [teams[0]] and [teams[1]]. *)
Definition team_totals (players : list PlayerStats) : PlayerStats * PlayerStats :=
  foldl (fun teams player =>
           if red player then (fst teams, tally (snd teams) player)
           else (tally (fst teams) player, snd teams))
        (no_stats, no_stats) players.

(** One call of [std::fprintf] on the output file, with its arguments. *)
Inductive line : Type :=
| Header
| PlayerLine (name : list Z) (place : nat) (th team : string) (score kills assists deaths : Z)
| TeamLine (team_name rank team : string) (score kills assists deaths : Z).

(** [PRINT_TEAM_TOTAL(team_name, team_index)]. *)
Definition PRINT_TEAM_TOTAL (teams : PlayerStats * PlayerStats) (team_name : string)
  (team_index : bool) : line :=
  let this := if team_index then snd teams else fst teams in
  let other := if team_index then fst teams else snd teams in
  TeamLine team_name (if score other <? score this then "1st" else "2nd")
           (if team_index then "red" else "blue")
           (score this) (kills this) (assists this) (deaths this).

(** The lines written to the output file for the decoded rows. *)
Definition report (players : list PlayerStats) : list line :=
  let ffa := free_for_all players in
  let places := places players in
  Header
  :: imap (fun p player =>
             let place := nth p places 0%nat in
             PlayerLine (name player) place (ordinal_suffix place)
                        (if ffa then "ffa" else if red player then "red" else "blue")
                        (score player) (kills player) (assists player) (deaths player))
          players
  ++ (if ffa then []
      else [PRINT_TEAM_TOTAL (team_totals players) "red_team_total" true;
            PRINT_TEAM_TOTAL (team_totals players) "blue_team_total" false]).

(** ** Candidate tables, and the end of [string_at] *)

(** A character literal. *)
Definition char (a : ascii) : Z := Z.of_nat (nat_of_ascii a).

Section Tables.
Variable monochrome_pixels : list Z.
Variable characters : list FontCharacter.
Variable font : Font.

(** [numbers]: the digits "0" to "9", then "-". *)
Definition numbers : list MonochromeImage :=
  map (fun i => filtered (draw_text monochrome_pixels characters font [i + char "0"; 0]))
      (range 0 10)
  ++ [filtered (draw_text monochrome_pixels characters font (bytes "-"))].

(** [all]: every character from the space to the tilde that has a width in
    the font. *)
Definition all : list MonochromeImage :=
  flat_map (fun i =>
              if negb (character_width (nth (Z.to_nat i) characters no_character) =? 0)
                 && ((char " " <=? i) && (i <? 0x7F))
              then [filtered (draw_text monochrome_pixels characters font [i; 0])]
              else [])
           (range 0 (Z.of_nat (length characters))).
End Tables.

(** "Strip off whitespace at the end": the loop of [string_at] that erases
    the last character while it is a space; [turns] bounds its turns. *)
Fixpoint strip (turns : nat) (final_string : list Z) : list Z :=
  match turns with
  | O => final_string
  | S turns' =>
      match last final_string with
      | Some c =>
          if c =? char " " then strip turns' (removelast final_string) else final_string
      | None => final_string
      end
  end.

Section Names.
Variable monochrome_version : list Z.
Variable image_width : Z.
Variable monochrome_pixels : list Z.
Variable characters : list FontCharacter.
Variable font : Font.

(** The lambda [fix_error] of [string_at], at index [i] of [final_string]. *)
Definition fix_error (search_x search_y : Z) (i : nat) (a b : Z) (final_string : list Z)
  : list Z :=
  let output := nth i final_string 0 in
  if negb (output =? a) && negb (output =? b) then final_string
  else
    let drawn_text_a :=
      filtered (draw_text monochrome_pixels characters font (<[i := a]> final_string)) in
    let drawn_text_b :=
      filtered (draw_text monochrome_pixels characters font (<[i := b]> final_string)) in
    let match_a := match_ monochrome_version image_width drawn_text_a search_x search_y in
    let match_b := match_ monochrome_version image_width drawn_text_b search_x search_y in
    if Qlt_b match_b match_a then <[i := a]> final_string else <[i := b]> final_string.

(** The six calls of one turn of "Fix some common errors". *)
Definition fix_errors_at (search_x search_y : Z) (i : nat) (final_string : list Z)
  : list Z :=
  let final_string := fix_error search_x search_y i (char "l") (char "i") final_string in
  let final_string := fix_error search_x search_y i (char "I") (char "i") final_string in
  let final_string := fix_error search_x search_y i (char "I") (char "l") final_string in
  let final_string := fix_error search_x search_y i (char "2") (char "Z") final_string in
  let final_string := fix_error search_x search_y i (char "a") (char "e") final_string in
  fix_error search_x search_y i (char "n") (char "m") final_string.

(** The loop [for (i = 0; fix_string && i < final_string.size(); i++)] from
    index [i] on; [turns] bounds its turns. *)
Fixpoint fix_errors (turns : nat) (search_x search_y : Z) (i : nat) (final_string : list Z)
  : list Z :=
  match turns with
  | O => final_string
  | S turns' =>
      if (i <? length final_string)%nat
      then fix_errors turns' search_x search_y (S i)
                      (fix_errors_at search_x search_y i final_string)
      else final_string
  end.

(** [string_at] to its [return]. *)
Definition string_at_fixed (fuel : nat) (search_x search_y end_x : Z)
  (table : list MonochromeImage) (fix_string : bool) : run (list Z) :=
  (final_string <- string_at monochrome_version image_width font fuel
                             search_x search_y end_x table;;
   let final_string := strip (length final_string) final_string in
   Done (if fix_string
         then fix_errors (length final_string) search_x search_y 0 final_string
         else final_string))%run.
End Names.

(** ** The name of a row *)

(** A value-initialized [MonochromeImage]. *)
Definition no_image : MonochromeImage :=
  {| width := 0; height := 0; pixels := []; text := [] |}.

Section RowName.
Variable monochrome_version : list Z.
Variable image_width : Z.
Variable monochrome_pixels : list Z.
Variable characters : list FontCharacter.
Variable font : Font.

(** The three loops of "Use a names file": [best_match_percent] and
    [best_match_index] when they end. *)
Definition best_name (names : list MonochromeImage) (name_x y_cursor : Z) : Q * nat :=
  foldl (fun b my =>
           foldl (fun b mx =>
                    foldl (fun b i =>
                             let match_percent :=
                               match_ monochrome_version image_width (nth i names no_image)
                                      (u32 (name_x + mx)) (u32 (y_cursor + my)) in
                             if Qlt_b (fst b) match_percent then (match_percent, i) else b)
                          b (seq 0 (length names)))
                 b (range (-2) 3))
        (0%Q, 0%nat) (range (-2) 3).

(** [player.name] for the row at [y_cursor], and the names that are left.
    [0.80F] is kept exact. *)
Definition name_of_row (fuel : nat) (names : option (list MonochromeImage))
  (name_x score_x y_cursor : Z) : run (list Z * option (list MonochromeImage)) :=
  let decoded :=
    (name <- string_at_fixed monochrome_version image_width monochrome_pixels characters
                             font fuel name_x y_cursor score_x
                             (all monochrome_pixels characters font) true;;
     Done (name, names))%run in
  match names with
  | Some ((_ :: _) as value) =>
      let '(best_match_percent, best_match_index) := best_name value name_x y_cursor in
      if Qlt_b (80 # 100) best_match_percent
      then Done (text (nth best_match_index value no_image),
                 Some (delete best_match_index value))
      else decoded
  | _ => decoded
  end.
End RowName.

(** ** The team of a row *)

Section Team.
Variable image_data : list ImagePixel.t.
Variable monochrome_version : list Z.
Variable image_width : Z.
Variable font : Font.

(** The inner loop of "Determine if it was red or blue" on row [y]:
    [player.red] when a pixel is found. *)
Fixpoint team_in_row (y : Z) (xs : list Z) : run (option bool) :=
  match xs with
  | [] => Done None
  | x :: rest =>
      (m <- read monochrome_version (u32 (x + image_width * y));;
       if 0x7F <? m then
         match image_data !! Z.to_nat (u32 (x + image_width * y)) with
         | Some pixel =>
             if 0x7F <? Monochrome pixel
             then Done (Some (ImagePixel.blue pixel <? ImagePixel.red pixel))
             else team_in_row y rest
         | None => OutOfBounds (u32 (x + image_width * y))
         end
       else team_in_row y rest)%run
  end.

(** The outer loop: once a pixel is found, the rows below read nothing. *)
Fixpoint team_in_rows (name_x kills_x : Z) (ys : list Z) : run (option bool) :=
  match ys with
  | [] => Done None
  | y :: rest =>
      (found <- team_in_row y (range name_x kills_x);;
       match found with
       | Some red => Done (Some red)
       | None => team_in_rows name_x kills_x rest
       end)%run
  end.

(** [player.red] of the row at [y_cursor]; it is [false] in a player that
    [emplace_back()] has just made. *)
Definition player_red (name_x kills_x y_cursor : Z) : run bool :=
  (found <- team_in_rows name_x kills_x
                         (range y_cursor (u32 (y_cursor + line_height_search font)));;
   Done (default false found))%run.
End Team.

(** * The specification's vocabulary

    The definitions below follow the words of the specification; the
    theorems compare them with the functions above. *)

(** ** Rasterizer *)

(** The sum of a list of integers. *)
Definition total (l : list Z) : Z := foldr Z.add 0 l.

(** The advance width of a character code. *)
Definition advance (characters : list FontCharacter) (c : Z) : Z :=
  swap_endian16 (character_width (glyph characters c)).

(** ** Template matching *)

(** The pixel of a template at column [tx], row [ty]; the pixel of the
    screenshot at a column and a row. *)
Definition template_pixel (text : MonochromeImage) (tx ty : Z) : Z :=
  px (pixels text) (tx + ty * width text).

Definition screenshot_pixel (monochrome_version : list Z) (image_width column row : Z) : Z :=
  px monochrome_version (column + row * image_width).

(** The pixels of a template, row by row. *)
Definition template_coordinates (text : MonochromeImage) : list (Z * Z) :=
  flat_map (fun ty => map (fun tx => (tx, ty)) (range 0 (width text)))
           (range 0 (height text)).

(** A template pixel is a hit when it differs from the aligned screenshot
    pixel by strictly less than [0x10]. *)
Definition is_hit (monochrome_version : list Z) (image_width : Z) (text : MonochromeImage)
  (x y : Z) (p : Z * Z) : bool :=
  Z.abs (template_pixel text (fst p) (snd p)
         - screenshot_pixel monochrome_version image_width (x + fst p) (y + snd p)) <? 0x10.

Definition hit_count (monochrome_version : list Z) (image_width : Z) (text : MonochromeImage)
  (x y : Z) : Z :=
  Z.of_nat (length (List.filter (is_hit monochrome_version image_width text x y)
                           (template_coordinates text))).

(** A screenshot buffer of [image_width] columns and 480 rows whose pixels
    can be addressed with 32 bits. *)
Definition screenshot_ok (monochrome_version : list Z) (image_width : Z) : Prop :=
  0 <= image_width /\ image_width * 480 < 2 ^ 32
  /\ Z.of_nat (length monochrome_version) = image_width * 480.

(** An image whose buffer has one entry per pixel. *)
Definition image_ok (i : MonochromeImage) : Prop :=
  0 <= width i /\ 0 <= height i /\ width i * height i < 2 ^ 32
  /\ Z.of_nat (length (pixels i)) = width i * height i.

(** ** Calibration *)

(** The positions visited by the two loops of a header search. *)
Definition search_window (image_width : Z) (font : Font) (min_x min_y : Z) : list (Z * Z) :=
  flat_map (fun y => map (fun x => (x, y)) (range min_x image_width))
           (range min_y (u32 (min_y + line_height_search font))).

(** The chain of searches as the specification words it: each header after
    "Name" is searched from the previous header's x and the previous
    header's y minus 10. *)
Definition specified_find_headers (monochrome_version : list Z) (image_width : Z)
  (monochrome_pixels : list Z) (characters : list FontCharacter) (font : Font)
  (u : Anchors) : outcome Anchors :=
  let find := find_header_text monochrome_version image_width monochrome_pixels
                               characters font in
  (let! (name_x, name_y) := find (bytes "Name") 120 120 (name_x u) (name_y u) in
   let! (score_x, score_y) :=
     find (bytes "Score") name_x (u32 (name_y - 10)) (score_x u) (score_y u) in
   let! (kills_x, kills_y) :=
     find (bytes "Kills") score_x (u32 (score_y - 10)) (kills_x u) (kills_y u) in
   let! (assists_x, assists_y) :=
     find (bytes "Assists") kills_x (u32 (kills_y - 10)) (assists_x u) (assists_y u) in
   let! (deaths_x, deaths_y) :=
     find (bytes "Deaths") assists_x (u32 (assists_y - 10)) (deaths_x u) (deaths_y u) in
   Continue (Build_Anchors name_x name_y score_x score_y kills_x kills_y
                           assists_x assists_y deaths_x deaths_y))%outcome.

(** ** Row segmentation *)

(** The line height of the specification: ascending plus descending height
    (the height [draw_text] gives its images). *)
Definition line_height (font : Font) : Z :=
  u32 (swap_endian16 (ascending_height font) + swap_endian16 (descending_height font)).

(** Row [y] has ink in the columns [deaths_x, image_width). *)
Definition ink_in_row (monochrome_version : list Z) (image_width deaths_x y : Z) : Prop :=
  exists x, deaths_x <= x < image_width
            /\ screenshot_pixel monochrome_version image_width x y <> 0.

(** The segmentation steps worded with the specification's line height. *)
Definition specified_skip_to_next_line (monochrome_version : list Z) (image_width : Z)
  (font : Font) (deaths_x y_cursor : Z) : run Z :=
  let y_cursor := u32 (y_cursor + line_height font ÷ 2) in
  skip_rows monochrome_version image_width deaths_x (Z.to_nat (480 - y_cursor)) y_cursor.

Definition specified_found_something (monochrome_version : list Z) (image_width : Z)
  (font : Font) (deaths_x y_cursor : Z) : run bool :=
  found_in_rows monochrome_version image_width deaths_x
                (range y_cursor (u32 (y_cursor + line_height font))).

(** ** String decoding *)

(** The trials of one turn of the decoding loop: every offset
    [(my, mx)] of [-3, +3] x [-3, +3] with every candidate of the table. *)
Definition trials (table : list MonochromeImage) : list (Z * Z * MonochromeImage) :=
  flat_map (fun my => flat_map (fun mx => map (fun c => (my, mx, c)) table) (range (-3) 4))
           (range (-3) 4).

(** A candidate is skipped when the cursor plus half its width overshoots
    the trimmed end. *)
Definition overshoots (x max_x : Z) (c : MonochromeImage) : Prop :=
  2 * max_x < 2 * x + width c.

(** ** Ranking *)

(** [q] ranks above [p]: higher score, then more kills, then fewer deaths,
    then more assists. *)
Definition ranks_above (q p : PlayerStats) : bool :=
  (score p <? score q)
  || (score p =? score q)
     && ((kills p <? kills q)
         || (kills p =? kills q)
            && ((deaths q <? deaths p)
                || (deaths q =? deaths p) && (assists p <? assists q))).

Definition fully_tied (q p : PlayerStats) : bool :=
  (score p =? score q) && (kills p =? kills q)
  && (deaths p =? deaths q) && (assists p =? assists q).

(** The number of rows other than row [i] that satisfy [rel] towards [p]. *)
Definition count_others (rel : PlayerStats -> PlayerStats -> bool)
  (players : list PlayerStats) (i : nat) (p : PlayerStats) : nat :=
  length (List.filter (fun jq => negb (Nat.eqb i (fst jq)) && rel (snd jq) p)
                 (imap pair players)).

(** Placement as the specification words it: 1 plus the number of other
    rows that rank below the row, fully tied rows being counted too. *)
Definition specified_places (players : list PlayerStats) : list nat :=
  imap (fun i p =>
          S (count_others (fun q p => ranks_above p q || fully_tied q p) players i p))
       players.

(** * Sample data *)

(** A font whose only glyphs are the capitals that start the five headers
    (A, D, K, N, S), each blank and one pixel wide, so that every header is
    rasterized one pixel wide: ascending height 4, descending height 2. *)
Definition sample_font : Font :=
  {| ascending_height := swap_endian16 4; descending_height := swap_endian16 2;
     leading_height := 0; leading_width := 0 |}.

Definition blank_glyph (code : Z) : FontCharacter :=
  {| character := swap_endian16 code; character_width := swap_endian16 1;
     bitmap_width := 0; bitmap_height := 0; bitmap_origin_x := 0; bitmap_origin_y := 0;
     hardware_character_index := 0; pixels_offset := 0 |}.

Definition sample_characters : list FontCharacter :=
  load_characters (map blank_glyph [65; 68; 75; 78; 83]).

(** A screenshot of 122 x 480 pixels without ink. *)
Definition blank_screenshot : list Z := replicate (Z.to_nat (122 * 480)) 0.

(** The same with ink in column 121 from row 122 to the last row. *)
Definition streaked_screenshot : list Z :=
  replicate (Z.to_nat (122 * 122)) 0
  ++ concat (replicate (Z.to_nat 358) (replicate (Z.to_nat 121) 0 ++ [255])).

(** A screenshot of 122 x 480 pixels that is all ink. *)
Definition inked_screenshot : list Z := replicate (Z.to_nat (122 * 480)) 255.

Definition unset : Anchors := Build_Anchors 0 0 0 0 0 0 0 0 0 0.

(** A font with one drawn glyph: "A" is two pixels wide and its bitmap is
    the 2 x 2 square at offset 1 of the pool. *)
Definition square_glyph : FontCharacter :=
  {| character := swap_endian16 65; character_width := swap_endian16 2;
     bitmap_width := swap_endian16 2; bitmap_height := swap_endian16 2;
     bitmap_origin_x := 0; bitmap_origin_y := swap_endian16 2;
     hardware_character_index := 0; pixels_offset := swap_endian32 1 |}.

Definition square_font : Font :=
  {| ascending_height := swap_endian16 2; descending_height := swap_endian16 1;
     leading_height := 0; leading_width := 0 |}.

Definition square_characters : list FontCharacter := load_characters [square_glyph].

Definition square_pool : list Z := [7; 200; 100; 40; 255].

Definition player (points kill assist death : Z) : PlayerStats :=
  {| red := false; name := []; score := points; kills := kill; assists := assist;
     deaths := death |}.

(** Drawing changes the pixels of an image and nothing else. *)
Definition same_frame (a b : MonochromeImage) : Prop :=
  width a = width b /\ height a = height b /\ text a = text b
  /\ length (pixels a) = length (pixels b).

(** A screenshot of 4 x 480 pixels with ink at column 1 of row 0, and a
    blank template of 2 x 1 pixels. *)
Definition tiny_screenshot : list Z := [0; 255; 0; 0] ++ replicate (Z.to_nat (4 * 479)) 0.

Definition tiny_template : MonochromeImage :=
  {| width := 2; height := 1; pixels := [0; 0]; text := bytes "-" |}.

(** ** Scans that keep the best score *)

(** One turn of a scan that keeps the state made by the best-scoring
    element so far: [percent] reads the score kept in a state, [make] builds
    the state an element leaves when it wins. *)
Definition keep_best {A S : Type} (skipped : A -> bool) (value : A -> Q)
  (percent : S -> Q) (make : A -> S) (b : S) (a : A) : S :=
  if skipped a then b
  else if Qlt_b (percent b) (value a) then make a else b.

(** The score of a trial: the candidate matched at the cursor plus the
    offset; whether the trial is skipped; the state it leaves when it wins. *)
Definition trial_score (monochrome_version : list Z) (image_width x search_y : Z)
  (t : Z * Z * MonochromeImage) : Q :=
  match_ monochrome_version image_width (snd t)
         (u32 (x + snd (fst t))) (u32 (search_y + fst (fst t))).

Definition trial_skipped (x max_x : Z) (t : Z * Z * MonochromeImage) : bool :=
  2 * max_x <? 2 * x + width (snd t).

Definition trial_state (monochrome_version : list Z) (image_width x search_y : Z)
  (t : Z * Z * MonochromeImage) : best :=
  (trial_score monochrome_version image_width x search_y t,
   Some (hd 0 (text (snd t)), width (snd t), u32 (snd (fst t)))).

(** Every entry of a buffer is a byte. *)
Definition bytes_ok (buffer : list Z) : Prop := Forall (fun v => 0 <= v <= 255) buffer.

(** A screenshot of 122 x 480 pixels whose only ink is at column 121 of
    row 125. *)
Definition late_ink_screenshot : list Z :=
  replicate (Z.to_nat (125 * 122 + 121)) 0 ++ [255] ++ replicate (Z.to_nat (354 * 122)) 0.

(** The font of blank glyphs with ascending height 6 and descending height 0. *)
Definition tall_font : Font :=
  {| ascending_height := swap_endian16 6; descending_height := swap_endian16 0;
     leading_height := 0; leading_width := 0 |}.

(** A screenshot of 122 x 480 pixels with ink in column 121 from row 123 to
    row 475 and on row 477. *)
Definition ragged_screenshot : list Z :=
  replicate (Z.to_nat (123 * 122)) 0
  ++ concat (replicate (Z.to_nat 353) (replicate (Z.to_nat 121) 0 ++ [255]))
  ++ replicate (Z.to_nat 122) 0
  ++ (replicate (Z.to_nat 121) 0 ++ [255])
  ++ replicate (Z.to_nat (2 * 122)) 0.

(** The pixel of an image that [set_pixel] writes for the coordinates
    [(x, y)], when they are inside the image. *)
Definition written_index (drawn_text : MonochromeImage) (x y : Z) : option nat :=
  if (x <? width drawn_text) && (y <? height drawn_text)
  then Some (Z.to_nat (x + y * width drawn_text))
  else None.

(** The call of [set_pixel] for the bitmap pixel [p = (x, y)] of a glyph,
    and the pixel of the image it writes. *)
Definition glyph_write (monochrome_pixels : list Z) (font : Font) (c : FontCharacter)
  (x_cursor : Z) (drawn : MonochromeImage) (p : Z * Z) : MonochromeImage :=
  set_pixel drawn (u32 (x_cursor + fst p))
    (u32 (snd p + (swap_endian16 (ascending_height font)
                   - swap_endian16 (bitmap_origin_y c))))
    (px monochrome_pixels
        (swap_endian32 (pixels_offset c)
         + u32 (fst p + snd p * swap_endian16 (bitmap_width c)))).

Definition glyph_index (font : Font) (c : FontCharacter) (x_cursor : Z)
  (frame : MonochromeImage) (p : Z * Z) : option nat :=
  written_index frame (u32 (x_cursor + fst p))
    (u32 (snd p + (swap_endian16 (ascending_height font)
                   - swap_endian16 (bitmap_origin_y c)))).

(** The bitmap pixels of a glyph, row by row. *)
Definition bitmap_coordinates (c : FontCharacter) : list (Z * Z) :=
  flat_map (fun y => map (fun x => (x, y)) (range 0 (swap_endian16 (bitmap_width c))))
           (range 0 (swap_endian16 (bitmap_height c))).

(** A font whose glyph "A" has the advance width -1. *)
Definition backward_characters : list FontCharacter :=
  load_characters
    [{| character := swap_endian16 65; character_width := swap_endian16 (-1);
        bitmap_width := 0; bitmap_height := 0; bitmap_origin_x := 0; bitmap_origin_y := 0;
        hardware_character_index := 0; pixels_offset := 0 |}].

(** The order in which the two loops of a header search visit the
    positions: row by row, and from left to right within a row. *)
Definition scanned_before (p q : Z * Z) : Prop :=
  snd p < snd q \/ (snd p = snd q /\ fst p < fst q).

(** The look-alikes that "Fix some common errors" chooses between: one
    representative for each of {l, i, I}, {2, Z}, {a, e} and {n, m}; every
    other character stands for itself. *)
Definition look_alike (c : Z) : Z :=
  if (c =? char "l") || (c =? char "i") || (c =? char "I") then char "l"
  else if (c =? char "2") || (c =? char "Z") then char "2"
  else if (c =? char "a") || (c =? char "e") then char "a"
  else if (c =? char "n") || (c =? char "m") then char "n"
  else c.

(** Strings of the same length whose characters are look-alikes, index by
    index. *)
Definition alike (s s' : list Z) : Prop :=
  length s' = length s
  /\ forall j c, s !! j = Some c ->
       exists c', s' !! j = Some c' /\ look_alike c' = look_alike c.

(** A font whose only glyphs are the minus sign and the digits 0, 1 and 2,
    each blank and one pixel wide; a screenshot of 4 x 480 pixels whose only
    ink is at column 2 of row 10. *)
Definition digit_characters : list FontCharacter :=
  load_characters (map blank_glyph [45; 48; 49; 50]).

Definition dotted_screenshot : list Z :=
  replicate (Z.to_nat (4 * 10 + 2)) 0 ++ [255] ++ replicate (Z.to_nat (4 * 469 + 1)) 0.

(** Ink in column [column] of the screenshot, on the rows from [top] to
    [bottom - 1]. *)
Definition ink_in_column (monochrome_version : list Z) (image_width top bottom column : Z)
  : Prop :=
  exists y, top <= y < bottom
            /\ screenshot_pixel monochrome_version image_width column y <> 0.

(** The trials of "Use a names file": every offset of [-2, 2] x [-2, 2],
    rows first, with every index of the names. *)
Definition name_trials (names : list MonochromeImage) : list (Z * Z * nat) :=
  flat_map (fun my => flat_map (fun mx => map (fun i => (my, mx, i)) (seq 0 (length names)))
                               (range (-2) 3))
           (range (-2) 3).

(** Two names of a names file, rasterized as [main] does. *)
Definition sample_names : list MonochromeImage :=
  map (fun line => filtered (draw_text [] sample_characters tall_font line))
      [bytes "AD"; bytes "K"].

(** The pixels of a row between the name and the kills, in reading order;
    a pixel of the picture whose intensity is above 0x7F; the team that the
    colour of a pixel gives. *)
Definition name_cell (name_x kills_x y_cursor search : Z) : list (Z * Z) :=
  flat_map (fun y => map (fun x => (x, y)) (range name_x kills_x))
           (range y_cursor (y_cursor + search)).

Definition bright (image_data : list ImagePixel.t) (image_width : Z) (p : Z * Z) : bool :=
  match image_data !! Z.to_nat (fst p + image_width * snd p) with
  | Some pixel => 0x7F <? Monochrome pixel
  | None => false
  end.

Definition redder (image_data : list ImagePixel.t) (image_width : Z) (p : Z * Z) : bool :=
  match image_data !! Z.to_nat (fst p + image_width * snd p) with
  | Some pixel => ImagePixel.blue pixel <? ImagePixel.red pixel
  | None => false
  end.

(** A picture of 2 x 480 pixels, black but for a red pixel at column 0 of
    row 7. *)
Definition red_dot_picture : list ImagePixel.t :=
  replicate 14 (ImagePixel.Build_t 0 0 0 255)
  ++ [ImagePixel.Build_t 255 0 0 255]
  ++ replicate (Z.to_nat (2 * 480 - 15)) (ImagePixel.Build_t 0 0 0 255).

(** * Properties *)

(** ** Fixed-width integers *)

Lemma u32_range z : 0 <= u32 z < 2 ^ 32.
Proof. unfold u32. apply Z.mod_pos_bound. lia. Qed.

Lemma u32_small z : 0 <= z < 2 ^ 32 -> u32 z = z.
Proof. intros H. unfold u32. apply Z.mod_small. exact H. Qed.

Lemma u32_add_l a b : u32 (u32 a + b) = u32 (a + b).
Proof. unfold u32. apply Zplus_mod_idemp_l. Qed.

Lemma u32_add_r a b : u32 (a + u32 b) = u32 (a + b).
Proof. unfold u32. apply Zplus_mod_idemp_r. Qed.

Lemma i16_range z : - 2 ^ 15 <= i16 z < 2 ^ 15.
Proof. unfold i16. pose proof (Z.mod_pos_bound (z + 2 ^ 15) (2 ^ 16)). lia. Qed.

Lemma swap_endian16_range v : - 2 ^ 15 <= swap_endian16 v < 2 ^ 15.
Proof. apply i16_range. Qed.

Lemma elem_of_range lo hi k : k ∈ range lo hi <-> lo <= k < hi.
Proof. unfold range. rewrite elem_of_seqZ. lia. Qed.

(** ** The threshold *)


Lemma filter_pixel_idempotent m : filter_pixel (filter_pixel m) = filter_pixel m.
Proof. unfold filter_pixel, MINIMUM. destruct (m <? 79); reflexivity. Qed.

(** C9.  [filter_monochrome] sends every intensity strictly below [0x4F] to
    [0] and every other intensity to [0xFF], pixel by pixel, and filtering a
    buffer twice gives the same buffer as filtering it once. *)
Theorem filter_monochrome_threshold_idempotent :
  (forall m, m < 0x4F -> filter_pixel m = 0)
  /\ (forall m, 0x4F <= m -> filter_pixel m = 0xFF)
  /\ (forall (monochrome_data : list Z) (i : nat),
         filter_monochrome monochrome_data !! i = filter_pixel <$> monochrome_data !! i)
  /\ (forall monochrome_data,
         filter_monochrome (filter_monochrome monochrome_data)
         = filter_monochrome monochrome_data).
Proof.
  repeat split.
  - intros m Hm. unfold filter_pixel, MINIMUM.
    destruct (Z.ltb_spec m 79); [reflexivity | lia].
  - intros m Hm. unfold filter_pixel, MINIMUM.
    destruct (Z.ltb_spec m 79); [lia | reflexivity].
  - intros data i. unfold filter_monochrome. apply list_lookup_fmap.
  - intros data. unfold filter_monochrome. rewrite map_map.
    apply map_ext. intros m. apply filter_pixel_idempotent.
Qed.

Lemma filter_monochrome_threshold_idempotent_witness :
  filter_pixel 0x4E = 0 /\ filter_pixel 0x4F = 0xFF.
Proof.
  destruct filter_monochrome_threshold_idempotent as (Hlow & Hhigh & _).
  split; [apply Hlow; lia | apply Hhigh; lia].
Defined.

(** ** The rasterizer: dimensions *)

Section RasterizerFacts.
Variable monochrome_pixels : list Z.
Variable characters : list FontCharacter.
Variable font : Font.

Abbreviation draw_glyph' := (draw_glyph monochrome_pixels font).
Abbreviation draw_character' := (draw_character monochrome_pixels font).
Abbreviation draw_text' := (draw_text monochrome_pixels characters font).


Lemma same_frame_refl a : same_frame a a.
Proof. repeat split. Qed.

Lemma same_frame_trans a b c : same_frame a b -> same_frame b c -> same_frame a c.
Proof. unfold same_frame. intuition congruence. Qed.

Lemma set_pixel_frame i x y p : same_frame (set_pixel i x y p) i.
Proof.
  unfold set_pixel. destruct (_ && _); [| apply same_frame_refl].
  repeat split. simpl. apply length_insert.
Qed.

Lemma foldl_frame {A} (f : MonochromeImage -> A -> MonochromeImage) l :
  (forall i a, same_frame (f i a) i) -> forall i, same_frame (foldl f i l) i.
Proof.
  intros Hf. induction l as [| a l IH]; intros i; simpl.
  - apply same_frame_refl.
  - eapply same_frame_trans; [apply IH | apply Hf].
Qed.

Lemma draw_glyph_frame c x_cursor i : same_frame (draw_glyph' c x_cursor i) i.
Proof.
  unfold draw_glyph. destruct (_ && _); [| apply same_frame_refl].
  apply foldl_frame. intros j y. apply foldl_frame. intros k x. apply set_pixel_frame.
Qed.

Lemma draw_characters_frame l : forall st,
  same_frame (fst (foldl draw_character' st l)) (fst st).
Proof.
  induction l as [| c l IH]; intros st; simpl.
  - apply same_frame_refl.
  - eapply same_frame_trans; [apply IH |]. simpl. apply draw_glyph_frame.
Qed.

Lemma text_width_from l : forall w, 0 <= w < 2 ^ 32 ->
  foldl (fun w c => u32 (w + swap_endian16 (character_width c))) w l
  = u32 (w + total (map (fun c => swap_endian16 (character_width c)) l)).
Proof.
  induction l as [| c l IH]; intros w Hw; simpl.
  - rewrite Z.add_0_r. symmetry. apply u32_small, Hw.
  - rewrite IH by apply u32_range. rewrite u32_add_l. f_equal. lia.
Qed.

Lemma text_width_total l :
  text_width l = u32 (total (map (fun c => swap_endian16 (character_width c)) l)).
Proof. unfold text_width. rewrite text_width_from by lia. reflexivity. Qed.

Lemma draw_text_width text :
  width (draw_text' text) = text_width (map (glyph characters) (c_str text)).
Proof.
  unfold draw_text.
  destruct (draw_characters_frame (map (glyph characters) (c_str text))
              ({| width := text_width (map (glyph characters) (c_str text));
                  height := u32 (swap_endian16 (ascending_height font)
                                 + swap_endian16 (descending_height font));
                  pixels := replicate (Z.to_nat (u32 (u32 (swap_endian16 (ascending_height font)
                                 + swap_endian16 (descending_height font))
                            * text_width (map (glyph characters) (c_str text))))) 0;
                  text := c_str text |}, 0)) as (Hw & _).
  exact Hw.
Qed.

Lemma draw_text_height text :
  height (draw_text' text)
  = u32 (swap_endian16 (ascending_height font) + swap_endian16 (descending_height font)).
Proof.
  unfold draw_text.
  match goal with |- height (fst (foldl _ ?st ?l)) = _ =>
    destruct (draw_characters_frame l st) as (_ & Hh & _) end.
  exact Hh.
Qed.

Lemma c_str_nonzero text : Forall (fun c => c <> 0) (c_str text).
Proof.
  induction text as [| c rest IH]; simpl; [constructor |].
  destruct (Z.eqb_spec c 0); constructor; assumption.
Qed.

Lemma c_str_single c : c <> 0 -> c_str [c] = [c].
Proof. intros H. simpl. destruct (Z.eqb_spec c 0); [contradiction | reflexivity]. Qed.

Lemma c_str_no_nul text : Forall (fun c => c <> 0) text -> c_str text = text.
Proof.
  induction 1 as [| c rest Hc _ IH]; simpl; [reflexivity |].
  destruct (Z.eqb_spec c 0); [contradiction | f_equal; exact IH].
Qed.

Lemma total_u32 (f : Z -> Z) l : u32 (total (map (fun c => u32 (f c)) l)) = u32 (total (map f l)).
Proof.
  induction l as [| c l IH]; simpl; [reflexivity |].
  rewrite u32_add_l. rewrite <- u32_add_r, IH, u32_add_r. reflexivity.
Qed.

Lemma single_width c :
  c <> 0 -> width (draw_text' [c]) = u32 (advance characters c).
Proof.
  intros Hc. rewrite draw_text_width, c_str_single by exact Hc.
  unfold text_width. simpl. reflexivity.
Qed.

Lemma total_nonnegative l : Forall (fun z => 0 <= z) l -> 0 <= total l.
Proof. induction 1; simpl; lia. Qed.

(** C4.  The image [draw_text] returns has the height
    [ascending_height + descending_height] and the width that is the sum of
    the [character_width] of the characters of the string (the bytes before
    its terminating NUL), as the [std::uint32_t] values the code computes;
    therefore the width of a string is the sum of the widths of its
    characters rasterized alone.  The 32-bit values are the plain sums when
    the heights do not add up to a negative number, no advance width is
    negative and the widths add up to less than 2^32. *)
Theorem draw_text_dimensions (text : list Z) :
  height (draw_text' text)
  = u32 (swap_endian16 (ascending_height font) + swap_endian16 (descending_height font))
  /\ width (draw_text' text) = u32 (total (map (advance characters) (c_str text)))
  /\ width (draw_text' text)
     = u32 (total (map (fun c => width (draw_text' [c])) (c_str text)))
  /\ (0 <= swap_endian16 (ascending_height font) + swap_endian16 (descending_height font) ->
      height (draw_text' text)
      = swap_endian16 (ascending_height font) + swap_endian16 (descending_height font))
  /\ (Forall (fun c => 0 <= advance characters c) (c_str text) ->
      total (map (advance characters) (c_str text)) < 2 ^ 32 ->
      width (draw_text' text) = total (map (advance characters) (c_str text))
      /\ width (draw_text' text)
         = total (map (fun c => width (draw_text' [c])) (c_str text))).
Proof.
  assert (Hh : height (draw_text' text)
               = u32 (swap_endian16 (ascending_height font)
                      + swap_endian16 (descending_height font)))
    by apply draw_text_height.
  assert (Hw : width (draw_text' text) = u32 (total (map (advance characters) (c_str text)))).
  { rewrite draw_text_width, text_width_total, map_map. reflexivity. }
  assert (Hsingle : Forall (fun c => width (draw_text' [c]) = u32 (advance characters c))
                           (c_str text)).
  { eapply Forall_impl; [apply c_str_nonzero |]. intros c Hc. apply single_width, Hc. }
  split; [exact Hh |]. split; [exact Hw |]. split; [| split].
  - rewrite Hw, <- (total_u32 (advance characters)). do 2 f_equal.
    symmetry. apply map_ext_Forall, Hsingle.
  - intros Hpos. rewrite Hh. apply u32_small.
    pose proof (swap_endian16_range (ascending_height font)).
    pose proof (swap_endian16_range (descending_height font)). lia.
  - intros Hadv Hsum.
    assert (Hexact : width (draw_text' text) = total (map (advance characters) (c_str text))).
    { rewrite Hw. apply u32_small. split; [| exact Hsum].
      apply total_nonnegative. apply Forall_map. exact Hadv. }
    split; [exact Hexact |]. rewrite Hexact. f_equal. apply map_ext_Forall.
    rewrite Forall_forall in Hadv, Hsingle. apply Forall_forall. intros c Hc.
    rewrite (Hsingle c Hc). symmetry. apply u32_small.
    specialize (Hadv c Hc). unfold advance in *.
    pose proof (swap_endian16_range (character_width (glyph characters c))). lia.
Qed.
End RasterizerFacts.

Lemma draw_text_dimensions_witness :
  height (draw_text square_pool square_characters square_font (bytes "AA")) = 2 + 1
  /\ width (draw_text square_pool square_characters square_font (bytes "AA")) = 2 + (2 + 0).
Proof.
  destruct (draw_text_dimensions square_pool square_characters square_font (bytes "AA"))
    as (_ & _ & _ & Hheight & Hwidth).
  split.
  - apply Hheight. vm_compute. discriminate.
  - apply Hwidth.
    + repeat constructor; vm_compute; discriminate.
    + vm_compute. reflexivity.
Defined.

(** ** Counting loops *)

Lemma foldl_hits {A} (code spec : A -> bool) (l : list A) :
  (forall a, In a l -> code a = spec a) ->
  forall h, 0 <= h -> h + Z.of_nat (length l) < 2 ^ 32 ->
  foldl (fun h a => u32 (h + (if code a then 1 else 0))) h l
  = h + Z.of_nat (length (List.filter spec l)).
Proof.
  induction l as [| a l IH]; intros Heq h Hh Hlen; simpl in *.
  - lia.
  - rewrite (Heq a) by (left; reflexivity).
    assert (Hstep : u32 (h + (if spec a then 1 else 0)) = h + (if spec a then 1 else 0)).
    { apply u32_small. destruct (spec a); lia. }
    rewrite Hstep. rewrite IH; [| intros; apply Heq; right; assumption
                                | destruct (spec a); lia | destruct (spec a); lia].
    destruct (spec a); simpl; lia.
Qed.

Lemma filter_length_le {A} (f : A -> bool) l : (length (List.filter f l) <= length l)%nat.
Proof. induction l as [| a l IH]; simpl; [lia |]. destruct (f a); simpl; lia. Qed.

Lemma length_range lo hi : Z.of_nat (length (range lo hi)) = Z.max 0 (hi - lo).
Proof. unfold range. rewrite length_seqZ. lia. Qed.

Lemma In_range lo hi k : In k (range lo hi) <-> lo <= k < hi.
Proof. rewrite <- list_elem_of_In. apply elem_of_range. Qed.

Lemma foldl_hits_rows {A B} (code spec : A * B -> bool) (cols : list A) (rows : list B) :
  (forall a b, In a cols -> In b rows -> code (a, b) = spec (a, b)) ->
  forall h, 0 <= h -> h + Z.of_nat (length rows) * Z.of_nat (length cols) < 2 ^ 32 ->
  foldl (fun h b => foldl (fun h a => u32 (h + (if code (a, b) then 1 else 0))) h cols) h rows
  = h + Z.of_nat (length (List.filter spec
                            (flat_map (fun b => map (fun a => (a, b)) cols) rows))).
Proof.
  induction rows as [| b rows IH]; intros Heq h Hh Hlen; simpl in *.
  - lia.
  - rewrite (foldl_hits (fun a => code (a, b)) (fun a => spec (a, b)));
      [| intros; apply Heq; [assumption | left; reflexivity] | assumption | nia].
    pose proof (filter_length_le (fun a => spec (a, b)) cols) as Hle.
    rewrite IH; [| intros; apply Heq; [assumption | right; assumption] | lia | nia].
    rewrite List.filter_app, length_app.
    assert (Hrow : length (List.filter spec (map (fun a => (a, b)) cols))
                   = length (List.filter (fun a => spec (a, b)) cols)).
    { clear. induction cols as [| a cols IH]; simpl; [reflexivity |].
      destruct (spec (a, b)); simpl; rewrite IH; reflexivity. }
    rewrite Hrow. lia.
Qed.

Lemma length_coordinates {A B} (cols : list A) (rows : list B) :
  length (flat_map (fun b => map (fun a => (a, b)) cols) rows)
  = (length rows * length cols)%nat.
Proof.
  induction rows as [| b rows IH]; simpl; [reflexivity |].
  rewrite length_app, length_map, IH. reflexivity.
Qed.

Lemma In_coordinates {A B} (cols : list A) (rows : list B) a b :
  In (a, b) (flat_map (fun b => map (fun a => (a, b)) cols) rows) <-> In a cols /\ In b rows.
Proof.
  rewrite in_flat_map. split.
  - intros (b' & Hb & Hin). apply in_map_iff in Hin as (a' & Heq & Ha).
    inversion Heq; subst. split; assumption.
  - intros (Ha & Hb). exists b. split; [assumption |].
    apply in_map_iff. exists a. split; [reflexivity | assumption].
Qed.


(** ** The template matcher *)

Lemma classic_outside (text : MonochromeImage) (image_width x y : Z) :
  (image_width < x + width text \/ 480 < y + height text
   \/ width text = 0 \/ height text = 0)
  \/ ~ (image_width < x + width text \/ 480 < y + height text
        \/ width text = 0 \/ height text = 0).
Proof. lia. Qed.

Section MatcherFacts.
Variable monochrome_version : list Z.
Variable image_width : Z.
Hypothesis screenshot : screenshot_ok monochrome_version image_width.

Abbreviation match_' := (match_ monochrome_version image_width).
Abbreviation hit_count' := (hit_count monochrome_version image_width).

Section Placement.
Variable text : MonochromeImage.
Variables x y : Z.
Hypothesis template : image_ok text.
Hypothesis x_range : 0 <= x.
Hypothesis y_range : 0 <= y.
Hypothesis x_end : x + width text < 2 ^ 32.
Hypothesis y_end : y + height text < 2 ^ 32.

Lemma match_outside :
  image_width < x + width text \/ 480 < y + height text
  \/ width text = 0 \/ height text = 0 ->
  match_' text x y = 0%Q.
Proof.
  destruct template as (Hw & Hh & _).
  intros Hout. unfold match_.
  rewrite !u32_small by lia.
  destruct (Z.ltb_spec image_width (x + width text)); [reflexivity |].
  destruct (Z.ltb_spec 480 (y + height text)); [reflexivity |].
  destruct (Z.eqb_spec (width text) 0); [reflexivity |].
  destruct (Z.eqb_spec (height text) 0); [reflexivity |].
  lia.
Qed.

Hypothesis inside :
  ~ (image_width < x + width text \/ 480 < y + height text
     \/ width text = 0 \/ height text = 0).

Lemma match_reads_in_bounds tx ty :
  0 <= tx < width text -> 0 <= ty < height text ->
  0 <= tx + ty * width text < Z.of_nat (length (pixels text))
  /\ 0 <= x + tx + (y + ty) * image_width < Z.of_nat (length monochrome_version).
Proof.
  destruct template as (Hw & Hh & Hwh & Hlen).
  destruct screenshot as (Hiw & Hmax & Hmono).
  intros Htx Hty. rewrite Hlen, Hmono. split; nia.
Qed.

Lemma match_inside :
  match_' text x y = hit_count' text x y # Z.to_pos (width text * height text).
Proof.
  destruct template as (Hw & Hh & Hwh & Hlen).
  destruct screenshot as (Hiw & Hmax & Hmono).
  unfold match_.
  rewrite !(u32_small (_ + _)) by lia.
  destruct (Z.ltb_spec image_width (x + width text)); [lia |].
  destruct (Z.ltb_spec 480 (y + height text)); [lia |].
  destruct (Z.eqb_spec (width text) 0); [lia |].
  destruct (Z.eqb_spec (height text) 0); [lia |].
  simpl orb. cbv iota.
  rewrite (u32_small (height text * width text)) by nia.
  replace (height text * width text) with (width text * height text) by lia.
  f_equal.
  set (code := fun p : Z * Z =>
    let text_pixel := px (pixels text) (u32 (fst p + snd p * width text)) in
    let image_pixel := px monochrome_version (u32 (fst p + x + (snd p + y) * image_width)) in
    let difference := text_pixel - image_pixel in
    let difference := if difference <? 0 then difference * -1 else difference in
    difference <? 16).
  change (foldl (fun hits ty => foldl (fun hits tx => u32 (hits + (if code (tx, ty) then 1 else 0)))
                                      hits (range 0 (width text))) 0 (range 0 (height text))
          = hit_count' text x y).
  rewrite (foldl_hits_rows code (is_hit monochrome_version image_width text x y)).
  - reflexivity.
  - intros tx ty Htx Hty. apply In_range in Htx, Hty.
    destruct (match_reads_in_bounds tx ty) as (Ht & Hs); [lia | lia |].
    unfold code, is_hit, template_pixel, screenshot_pixel. simpl fst. simpl snd.
    rewrite (u32_small (tx + ty * width text)) by lia.
    rewrite (u32_small (tx + x + (ty + y) * image_width)) by lia.
    replace (tx + x + (ty + y) * image_width) with (x + tx + (y + ty) * image_width) by lia.
    cbv zeta.
    destruct (Z.ltb_spec (px (pixels text) (tx + ty * width text)
                          - px monochrome_version (x + tx + (y + ty) * image_width)) 0).
    + rewrite Z.abs_neq by lia. f_equal. lia.
    + rewrite Z.abs_eq by lia. reflexivity.
  - lia.
  - rewrite !length_range. nia.
Qed.

Lemma hit_count_range : 0 <= hit_count' text x y <= width text * height text.
Proof.
  destruct template as (Hw & Hh & _).
  unfold hit_count, template_coordinates.
  pose proof (filter_length_le (is_hit monochrome_version image_width text x y)
                (flat_map (fun ty => map (fun tx => (tx, ty)) (range 0 (width text)))
                          (range 0 (height text)))) as Hle.
  rewrite length_coordinates in Hle.
  pose proof (length_range 0 (width text)). pose proof (length_range 0 (height text)).
  nia.
Qed.
End Placement.

End MatcherFacts.


(** ** Keeping the best score of a scan *)

Lemma Qlt_b_true a b : Qlt_b a b = true <-> (a < b)%Q.
Proof.
  unfold Qlt_b. rewrite negb_true_iff. split.
  - intros H. apply Qnot_le_lt. intros Hle. apply Qle_bool_iff in Hle. congruence.
  - intros H. destruct (Qle_bool b a) eqn:E; [| reflexivity].
    apply Qle_bool_iff in E. exfalso. exact (Qlt_not_le _ _ H E).
Qed.

Lemma Qlt_b_false a b : Qlt_b a b = false <-> (b <= a)%Q.
Proof.
  unfold Qlt_b. rewrite negb_false_iff. apply Qle_bool_iff.
Qed.

Lemma foldl_coordinates {A B C} (f : C -> A * B -> C) (cols : list A) (rows : list B) :
  forall acc,
  foldl (fun acc b => foldl (fun acc a => f acc (a, b)) acc cols) acc rows
  = foldl f acc (flat_map (fun b => map (fun a => (a, b)) cols) rows).
Proof.
  induction rows as [| b rows IH]; intros acc; simpl; [reflexivity |].
  rewrite foldl_app, IH. f_equal.
  clear. revert acc. induction cols as [| a cols IH]; intros acc; simpl; [reflexivity |].
  apply IH.
Qed.


Lemma foldl_same {A B} (f g : B -> A -> B) (l : list A) :
  (forall b a, f b a = g b a) -> forall b, foldl f b l = foldl g b l.
Proof.
  intros Hfg. induction l as [| a l IH]; intros b; simpl; [reflexivity |].
  rewrite Hfg. apply IH.
Qed.

Section BestOf.
Context {A S : Type}.
Variable skipped : A -> bool.
Variable value : A -> Q.
Variable percent : S -> Q.
Variable make : A -> S.
Hypothesis percent_make : forall a, percent (make a) = value a.

Abbreviation keep := (keep_best skipped value percent make).

Lemma keep_best_grows l : forall b, (percent b <= percent (foldl keep b l))%Q.
Proof.
  induction l as [| a l IH]; intros b; simpl; [apply Qle_refl |].
  eapply Qle_trans; [| apply IH].
  unfold keep_best. destruct (skipped a); [apply Qle_refl |].
  destruct (Qlt_b (percent b) (value a)) eqn:E; [| apply Qle_refl].
  rewrite percent_make. apply Qlt_le_weak, Qlt_b_true, E.
Qed.

Lemma keep_best_bounds l : forall b a,
  In a l -> skipped a = false -> (value a <= percent (foldl keep b l))%Q.
Proof.
  induction l as [| a' l IH]; intros b a Hin Hs; simpl in *; [contradiction |].
  destruct Hin as [-> | Hin]; [| apply IH; assumption].
  eapply Qle_trans; [| apply keep_best_grows].
  unfold keep_best. rewrite Hs.
  destruct (Qlt_b (percent b) (value a)) eqn:E.
  - rewrite percent_make. apply Qle_refl.
  - apply Qlt_b_false, E.
Qed.

Lemma keep_best_attained l : forall b,
  (foldl keep b l = b
   /\ forall a, In a l -> skipped a = false -> (value a <= percent b)%Q)
  \/ exists a, In a l /\ skipped a = false
               /\ foldl keep b l = make a /\ (percent b < value a)%Q.
Proof.
  induction l as [| a l IH]; intros b; simpl.
  - left. split; [reflexivity | intros a []].
  - destruct (IH (keep b a)) as [(Heq & Hle) | (a' & Hin & Hs & Heq & Hlt)].
    + rewrite Heq. unfold keep_best in *. destruct (skipped a) eqn:Es.
      * left. split; [reflexivity |]. intros a' [-> | Hin] Hs'; [congruence | auto].
      * destruct (Qlt_b (percent b) (value a)) eqn:E.
        -- right. exists a. repeat split; auto. apply Qlt_b_true, E.
        -- left. split; [reflexivity |]. intros a' [-> | Hin] Hs'; [| auto].
           apply Qlt_b_false, E.
    + right. exists a'. repeat split; auto.
      eapply Qle_lt_trans; [| exact Hlt].
      unfold keep_best. destruct (skipped a); [apply Qle_refl |].
      destruct (Qlt_b (percent b) (value a)) eqn:E; [| apply Qle_refl].
      rewrite percent_make. apply Qlt_le_weak, Qlt_b_true, E.
Qed.
End BestOf.

(** ** Header calibration *)

Section CalibrationFacts.
Variable monochrome_version : list Z.
Variable image_width : Z.
Variable monochrome_pixels : list Z.
Variable characters : list FontCharacter.
Variable font : Font.

Abbreviation match_' := (match_ monochrome_version image_width).
Abbreviation find_header_text' :=
  (find_header_text monochrome_version image_width monochrome_pixels characters font).
Abbreviation header := (fun text => filtered (draw_text monochrome_pixels characters font text)).

Lemma scan_window_keep_best text_drawn min_x min_y found :
  scan_window monochrome_version image_width font text_drawn min_x min_y found
  = foldl (keep_best (fun _ => false) (fun p => match_' text_drawn (fst p) (snd p))
                     (fun s : Q * Z * Z => fst (fst s))
                     (fun p => (match_' text_drawn (fst p) (snd p), fst p, snd p)))
          found (search_window image_width font min_x min_y).
Proof.
  unfold scan_window, search_window.
  rewrite <- (foldl_coordinates
                (keep_best (fun _ => false) (fun p => match_' text_drawn (fst p) (snd p))
                           (fun s : Q * Z * Z => fst (fst s))
                           (fun p => (match_' text_drawn (fst p) (snd p), fst p, snd p)))).
  apply foldl_same. intros acc y. revert acc. apply foldl_same. intros [[found_percent found_x] found_y] x.
  unfold try_position, keep_best. simpl.
  destruct (Qlt_b found_percent (match_' text_drawn x y)); reflexivity.
Qed.

(** What the scan of a header leaves in [found_percent], [found_x], [found_y]. *)
Lemma scan_window_best text_drawn min_x min_y found_x found_y :
  let window := search_window image_width font min_x min_y in
  let value := fun p : Z * Z => match_' text_drawn (fst p) (snd p) in
  let found := scan_window monochrome_version image_width font text_drawn min_x min_y
                           (0%Q, found_x, found_y) in
  (forall p, In p window -> (value p <= fst (fst found))%Q)
  /\ ((found = (0%Q, found_x, found_y) /\ forall p, In p window -> (value p <= 0)%Q)
      \/ exists p, In p window /\ found = (value p, fst p, snd p) /\ (0 < value p)%Q).
Proof.
  intros window value found. subst found. rewrite scan_window_keep_best.
  fold window. split.
  - intros p Hp.
    apply (keep_best_bounds (fun _ => false) value (fun s : Q * Z * Z => fst (fst s))
                            (fun p => (value p, fst p, snd p)) (fun _ => eq_refl));
      [assumption | reflexivity].
  - destruct (keep_best_attained (fun _ => false) value (fun s : Q * Z * Z => fst (fst s))
                (fun p => (value p, fst p, snd p)) (fun _ => eq_refl)
                window (0%Q, found_x, found_y))
      as [(Heq & Hle) | (p & Hin & _ & Heq & Hlt)].
    + left. split; [exact Heq |]. intros p Hp. apply Hle; [assumption | reflexivity].
    + right. exists p. repeat split; assumption.
Qed.


Lemma In_search_window min_x min_y x y :
  In (x, y) (search_window image_width font min_x min_y)
  <-> min_x <= x < image_width /\ min_y <= y < u32 (min_y + line_height_search font).
Proof.
  unfold search_window. rewrite In_coordinates, !In_range. reflexivity.
Qed.

(** A header that is found lies in its window. *)
Lemma find_header_text_found text min_x min_y found_x found_y x y :
  find_header_text' text min_x min_y found_x found_y = Continue (x, y) ->
  In (x, y) (search_window image_width font min_x min_y).
Proof.
  pose proof (scan_window_best (header text) min_x min_y found_x found_y) as Hscan.
  cbv zeta in Hscan. unfold find_header_text.
  destruct (scan_window monochrome_version image_width font (header text)
              min_x min_y (0%Q, found_x, found_y)) as [[found_percent fx] fy].
  simpl in Hscan. destruct Hscan as (_ & Hbest).
  destruct (Qlt_b found_percent (85 # 100)) eqn:E; [discriminate |].
  intros Heq. inversion Heq; subst.
  destruct Hbest as [(Hinit & _) | (p & Hin & Hp & _)].
  - inversion Hinit; subst. discriminate E.
  - inversion Hp; subst. destruct p. exact Hin.
Qed.

Abbreviation find_headers' :=
  (find_headers monochrome_version image_width monochrome_pixels characters font).

(** C2, as the code has it.  When the five searches succeed, each header
    after "Name" was searched in the window that starts at the previous
    header's found x and, for all four, at the found y of "Name" minus 10;
    it was found inside that window. *)
Theorem find_headers_windows (u a : Anchors) :
  find_headers' u = Continue a ->
  let min_y := u32 (name_y a - 10) in
  find_header_text' (bytes "Name") 120 120 (name_x u) (name_y u)
  = Continue (name_x a, name_y a)
  /\ find_header_text' (bytes "Score") (name_x a) min_y (score_x u) (score_y u)
     = Continue (score_x a, score_y a)
  /\ find_header_text' (bytes "Kills") (score_x a) min_y (kills_x u) (kills_y u)
     = Continue (kills_x a, kills_y a)
  /\ find_header_text' (bytes "Assists") (kills_x a) min_y (assists_x u) (assists_y u)
     = Continue (assists_x a, assists_y a)
  /\ find_header_text' (bytes "Deaths") (assists_x a) min_y (deaths_x u) (deaths_y u)
     = Continue (deaths_x a, deaths_y a)
  /\ In (score_x a, score_y a) (search_window image_width font (name_x a) min_y)
  /\ In (kills_x a, kills_y a) (search_window image_width font (score_x a) min_y)
  /\ In (assists_x a, assists_y a) (search_window image_width font (kills_x a) min_y)
  /\ In (deaths_x a, deaths_y a) (search_window image_width font (assists_x a) min_y).
Proof.
  unfold find_headers, outcome_bind.
  destruct (find_header_text' (bytes "Name") 120 120 (name_x u) (name_y u))
    as [[nx ny] |] eqn:Ename; [| discriminate].
  destruct (find_header_text' (bytes "Score") nx (u32 (ny - 10)) (score_x u) (score_y u))
    as [[sx sy] |] eqn:Escore; [| discriminate].
  destruct (find_header_text' (bytes "Kills") sx (u32 (ny - 10)) (kills_x u) (kills_y u))
    as [[kx ky] |] eqn:Ekills; [| discriminate].
  destruct (find_header_text' (bytes "Assists") kx (u32 (ny - 10)) (assists_x u) (assists_y u))
    as [[ax ay] |] eqn:Eassists; [| discriminate].
  destruct (find_header_text' (bytes "Deaths") ax (u32 (ny - 10)) (deaths_x u) (deaths_y u))
    as [[dx dy] |] eqn:Edeaths; [| discriminate].
  intros Heq. inversion Heq; subst. simpl.
  repeat split; try assumption; eapply find_header_text_found; eassumption.
Qed.
End CalibrationFacts.


Lemma find_headers_windows_witness :
  In (kills_x (Build_Anchors 120 120 120 110 120 110 120 110 120 110),
      kills_y (Build_Anchors 120 120 120 110 120 110 120 110 120 110))
     (search_window 122 sample_font 120 (u32 (120 - 10))).
Proof.
  apply (find_headers_windows blank_screenshot 122 [] sample_characters sample_font unset
           (Build_Anchors 120 120 120 110 120 110 120 110 120 110)).
  vm_compute. reflexivity.
Defined.

(** C2, as the specification words it, fails: on a blank screenshot the
    headers are found at (120, 120) and then four times at (120, 110); the
    search for "Kills" started at row 120 - 10, not at the row of "Score"
    minus 10, and found "Kills" outside the rows the specification allows. *)
Lemma find_headers_not_as_specified :
  let a := Build_Anchors 120 120 120 110 120 110 120 110 120 110 in
  find_headers blank_screenshot 122 [] sample_characters sample_font unset = Continue a
  /\ ~ In (kills_x a, kills_y a)
         (search_window 122 sample_font (score_x a) (u32 (score_y a - 10)))
  /\ specified_find_headers blank_screenshot 122 [] sample_characters sample_font unset
     <> Continue a.
Proof.
  cbv zeta. split; [vm_compute; reflexivity |]. split.
  - rewrite In_search_window. intros (_ & _ & H). vm_compute in H. discriminate H.
  - vm_compute. discriminate.
Qed.


(** ** The decoding loop of [string_at] *)

Lemma foldl_flat_map {A B C} (f : C -> B -> C) (g : A -> list B) (l : list A) :
  forall acc, foldl f acc (flat_map g l) = foldl (fun acc a => foldl f acc (g a)) acc l.
Proof.
  induction l as [| a l IH]; intros acc; simpl; [reflexivity |].
  rewrite foldl_app. apply IH.
Qed.

Lemma foldl_map {A B C} (f : C -> B -> C) (h : A -> B) (l : list A) :
  forall acc, foldl f acc (map h l) = foldl (fun acc a => f acc (h a)) acc l.
Proof.
  induction l as [| a l IH]; intros acc; simpl; [reflexivity | apply IH].
Qed.

Lemma In_trials table my mx c :
  In (my, mx, c) (trials table) <-> -3 <= my <= 3 /\ -3 <= mx <= 3 /\ In c table.
Proof.
  unfold trials. rewrite in_flat_map. split.
  - intros (my' & Hmy & Hin). apply in_flat_map in Hin as (mx' & Hmx & Hin).
    apply in_map_iff in Hin as (c' & Heq & Hc). inversion Heq; subst.
    apply In_range in Hmy, Hmx. repeat split; try lia. exact Hc.
  - intros (Hmy & Hmx & Hc). exists my. split; [apply In_range; lia |].
    apply in_flat_map. exists mx. split; [apply In_range; lia |].
    apply in_map_iff. exists c. split; [reflexivity | exact Hc].
Qed.

Section DecoderFacts.
Variable monochrome_version : list Z.
Variable image_width : Z.
Variable table : list MonochromeImage.
Variables x max_x search_y : Z.

Abbreviation match_' := (match_ monochrome_version image_width).
Abbreviation decode' := (decode monochrome_version image_width).

Abbreviation trial_score' := (trial_score monochrome_version image_width x search_y).
Abbreviation trial_skipped' := (trial_skipped x max_x).
Abbreviation trial_state' := (trial_state monochrome_version image_width x search_y).

Lemma best_candidate_keep_best :
  best_candidate monochrome_version image_width table x max_x search_y
  = foldl (keep_best trial_skipped' trial_score' fst trial_state') (0%Q, None) (trials table).
Proof.
  unfold best_candidate, trials. rewrite foldl_flat_map.
  apply foldl_same. intros b my. rewrite foldl_flat_map.
  revert b. apply foldl_same. intros b mx. rewrite foldl_map.
  revert b. apply foldl_same. intros b c.
  unfold try_candidate, keep_best, trial_skipped, trial_score,
    trial_state. simpl.
  reflexivity.
Qed.

Lemma trial_skipped_overshoots t :
  trial_skipped' t = false <-> ~ overshoots x max_x (snd t).
Proof. unfold trial_skipped, overshoots. rewrite Z.ltb_ge. lia. Qed.

End DecoderFacts.


(** ** Row segmentation *)

Lemma read_in_bounds buffer i :
  0 <= i < Z.of_nat (length buffer) -> read buffer i = Done (px buffer i).
Proof.
  intros Hi. unfold read, px.
  destruct (buffer !! Z.to_nat i) as [v |] eqn:E; [reflexivity |].
  apply lookup_ge_None in E. lia.
Qed.

Lemma read_out_of_bounds buffer i :
  Z.of_nat (length buffer) <= i -> read buffer i = OutOfBounds i.
Proof.
  intros Hi. unfold read.
  destruct (buffer !! Z.to_nat i) as [v |] eqn:E; [| reflexivity].
  apply lookup_lt_Some in E. lia.
Qed.

Lemma px_byte buffer i : bytes_ok buffer -> 0 <= px buffer i <= 255.
Proof.
  intros Hb. unfold px. destruct (buffer !! Z.to_nat i) as [v |] eqn:E; simpl; [| lia].
  unfold bytes_ok in Hb. rewrite Forall_forall in Hb. apply Hb.
  eapply list_elem_of_lookup_2. exact E.
Qed.

Section SegmentationFacts.
Variable monochrome_version : list Z.
Variable image_width : Z.
Variable font : Font.
Variable deaths_x : Z.
Hypothesis screenshot : screenshot_ok monochrome_version image_width.
Hypothesis intensities : bytes_ok monochrome_version.
Hypothesis deaths_x_range : 0 <= deaths_x.

Abbreviation ink_in_row' := (ink_in_row monochrome_version image_width deaths_x).
Abbreviation pixel := (screenshot_pixel monochrome_version image_width).

Lemma pixel_index x y :
  0 <= x < image_width -> 0 <= y < 480 ->
  read monochrome_version (u32 (x + y * image_width)) = Done (pixel x y).
Proof.
  destruct screenshot as (Hw & Hmax & Hlen). intros Hx Hy.
  rewrite u32_small by nia. apply read_in_bounds. rewrite Hlen. nia.
Qed.

(** Both row scans, on a row of the screenshot. *)
Lemma row_has_ink_spec y xs :
  0 <= y < 480 -> Forall (fun x => 0 <= x < image_width) xs ->
  exists ink, row_has_ink monochrome_version image_width y xs = Done ink
              /\ (ink = true <-> exists x, In x xs /\ pixel x y <> 0).
Proof.
  intros Hy. induction 1 as [| x xs Hx _ IH]; simpl.
  - exists false. split; [reflexivity |]. split; [discriminate | intros (x & [] & _)].
  - rewrite pixel_index by assumption. simpl.
    destruct (Z.eqb_spec (pixel x y) 0) as [Hz | Hnz].
    + destruct IH as (ink & Hrun & Hink). exists ink. split; [exact Hrun |].
      rewrite Hink. split.
      * intros (x' & Hin & Hp). exists x'. split; [right; exact Hin | exact Hp].
      * intros (x' & [<- | Hin] & Hp); [contradiction |]. exists x'. split; assumption.
    + exists true. split; [reflexivity |]. split; [| reflexivity].
      intros _. exists x. split; [left; reflexivity | exact Hnz].
Qed.

Lemma found_in_row_spec y xs :
  0 <= y < 480 -> Forall (fun x => 0 <= x < image_width) xs ->
  exists found, found_in_row monochrome_version image_width y xs = Done found
                /\ (found = true <-> exists x, In x xs /\ pixel x y <> 0).
Proof.
  intros Hy. induction 1 as [| x xs Hx _ IH]; simpl.
  - exists false. split; [reflexivity |]. split; [discriminate | intros (x & [] & _)].
  - rewrite pixel_index by assumption. simpl.
    pose proof (px_byte monochrome_version (x + y * image_width) intensities) as Hbyte.
    fold (pixel x y) in Hbyte.
    destruct (Z.ltb_spec 0 (pixel x y)) as [Hpos | Hz].
    + exists true. split; [reflexivity |]. split; [| reflexivity].
      intros _. exists x. split; [left; reflexivity | lia].
    + destruct IH as (found & Hrun & Hfound). exists found. split; [exact Hrun |].
      rewrite Hfound. split.
      * intros (x' & Hin & Hp). exists x'. split; [right; exact Hin | exact Hp].
      * intros (x' & [<- | Hin] & Hp); [lia |]. exists x'. split; assumption.
Qed.

Lemma span_columns : Forall (fun x => 0 <= x < image_width) (range deaths_x image_width).
Proof. apply Forall_forall. intros x Hx. apply elem_of_range in Hx. lia. Qed.

Lemma ink_in_row_span y :
  ink_in_row' y <-> exists x, In x (range deaths_x image_width) /\ pixel x y <> 0.
Proof.
  unfold ink_in_row. split; intros (x & Hx & Hp); exists x; split;
    try assumption; apply In_range; assumption.
Qed.

Lemma skip_rows_spec rows : forall y_cursor,
  0 <= y_cursor -> 480 <= y_cursor + Z.of_nat rows ->
  exists y, skip_rows monochrome_version image_width deaths_x rows y_cursor = Done y
            /\ y_cursor <= y
            /\ (forall r, y_cursor <= r < y -> r < 480 /\ ink_in_row' r)
            /\ (y < 480 -> ~ ink_in_row' y)
            /\ (480 <= y_cursor -> y = y_cursor).
Proof.
  induction rows as [| rows IH]; intros y_cursor Hy Hrows.
  - exists y_cursor. simpl. repeat split; try lia.
  - simpl. destruct (Z.ltb_spec y_cursor 480) as [Hin | Hout].
    + destruct (row_has_ink_spec y_cursor (range deaths_x image_width))
        as (ink & Hrun & Hink); [lia | apply span_columns |].
      rewrite Hrun. simpl. rewrite <- ink_in_row_span in Hink. destruct ink.
      * assert (Hrow : ink_in_row' y_cursor) by (apply Hink; reflexivity).
        rewrite u32_small by lia.
        destruct (IH (y_cursor + 1)) as (y & Hy' & Hle & Hbetween & Hend & _); [lia | lia |].
        exists y. split; [exact Hy' |]. split; [lia |]. split; [| split; [exact Hend | lia]].
        intros r Hr. destruct (Z.eq_dec r y_cursor) as [-> | Hne]; [split; [lia | exact Hrow] |].
        apply Hbetween. lia.
      * exists y_cursor. split; [reflexivity |]. split; [lia |].
        split; [lia |]. split; [| reflexivity].
        intros _ Hrow. apply Hink in Hrow. discriminate Hrow.
    + exists y_cursor. repeat split; lia.
Qed.

Lemma found_in_rows_spec ys :
  Forall (fun y => 0 <= y < 480) ys ->
  exists found,
    found_in_rows monochrome_version image_width deaths_x ys = Done found
    /\ (found = true <-> exists r, In r ys /\ ink_in_row' r).
Proof.
  induction 1 as [| y ys Hy _ IH]; simpl.
  - exists false. split; [reflexivity |]. split; [discriminate | intros (r & [] & _)].
  - destruct (found_in_row_spec y (range deaths_x image_width))
      as (found & Hrun & Hfound); [lia | apply span_columns |].
    rewrite Hrun. simpl. rewrite <- ink_in_row_span in Hfound. destruct found.
    + exists true. split; [reflexivity |]. split; [| reflexivity].
      intros _. exists y. split; [left; reflexivity | apply Hfound; reflexivity].
    + destruct IH as (found & Hrun' & Hfound'). exists found. split; [exact Hrun' |].
      rewrite Hfound'. split.
      * intros (r & Hin & Hr). exists r. split; [right; exact Hin | exact Hr].
      * intros (r & [<- | Hin] & Hr).
        -- apply Hfound in Hr. discriminate Hr.
        -- exists r. split; assumption.
Qed.

Abbreviation skip_to_next_line' :=
  (skip_to_next_line monochrome_version image_width font deaths_x).
Abbreviation found_something' :=
  (found_something monochrome_version image_width font deaths_x).
Abbreviation row_loop' := (fun fuel => row_loop monochrome_version image_width font fuel deaths_x).

(** C7, as the code has it.  The height used to walk the rows is the
    ascending height alone.  [skip_to_next_line] advances the cursor by
    half of it, then one row at a time while the cursor is above row 480
    and its row has ink in the columns [deaths_x, width).  The presence
    check looks for ink in these columns on the rows from the cursor up to
    that height; the row loop ends when it finds none. *)
Theorem row_segmentation (y_cursor : Z) :
  0 <= y_cursor ->
  let search := line_height_search font in
  let start := u32 (y_cursor + search ÷ 2) in
  search = swap_endian16 (ascending_height font)
  /\ (exists y, skip_to_next_line' y_cursor = Done y
                /\ start <= y
                /\ (forall r, start <= r < y -> r < 480 /\ ink_in_row' r)
                /\ (y < 480 -> ~ ink_in_row' y)
                /\ (480 <= start -> y = start))
  /\ (u32 (y_cursor + search) <= 480 ->
      exists found,
        found_something' y_cursor = Done found
        /\ (found = true
            <-> exists r, y_cursor <= r < u32 (y_cursor + search) /\ ink_in_row' r)
        /\ (found = false -> forall fuel, row_loop' (S fuel) y_cursor = Done [])
        /\ (found = true -> forall fuel,
              row_loop' (S fuel) y_cursor
              = (next <- skip_to_next_line' y_cursor;;
                 rows <- row_loop' fuel next;;
                 Done (y_cursor :: rows))%run)).
Proof.
  intros Hy search start. split; [reflexivity |]. split.
  - unfold skip_to_next_line. fold search. fold start.
    pose proof (u32_range (y_cursor + search ÷ 2)) as Hstart. fold start in Hstart.
    apply skip_rows_spec; lia.
  - intros Hend. unfold found_something. fold search.
    destruct (found_in_rows_spec (range y_cursor (u32 (y_cursor + search))))
      as (found & Hrun & Hfound).
    { apply Forall_forall. intros r Hr. apply elem_of_range in Hr. lia. }
    exists found. split; [exact Hrun |]. split.
    + rewrite Hfound. split; intros (r & Hr & Hink); exists r; split;
        try assumption; apply In_range; assumption.
    + split; intros -> fuel; simpl; unfold found_something; fold search;
        rewrite Hrun; reflexivity.
Qed.
End SegmentationFacts.

Lemma segment_out_of_bounds monochrome_version image_width font fuel a y i :
  skip_to_next_line monochrome_version image_width font (deaths_x a) (name_y a) = Done y ->
  found_something monochrome_version image_width font (deaths_x a) y = OutOfBounds i ->
  segment monochrome_version image_width font (S fuel) a = OutOfBounds i.
Proof.
  intros Hskip Hfound. unfold segment. rewrite Hskip. simpl. rewrite Hfound. reflexivity.
Qed.

(** Closed goals about the sample data are settled by evaluation, one
    conjunct at a time. *)
Ltac conj_evaluate :=
  match goal with
  | |- _ /\ _ => split
  | |- _ = _ => vm_compute; reflexivity
  end.

Lemma bytes_ok_check buffer :
  forallb (fun v => (0 <=? v) && (v <=? 255)) buffer = true -> bytes_ok buffer.
Proof.
  intros Hcheck. apply Forall_forall. intros v Hv. apply list_elem_of_In in Hv.
  rewrite forallb_forall in Hcheck. specialize (Hcheck v Hv).
  apply andb_true_iff in Hcheck as (Hlow & Hhigh). lia.
Qed.

Lemma row_segmentation_witness :
  exists y, skip_to_next_line blank_screenshot 122 sample_font 120 120 = Done y
            /\ u32 (120 + line_height_search sample_font ÷ 2) <= y.
Proof.
  assert (Hs : screenshot_ok blank_screenshot 122).
  { unfold screenshot_ok. split; [lia |]. split; [lia |]. vm_compute. reflexivity. }
  assert (Hb : bytes_ok blank_screenshot).
  { apply bytes_ok_check. vm_compute. reflexivity. }
  assert (Hd : 0 <= 120) by lia.
  assert (Hy : 0 <= 120) by lia.
  destruct (row_segmentation blank_screenshot 122 sample_font 120 Hs Hb Hd 120 Hy)
    as (_ & (y & Hskip & Hle & _) & _).
  exists y. split; [exact Hskip | exact Hle].
Defined.

(** C7, as the specification words it, fails.  With ascending height 4 and
    descending height 2 the cursor advances from row 120 by 2 rows, not by
    half the line height (3 rows), and a row whose only ink is on the sixth
    row of the line is not seen by the presence check, which stops after
    four rows. *)
Lemma row_segmentation_not_by_line_height :
  line_height_search sample_font = 4 /\ line_height sample_font = 6
  /\ skip_to_next_line blank_screenshot 122 sample_font 120 120 = Done 122
  /\ specified_skip_to_next_line blank_screenshot 122 sample_font 120 120 = Done 123
  /\ found_something late_ink_screenshot 122 sample_font 120 120 = Done false
  /\ specified_found_something late_ink_screenshot 122 sample_font 120 120 = Done true.
Proof. repeat conj_evaluate. Qed.

(** C10 fails on the code.  On a screenshot whose deaths column has ink on
    every row from the header down to the last one, the calibration
    succeeds, [skip_to_next_line] stops at row 480 (its loop is guarded by
    [y_cursor < 480]), and the presence check that follows reads
    [monochrome_version[120 + 480 * 122]], one row past the buffer of
    122 x 480 pixels.  On a screenshot whose last inked row is row 477, the
    cursor reaches row 476, the presence check succeeds inside the buffer,
    the drought scans of the name, score, kills and assists columns are
    empty, and the drought scan of the deaths column reads row 480. *)
Theorem row_loop_reads_past_last_row :
  let a := Build_Anchors 120 120 120 110 120 110 120 110 120 110 in
  Z.of_nat (length streaked_screenshot) = 122 * 480
  /\ find_headers streaked_screenshot 122 [] sample_characters sample_font unset
     = Continue a
  /\ skip_to_next_line streaked_screenshot 122 sample_font (deaths_x a) (name_y a)
     = Done 480
  /\ found_something streaked_screenshot 122 sample_font (deaths_x a) 480
     = OutOfBounds (120 + 480 * 122)
  /\ (forall fuel, segment streaked_screenshot 122 sample_font (S fuel) a
                   = OutOfBounds (120 + 480 * 122))
  /\ Z.of_nat (length ragged_screenshot) = 122 * 480
  /\ find_headers ragged_screenshot 122 [] sample_characters tall_font unset = Continue a
  /\ skip_to_next_line ragged_screenshot 122 tall_font (deaths_x a) (name_y a) = Done 476
  /\ found_something ragged_screenshot 122 tall_font (deaths_x a) 476 = Done true
  /\ trimmed_end ragged_screenshot 122 tall_font (name_x a) 476 (score_x a) = Done 121
  /\ trimmed_end ragged_screenshot 122 tall_font (score_x a) 476 (kills_x a) = Done 121
  /\ trimmed_end ragged_screenshot 122 tall_font (kills_x a) 476 (assists_x a) = Done 121
  /\ trimmed_end ragged_screenshot 122 tall_font (assists_x a) 476 (deaths_x a) = Done 121
  /\ trimmed_end ragged_screenshot 122 tall_font (deaths_x a) 476 122
     = OutOfBounds (121 + 480 * 122).
Proof.
  cbv zeta.
  assert (Hskip : skip_to_next_line streaked_screenshot 122 sample_font 120 120 = Done 480)
    by (vm_compute; reflexivity).
  assert (Hfound : found_something streaked_screenshot 122 sample_font 120 480
                   = OutOfBounds (120 + 480 * 122))
    by (vm_compute; reflexivity).
  split; [vm_compute; reflexivity |]. split; [vm_compute; reflexivity |].
  split; [exact Hskip |]. split; [exact Hfound |].
  split.
  { intros fuel. eapply segment_out_of_bounds; [exact Hskip | exact Hfound]. }
  repeat conj_evaluate.
Qed.

(** ** Ranking *)

(** The inner loop counts the rows that rank above the player or are fully
    tied with it. *)
Lemma counted_ranks_above player player_test :
  counted player player_test
  = ranks_above player_test player || fully_tied player_test player.
Proof.
  unfold counted, ranks_above, fully_tied.
  destruct (Z.ltb_spec (score player_test) (score player));
    destruct (Z.ltb_spec (score player) (score player_test));
    destruct (Z.eqb_spec (score player) (score player_test));
    destruct (Z.ltb_spec (kills player_test) (kills player));
    destruct (Z.ltb_spec (kills player) (kills player_test));
    destruct (Z.eqb_spec (kills player) (kills player_test));
    destruct (Z.ltb_spec (deaths player) (deaths player_test));
    destruct (Z.ltb_spec (deaths player_test) (deaths player));
    destruct (Z.eqb_spec (deaths player_test) (deaths player));
    destruct (Z.eqb_spec (deaths player) (deaths player_test));
    destruct (Z.ltb_spec (assists player_test) (assists player));
    destruct (Z.ltb_spec (assists player) (assists player_test));
    destruct (Z.eqb_spec (assists player) (assists player_test));
    simpl; try reflexivity; lia.
Qed.

Lemma filter_same {A} (f g : A -> bool) l :
  (forall a, f a = g a) -> List.filter f l = List.filter g l.
Proof.
  intros Hfg. induction l as [| a l IH]; simpl; [reflexivity |].
  rewrite Hfg, IH. reflexivity.
Qed.

Lemma players_below_count_others players i p :
  players_below players i p
  = count_others (fun q p => ranks_above q p || fully_tied q p) players i p.
Proof.
  unfold players_below, count_others. f_equal. apply filter_same.
  intros [j q]. simpl. rewrite counted_ranks_above. reflexivity.
Qed.

Lemma imap_shift (l : list PlayerStats) (n : nat) :
  imap ((fun k q => ((n + k)%nat, q)) ∘ S) l = imap (fun k q => ((S n + k)%nat, q)) l.
Proof. apply imap_ext. intros k q _. simpl. f_equal. lia. Qed.

(** An index that is not in the list leaves nothing out. *)
Lemma count_index_absent (g : PlayerStats -> bool) (l : list PlayerStats) :
  forall n i : nat, (i < n)%nat ->
  length (List.filter (fun jq => negb (Nat.eqb i (fst jq)) && g (snd jq))
                      (imap (fun k q => ((n + k)%nat, q)) l))
  = length (List.filter g l).
Proof.
  induction l as [| q l IH]; intros n i Hi; [reflexivity |].
  rewrite imap_cons, imap_shift. cbn [List.filter fst snd].
  destruct (Nat.eqb_spec i (n + 0)) as [-> | _]; [lia |]. cbn [negb andb].
  destruct (g q); cbn [length]; rewrite IH by lia; reflexivity.
Qed.

(** Leaving out the row itself removes one row from the count when the row
    satisfies the test, none otherwise. *)
Lemma count_without_row (g : PlayerStats -> bool) (l : list PlayerStats) :
  forall (n i : nat) (p : PlayerStats),
  l !! i = Some p ->
  (length (List.filter (fun jq => negb (Nat.eqb (n + i) (fst jq)) && g (snd jq))
                       (imap (fun k q => ((n + k)%nat, q)) l))
   + (if g p then 1 else 0))%nat
  = length (List.filter g l).
Proof.
  induction l as [| q l IH]; intros n i p Hp; [discriminate |].
  rewrite imap_cons, imap_shift. destruct i as [| i]; simpl in Hp.
  - inversion Hp; subst q. cbn [List.filter fst snd].
    rewrite Nat.eqb_refl. cbn [negb andb].
    rewrite count_index_absent by lia. destruct (g p); cbn [length]; lia.
  - cbn [List.filter fst snd].
    destruct (Nat.eqb_spec (n + S i) (n + 0)) as [Heq | _]; [lia |]. cbn [negb andb].
    replace (n + S i)%nat with (S n + i)%nat by lia.
    specialize (IH (S n) i p Hp).
    destruct (g q); cbn [length]; lia.
Qed.

Lemma count_others_without_row (rel : PlayerStats -> PlayerStats -> bool) players i p :
  players !! i = Some p ->
  (count_others rel players i p + (if rel p p then 1 else 0))%nat
  = length (List.filter (fun q => rel q p) players).
Proof.
  intros Hp. unfold count_others.
  exact (count_without_row (fun q => rel q p) players 0 i p Hp).
Qed.

Lemma fully_tied_refl p : fully_tied p p = true.
Proof. unfold fully_tied. rewrite !Z.eqb_refl. reflexivity. Qed.

Lemma tied_same_rank q p r :
  fully_tied q p = true ->
  ranks_above r q || fully_tied r q = ranks_above r p || fully_tied r p.
Proof.
  unfold fully_tied, ranks_above. rewrite !andb_true_iff, !Z.eqb_eq.
  intros (((Hs & Hk) & Hd) & Ha). rewrite Hs, Hk, Hd, Ha. reflexivity.
Qed.

(** C8, as the code has it.  The place of a row is 1 plus the number of
    other rows that rank above it (higher score, then more kills, then
    fewer deaths, then more assists) or are fully tied with it on the four
    statistics; two fully tied rows therefore have the same place. *)
Theorem places_count_rows_above (players : list PlayerStats) (i : nat) (p : PlayerStats) :
  players !! i = Some p ->
  places players !! i
  = Some (S (count_others (fun q p => ranks_above q p || fully_tied q p) players i p))
  /\ forall (j : nat) (q : PlayerStats),
       players !! j = Some q -> fully_tied q p = true ->
       places players !! j = places players !! i.
Proof.
  intros Hp.
  assert (Hplace : forall k r, players !! k = Some r ->
            places players !! k
            = Some (S (count_others (fun q p => ranks_above q p || fully_tied q p)
                                    players k r))).
  { intros k r Hr. unfold places. rewrite list_lookup_imap, Hr. simpl.
    rewrite players_below_count_others. reflexivity. }
  split; [apply Hplace, Hp |].
  intros j q Hq Htied. rewrite (Hplace j q Hq), (Hplace i p Hp). do 2 f_equal.
  pose proof (count_others_without_row
                (fun q p => ranks_above q p || fully_tied q p) players i p Hp) as Hi.
  pose proof (count_others_without_row
                (fun q p => ranks_above q p || fully_tied q p) players j q Hq) as Hj.
  simpl in Hi, Hj. rewrite fully_tied_refl, orb_true_r in Hi, Hj.
  rewrite (filter_same (fun r => ranks_above r q || fully_tied r q)
                       (fun r => ranks_above r p || fully_tied r p)) in Hj
    by (intros r; apply tied_same_rank, Htied).
  lia.
Qed.

Lemma places_count_rows_above_witness :
  places [player 10 3 0 1; player 5 0 0 2; player 10 3 0 1] !! 0%nat = Some 2%nat
  /\ places [player 10 3 0 1; player 5 0 0 2; player 10 3 0 1] !! 2%nat
     = places [player 10 3 0 1; player 5 0 0 2; player 10 3 0 1] !! 0%nat.
Proof.
  destruct (places_count_rows_above
              [player 10 3 0 1; player 5 0 0 2; player 10 3 0 1] 0 (player 10 3 0 1))
    as (Hplace & Htied); [reflexivity |].
  split; [exact Hplace |].
  apply (Htied 2%nat (player 10 3 0 1)); reflexivity.
Defined.

(** C8, as the specification words it, fails: of two rows with scores 10
    and 5 the code places the first 1st and the second 2nd, while one plus
    the number of rows ranking below gives 2 and 1. *)
Lemma places_not_rows_below :
  places [player 10 0 0 0; player 5 0 0 0] = [1%nat; 2%nat]
  /\ specified_places [player 10 0 0 0; player 5 0 0 0] = [2%nat; 1%nat]
  /\ places [player 10 0 0 0; player 5 0 0 0]
     <> specified_places [player 10 0 0 0; player 5 0 0 0].
Proof.
  split; [reflexivity |]. split; [reflexivity |]. discriminate.
Qed.

(** ** The rasterizer: pixels *)

Lemma u32_inj a b : u32 a = u32 b -> - 2 ^ 32 < a - b < 2 ^ 32 -> a = b.
Proof.
  unfold u32. intros Heq Hclose.
  pose proof (Z.div_mod a (2 ^ 32)). pose proof (Z.div_mod b (2 ^ 32)).
  assert (Hk : a - b = 2 ^ 32 * (a / 2 ^ 32 - b / 2 ^ 32)) by lia.
  assert (a / 2 ^ 32 - b / 2 ^ 32 = 0) by nia.
  lia.
Qed.

Lemma u8_small z : 0 <= z < 2 ^ 8 -> u8 z = z.
Proof. intros H. unfold u8. apply Z.mod_small. exact H. Qed.

Lemma written_index_range frame x y i :
  image_ok frame -> 0 <= x -> 0 <= y ->
  written_index frame x y = Some i ->
  x < width frame /\ y < height frame /\ i = Z.to_nat (x + y * width frame)
  /\ (i < length (pixels frame))%nat /\ u32 (x + y * width frame) = x + y * width frame.
Proof.
  intros (Hw & Hh & Hmax & Hlen) Hx Hy. unfold written_index.
  destruct (Z.ltb_spec x (width frame)); [| discriminate].
  destruct (Z.ltb_spec y (height frame)); [| discriminate].
  simpl. intros Heq. inversion Heq; subst i.
  assert (0 <= x + y * width frame < width frame * height frame) by nia.
  repeat split; try lia. apply u32_small. lia.
Qed.

Lemma written_index_inj frame x y x' y' i :
  image_ok frame -> 0 <= x -> 0 <= y -> 0 <= x' -> 0 <= y' ->
  written_index frame x y = Some i -> written_index frame x' y' = Some i ->
  x = x' /\ y = y'.
Proof.
  intros Hok Hx Hy Hx' Hy' H1 H2.
  destruct (written_index_range frame x y i Hok Hx Hy H1) as (Hxw & Hyh & Hi & _).
  destruct (written_index_range frame x' y' i Hok Hx' Hy' H2) as (Hxw' & Hyh' & Hi' & _).
  destruct Hok as (Hw & Hh & _).
  assert (Heq : x + y * width frame = x' + y' * width frame) by nia.
  assert (y = y') by nia. subst. split; lia.
Qed.

Section GlyphFacts.
Variable monochrome_pixels : list Z.
Variable font : Font.
Variable c : FontCharacter.
Variable x_cursor : Z.
Variable frame : MonochromeImage.
Hypothesis frame_ok : image_ok frame.
Hypothesis pool_ok : bytes_ok monochrome_pixels.
Hypothesis cursor_range : 0 <= x_cursor < 2 ^ 32.

Abbreviation write := (glyph_write monochrome_pixels font c x_cursor).
Abbreviation index := (glyph_index font c x_cursor frame).
Abbreviation source := (fun p : Z * Z =>
  px monochrome_pixels
     (swap_endian32 (pixels_offset c) + fst p + snd p * swap_endian16 (bitmap_width c))).

Lemma In_bitmap_coordinates p :
  In p (bitmap_coordinates c)
  <-> 0 <= fst p < swap_endian16 (bitmap_width c)
      /\ 0 <= snd p < swap_endian16 (bitmap_height c).
Proof.
  destruct p as [x y]. unfold bitmap_coordinates. rewrite In_coordinates, !In_range.
  reflexivity.
Qed.

Lemma glyph_write_lookup drawn p i :
  In p (bitmap_coordinates c) -> same_frame drawn frame ->
  pixels (write drawn p) !! i
  = if decide (index p = Some i) then Some (source p * 3 / 4) else pixels drawn !! i.
Proof.
  intros Hp (Hw & Hh & _ & Hlen). apply In_bitmap_coordinates in Hp.
  pose proof (swap_endian16_range (bitmap_width c)).
  pose proof (swap_endian16_range (bitmap_height c)).
  unfold glyph_write, glyph_index, set_pixel.
  set (x := u32 (x_cursor + fst p)).
  set (y := u32 (snd p + (swap_endian16 (ascending_height font)
                          - swap_endian16 (bitmap_origin_y c)))).
  pose proof (u32_range (x_cursor + fst p)) as Hx. fold x in Hx.
  pose proof (u32_range (snd p + (swap_endian16 (ascending_height font)
                                  - swap_endian16 (bitmap_origin_y c)))) as Hy.
  fold y in Hy.
  destruct (written_index frame x y) as [j |] eqn:Ej.
  - destruct (written_index_range frame x y j frame_ok) as (Hxw & Hyh & Hj & Hjlen & Hu);
      [lia | lia | exact Ej |].
    rewrite Hw, Hh.
    destruct (Z.ltb_spec x (width frame)); [| lia].
    destruct (Z.ltb_spec y (height frame)); [| lia].
    simpl. rewrite Hu, <- Hj.
    rewrite (u32_small (fst p + snd p * swap_endian16 (bitmap_width c))) by nia.
    rewrite Z.add_assoc.
    pose proof (px_byte monochrome_pixels
                  (swap_endian32 (pixels_offset c) + fst p
                   + snd p * swap_endian16 (bitmap_width c)) pool_ok) as Hbyte.
    rewrite u8_small.
    2: { split; [apply Z.div_pos; lia |]. apply Z.div_lt_upper_bound; lia. }
    destruct (decide (Some j = Some i)) as [Heq | Hne].
    + inversion Heq; subst i. apply list_lookup_insert_eq. lia.
    + apply list_lookup_insert_ne. congruence.
  - unfold written_index in Ej. rewrite Hw, Hh.
    destruct ((x <? width frame) && (y <? height frame)); [discriminate |].
    destruct (decide (None = Some i)); [discriminate | reflexivity].
Qed.

Lemma glyph_write_frame l : forall drawn, same_frame (foldl write drawn l) drawn.
Proof. apply foldl_frame. intros i a. apply set_pixel_frame. Qed.

Lemma glyph_index_inj p q i :
  In p (bitmap_coordinates c) -> In q (bitmap_coordinates c) ->
  index p = Some i -> index q = Some i -> p = q.
Proof.
  intros Hp Hq Hip Hiq. apply In_bitmap_coordinates in Hp, Hq.
  pose proof (swap_endian16_range (bitmap_width c)).
  pose proof (swap_endian16_range (bitmap_height c)).
  unfold glyph_index in Hip, Hiq.
  destruct (written_index_inj frame _ _ _ _ i frame_ok
              (proj1 (u32_range _)) (proj1 (u32_range _))
              (proj1 (u32_range _)) (proj1 (u32_range _)) Hip Hiq) as (Hx & Hy).
  apply u32_inj in Hx; [| lia]. apply u32_inj in Hy; [| lia].
  destruct p, q; simpl in *. f_equal; lia.
Qed.

(** Pixels that no bitmap pixel lands on keep their value. *)
Lemma glyph_writes_elsewhere l : forall drawn i,
  (forall p, In p l -> In p (bitmap_coordinates c)) ->
  same_frame drawn frame ->
  (forall p, In p l -> index p <> Some i) ->
  pixels (foldl write drawn l) !! i = pixels drawn !! i.
Proof.
  induction l as [| p l IH]; intros drawn i Hl Hd Hfree; simpl; [reflexivity |].
  rewrite IH.
  - rewrite glyph_write_lookup; [| apply Hl; left; reflexivity | exact Hd].
    destruct (decide (index p = Some i)) as [Hhit | _]; [| reflexivity].
    exfalso. apply (Hfree p); [left; reflexivity | exact Hhit].
  - intros q Hq. apply Hl. right. exact Hq.
  - eapply same_frame_trans; [apply set_pixel_frame | exact Hd].
  - intros q Hq. apply Hfree. right. exact Hq.
Qed.

(** A bitmap pixel that lands inside the image is there at the end. *)
Lemma glyph_writes_there l : forall drawn p i,
  (forall q, In q l -> In q (bitmap_coordinates c)) ->
  same_frame drawn frame ->
  In p l -> index p = Some i ->
  pixels (foldl write drawn l) !! i = Some (source p * 3 / 4).
Proof.
  induction l as [| q l IH] using rev_ind; intros drawn p i Hl Hd Hp Hi; [contradiction |].
  rewrite foldl_app. simpl.
  rewrite glyph_write_lookup;
    [| apply Hl, in_or_app; right; left; reflexivity
     | eapply same_frame_trans; [apply glyph_write_frame | exact Hd]].
  destruct (decide (index q = Some i)) as [Hq | Hq].
  - assert (p = q) as ->; [| reflexivity].
    apply (glyph_index_inj p q i); try assumption.
    + apply Hl. exact Hp.
    + apply Hl, in_or_app. right. left. reflexivity.
  - apply in_app_or in Hp as [Hp | [-> | []]]; [| congruence].
    apply IH; try assumption. intros r Hr. apply Hl, in_or_app. left. exact Hr.
Qed.

Lemma draw_glyph_writes :
  draw_glyph monochrome_pixels font c x_cursor frame
  = if (0 <? swap_endian16 (bitmap_width c)) && (0 <? swap_endian16 (bitmap_height c))
    then foldl write frame (bitmap_coordinates c)
    else frame.
Proof.
  unfold draw_glyph. destruct (_ && _); [| reflexivity].
  unfold bitmap_coordinates. rewrite <- (foldl_coordinates write). reflexivity.
Qed.

Lemma bitmap_coordinates_empty :
  swap_endian16 (bitmap_width c) <= 0 \/ swap_endian16 (bitmap_height c) <= 0 ->
  draw_glyph monochrome_pixels font c x_cursor frame = frame.
Proof.
  intros Hempty. unfold draw_glyph.
  destruct (Z.ltb_spec 0 (swap_endian16 (bitmap_width c)));
    destruct (Z.ltb_spec 0 (swap_endian16 (bitmap_height c))); simpl; try reflexivity.
  lia.
Qed.

(** A code that no record of the font file carries keeps the
    value-initialized slot of the table. *)
Lemma load_characters_unknown (all_characters : list FontCharacter) (code : Z) :
  (forall r, In r all_characters -> swap_endian16 (character r) <> u8 code) ->
  glyph (load_characters all_characters) code = no_character.
Proof.
  intros Hfree. unfold glyph, load_characters.
  assert (Hslot : forall table,
            nth (Z.to_nat (u8 code)) table no_character = no_character ->
            nth (Z.to_nat (u8 code))
                (foldl (fun characters c =>
                          let character_index := swap_endian16 (character c) in
                          if (character_index <? 256) && (0 <? character_index)
                          then <[Z.to_nat character_index := c]> characters
                          else characters) table all_characters) no_character
            = no_character).
  { induction all_characters as [| r rest IH]; intros table Htable; simpl; [exact Htable |].
    apply IH; [intros r' Hr'; apply Hfree; right; exact Hr' |].
    destruct ((swap_endian16 (character r) <? 256) && (0 <? swap_endian16 (character r)))
      eqn:E; [| exact Htable].
    apply andb_true_iff in E as (_ & Hpos). apply Z.ltb_lt in Hpos.
    assert (Hne : Z.to_nat (swap_endian16 (character r)) <> Z.to_nat (u8 code)).
    { pose proof (Hfree r (or_introl eq_refl)).
      pose proof (Z.mod_pos_bound code (2 ^ 8)). unfold u8 in *. lia. }
    rewrite !nth_lookup in *. rewrite list_lookup_insert_ne by exact Hne. exact Htable. }
  apply Hslot. rewrite nth_lookup.
  destruct (replicate 256 no_character !! Z.to_nat (u8 code)) as [r |] eqn:E; [| reflexivity].
  apply lookup_replicate in E as (-> & _). reflexivity.
Qed.

End GlyphFacts.


(** ** The decoding loop returns *)

Lemma match_no_width monochrome_version image_width text x y :
  width text = 0 -> match_ monochrome_version image_width text x y = 0%Q.
Proof.
  intros Hw. unfold match_. rewrite Hw. simpl (0 =? 0).
  rewrite orb_true_r. reflexivity.
Qed.

Section DecoderReturns.
Variable monochrome_version : list Z.
Variable image_width : Z.
Variable table : list MonochromeImage.
Variables max_x search_y : Z.
Hypothesis widths : Forall (fun c => 0 <= width c < 2 ^ 32) table.
Hypothesis end_range : max_x <= 2 ^ 31.

(** The winner of a turn is a candidate that has a width and does not
    overshoot the trimmed end. *)
Lemma best_candidate_winner x best_character best_length best_x :
  snd (best_candidate monochrome_version image_width table x max_x search_y)
  = Some (best_character, best_length, best_x) ->
  0 < best_length < 2 ^ 32 /\ 2 * x + best_length <= 2 * max_x.
Proof.
  intros Ebest.
  pose proof (keep_best_attained (trial_skipped x max_x)
                (trial_score monochrome_version image_width x search_y) fst
                (trial_state monochrome_version image_width x search_y)
                (fun _ => eq_refl) (trials table) (0%Q, None)) as Hbest.
  rewrite <- best_candidate_keep_best in Hbest.
  destruct Hbest as [(Heq & _) | (t & Hin & Hs & Heq & Hlt)].
  { rewrite Heq in Ebest. discriminate Ebest. }
  destruct t as [[my mx] c]. apply In_trials in Hin as (_ & _ & Hc).
  rewrite Heq in Ebest. simpl in Ebest. inversion Ebest; subst. clear Ebest.
  rewrite Forall_forall in widths. specialize (widths c).
  assert (Hwidth : 0 <= width c < 2 ^ 32) by (apply widths, list_elem_of_In, Hc).
  apply trial_skipped_overshoots in Hs. unfold overshoots in Hs. simpl in Hs.
  split; [| lia].
  destruct (Z.eq_dec (width c) 0) as [Hzero | Hne]; [| lia].
  exfalso. unfold trial_score in Hlt. simpl in Hlt.
  rewrite match_no_width in Hlt by exact Hzero. revert Hlt. apply Qlt_irrefl.
Qed.

(** With the cursor and the trimmed end below 2^31, the loop leaves with a
    string after at most [max_x - x] turns. *)
Lemma decode_returns fuel : forall x final_string,
  0 <= x -> (Z.to_nat (max_x - x) < fuel)%nat ->
  exists decoded,
    decode monochrome_version image_width fuel table max_x search_y x final_string
    = Done decoded.
Proof.
  induction fuel as [| fuel IH]; intros x final_string Hx Hfuel; [lia |].
  simpl. destruct (Z.ltb_spec x max_x) as [Hlt | Hge]; [| eexists; reflexivity].
  destruct (snd (best_candidate monochrome_version image_width table x max_x search_y))
    as [[[best_character best_length] best_x] |] eqn:Ebest; [| eexists; reflexivity].
  apply best_candidate_winner in Ebest as (Hlen & Hfit).
  rewrite u32_small by lia. apply IH; lia.
Qed.
End DecoderReturns.

(** ** Where the 32-bit sums wrap *)

(** The side conditions of [match_ratio] and [draw_text_dimensions] that
    keep the sums within 32 bits cannot be dropped.  A template two pixels
    wide placed at column 2^32 - 2 (the cursor 0 displaced by -2) passes the
    guard of [match], because the sum wraps to 0, and is matched against the
    end of the previous row; a glyph with a negative advance width gives an
    image whose width is the sum modulo 2^32. *)
Lemma match_guard_wraps :
  match_ tiny_screenshot 4 tiny_template (u32 (0 + -2)) 1 = 2 # 2.
Proof. vm_compute. reflexivity. Qed.

Lemma draw_text_width_wraps :
  advance backward_characters 65 = -1
  /\ width (draw_text [] backward_characters square_font (bytes "A")) = 2 ^ 32 - 1.
Proof.
  split; [vm_compute; reflexivity |].
  rewrite draw_text_width, text_width_total. vm_compute. reflexivity.
Qed.

(** ** Byte order *)

Lemma i16_small z : - 2 ^ 15 <= z < 2 ^ 15 -> i16 z = z.
Proof. intros H. unfold i16. rewrite Z.mod_small by lia. lia. Qed.

Lemma i16_congruent z : exists k, i16 z = z + 2 ^ 16 * k.
Proof.
  unfold i16. exists (- ((z + 2 ^ 15) / 2 ^ 16)).
  pose proof (Z.div_mod (z + 2 ^ 15) (2 ^ 16)). lia.
Qed.

Lemma low_byte h l : 0 <= l < 256 -> (l + 256 * h) mod 256 = l.
Proof.
  intros Hl. replace (l + 256 * h) with (l + h * 256) by lia.
  rewrite Z_mod_plus_full. apply Z.mod_small. exact Hl.
Qed.

Lemma high_byte h l : 0 <= l < 256 -> (l + 256 * h) / 256 = h.
Proof.
  intros Hl. replace (l + 256 * h) with (l + h * 256) by lia.
  rewrite Z.div_add by lia. rewrite Z.div_small by exact Hl. lia.
Qed.

Lemma swap_endian16_bytes h l :
  0 <= l < 256 -> - 128 <= h < 128 ->
  swap_endian16 (l + 256 * h) = i16 (h mod 256 + 256 * l).
Proof.
  intros Hl Hh. unfold swap_endian16. rewrite low_byte, high_byte by exact Hl.
  f_equal. lia.
Qed.

Lemma swap_endian16_involutive v :
  - 2 ^ 15 <= v < 2 ^ 15 -> swap_endian16 (swap_endian16 v) = v.
Proof.
  intros Hv.
  set (l := v mod 256). set (h := v / 256).
  assert (Hl : 0 <= l < 256) by (apply Z.mod_pos_bound; lia).
  assert (Hvlh : v = l + 256 * h) by (pose proof (Z.div_mod v 256); lia).
  assert (Hh : - 128 <= h < 128) by lia.
  rewrite Hvlh, swap_endian16_bytes by assumption.
  set (hh := h mod 256).
  assert (Hhh : 0 <= hh < 256) by (apply Z.mod_pos_bound; lia).
  destruct (i16_congruent (hh + 256 * l)) as (k & Hk).
  pose proof (i16_range (hh + 256 * l)) as Hr.
  set (l' := l + 256 * k) in *.
  assert (Hs : i16 (hh + 256 * l) = hh + 256 * (l + 256 * k)) by lia.
  rewrite Hs.
  assert (Hk' : - 128 <= l + 256 * k < 128) by lia.
  rewrite swap_endian16_bytes by assumption.
  assert (Hlow : (l + 256 * k) mod 256 = l) by (apply low_byte; exact Hl).
  rewrite Hlow.
  assert (Hcong : exists j, hh = h + 256 * j).
  { exists (- (h / 256)). unfold hh. pose proof (Z.div_mod h 256). lia. }
  destruct Hcong as (j & Hj).
  replace (l + 256 * hh) with (l + 256 * h + 2 ^ 16 * j) by lia.
  unfold i16.
  replace (l + 256 * h + 2 ^ 16 * j + 2 ^ 15) with (l + 256 * h + 2 ^ 15 + j * 2 ^ 16) by lia.
  rewrite Z_mod_plus_full. rewrite Z.mod_small by lia. lia.
Qed.

Lemma four_bytes c0 c1 c2 c3 :
  0 <= c0 < 256 -> 0 <= c1 < 256 -> 0 <= c2 < 256 -> 0 <= c3 < 256 ->
  let s := c0 + 2 ^ 8 * c1 + 2 ^ 16 * c2 + 2 ^ 24 * c3 in
  s mod 256 = c0 /\ (s / 2 ^ 8) mod 256 = c1
  /\ (s / 2 ^ 16) mod 256 = c2 /\ (s / 2 ^ 24) mod 256 = c3.
Proof.
  intros H0 H1 H2 H3 s. subst s.
  assert (D8 : (c0 + 2 ^ 8 * c1 + 2 ^ 16 * c2 + 2 ^ 24 * c3) / 2 ^ 8
               = c1 + 2 ^ 8 * c2 + 2 ^ 16 * c3).
  { symmetry. apply (Z.div_unique _ _ _ c0); lia. }
  assert (D16 : (c0 + 2 ^ 8 * c1 + 2 ^ 16 * c2 + 2 ^ 24 * c3) / 2 ^ 16
                = c2 + 2 ^ 8 * c3).
  { symmetry. apply (Z.div_unique _ _ _ (c0 + 2 ^ 8 * c1)); lia. }
  assert (D24 : (c0 + 2 ^ 8 * c1 + 2 ^ 16 * c2 + 2 ^ 24 * c3) / 2 ^ 24 = c3).
  { symmetry. apply (Z.div_unique _ _ _ (c0 + 2 ^ 8 * c1 + 2 ^ 16 * c2)); lia. }
  rewrite D8, D16, D24. repeat split.
  - symmetry. apply (Z.mod_unique _ _ (c1 + 2 ^ 8 * c2 + 2 ^ 16 * c3)); lia.
  - symmetry. apply (Z.mod_unique _ _ (c2 + 2 ^ 8 * c3)); lia.
  - symmetry. apply (Z.mod_unique _ _ c3); lia.
  - apply Z.mod_small. lia.
Qed.

Lemma swap_endian32_involutive v :
  0 <= v < 2 ^ 32 -> swap_endian32 (swap_endian32 v) = v.
Proof.
  intros Hv.
  set (c0 := v mod 256). set (c1 := (v / 2 ^ 8) mod 256).
  set (c2 := (v / 2 ^ 16) mod 256). set (c3 := (v / 2 ^ 24) mod 256).
  assert (H0 : 0 <= c0 < 256) by (apply Z.mod_pos_bound; lia).
  assert (H1 : 0 <= c1 < 256) by (apply Z.mod_pos_bound; lia).
  assert (H2 : 0 <= c2 < 256) by (apply Z.mod_pos_bound; lia).
  assert (H3 : 0 <= c3 < 256) by (apply Z.mod_pos_bound; lia).
  assert (Hsplit : v = c0 + 2 ^ 8 * c1 + 2 ^ 16 * c2 + 2 ^ 24 * c3).
  { subst c0 c1 c2 c3.
    pose proof (Z.div_mod v 256). pose proof (Z.div_mod (v / 2 ^ 8) 256).
    pose proof (Z.div_mod (v / 2 ^ 16) 256).
    assert ((v / 2 ^ 8) / 256 = v / 2 ^ 16) by (rewrite Z.div_div by lia; reflexivity).
    assert ((v / 2 ^ 16) / 256 = v / 2 ^ 24) by (rewrite Z.div_div by lia; reflexivity).
    assert (0 <= v / 2 ^ 24 < 256).
    { split; [apply Z.div_pos; lia | apply Z.div_lt_upper_bound; lia]. }
    rewrite (Z.mod_small (v / 2 ^ 24)) by lia.
    change (2 ^ 8) with 256 in *. lia. }
  assert (Hswap : swap_endian32 v = c3 + 2 ^ 8 * c2 + 2 ^ 16 * c1 + 2 ^ 24 * c0).
  { unfold swap_endian32. fold c0 c1 c2 c3. lia. }
  rewrite Hswap. unfold swap_endian32.
  destruct (four_bytes c3 c2 c1 c0 H3 H2 H1 H0) as (E0 & E1 & E2 & E3).
  rewrite E0, E1, E2, E3. lia.
Qed.

(** X1.  [swap_endian] is its own inverse on the 16-bit and on the 32-bit
    values: reading a field back from host order gives the stored value. *)
Theorem swap_endian_involutive :
  (forall v, - 2 ^ 15 <= v < 2 ^ 15 ->
             swap_endian16 (swap_endian16 v) = v
             /\ - 2 ^ 15 <= swap_endian16 v < 2 ^ 15)
  /\ (forall v, 0 <= v < 2 ^ 32 ->
                swap_endian32 (swap_endian32 v) = v /\ 0 <= swap_endian32 v < 2 ^ 32).
Proof.
  split; intros v Hv.
  - split; [apply swap_endian16_involutive, Hv | apply swap_endian16_range].
  - split; [apply swap_endian32_involutive, Hv |].
    unfold swap_endian32.
    pose proof (Z.mod_pos_bound v 256). pose proof (Z.mod_pos_bound (v / 2 ^ 8) 256).
    pose proof (Z.mod_pos_bound (v / 2 ^ 16) 256).
    pose proof (Z.mod_pos_bound (v / 2 ^ 24) 256). lia.
Qed.

Lemma swap_endian_involutive_witness :
  swap_endian16 (swap_endian16 (-2)) = -2 /\ swap_endian32 (swap_endian32 0x9C) = 0x9C.
Proof.
  destruct swap_endian_involutive as (H16 & H32).
  split; [apply H16; lia | apply H32; lia].
Defined.

(** ** Colour to monochrome *)

Lemma channel_value_bounds channel weight :
  0 <= channel <= 255 -> 0 <= weight ->
  0 <= channel_value channel weight <= (255 * weight + 128) / 255.
Proof.
  intros Hc Hw. unfold channel_value, UINT8_MAX. change ((255 + 1) / 2) with 128. split.
  - apply Z.div_pos; nia.
  - apply Z.div_le_mono; nia.
Qed.

Lemma Monochrome_sum pixel :
  0 <= ImagePixel.red pixel <= 255 -> 0 <= ImagePixel.green pixel <= 255 ->
  0 <= ImagePixel.blue pixel <= 255 ->
  Monochrome pixel
  = channel_value (ImagePixel.red pixel) RED_WEIGHT
    + channel_value (ImagePixel.green pixel) GREEN_WEIGHT
    + channel_value (ImagePixel.blue pixel) BLUE_WEIGHT
  /\ 0 <= Monochrome pixel <= 255.
Proof.
  intros Hr Hg Hb.
  pose proof (channel_value_bounds (ImagePixel.red pixel) RED_WEIGHT Hr) as Br.
  pose proof (channel_value_bounds (ImagePixel.green pixel) GREEN_WEIGHT Hg) as Bg.
  pose proof (channel_value_bounds (ImagePixel.blue pixel) BLUE_WEIGHT Hb) as Bb.
  unfold RED_WEIGHT, GREEN_WEIGHT, BLUE_WEIGHT in *.
  change ((255 * 144 + 128) / 255) with 144 in Br.
  change ((255 * 15 + 128) / 255) with 15 in Bg.
  change ((255 * 96 + 128) / 255) with 96 in Bb.
  specialize (Br ltac:(lia)). specialize (Bg ltac:(lia)). specialize (Bb ltac:(lia)).
  unfold Monochrome, RED_WEIGHT, GREEN_WEIGHT, BLUE_WEIGHT. cbv zeta.
  set (r := channel_value (ImagePixel.red pixel) 144) in *.
  set (g := channel_value (ImagePixel.green pixel) 15) in *.
  set (b := channel_value (ImagePixel.blue pixel) 96) in *.
  rewrite Z.add_0_l. rewrite (u8_small r) by lia. rewrite (u8_small (r + g)) by lia.
  rewrite (u8_small (r + g + b)) by lia. split; lia.
Qed.

(** X2.  The luma conversion never wraps its 8-bit accumulator: for
    channels that are bytes the intensity is the sum of the three rounded
    shares, lies in 0..255, is 0 for black and 255 for white, differs from
    [v] by at most 1 on the gray [(v, v, v)], and does not decrease when a
    channel increases.  The converted and thresholded screenshot has one
    entry per pixel, each 0 or 255, and an entry is 255 exactly when the
    luma of its pixel is at least [0x4F]. *)
Theorem Monochrome_luma :
  (forall pixel,
      0 <= ImagePixel.red pixel <= 255 -> 0 <= ImagePixel.green pixel <= 255 ->
      0 <= ImagePixel.blue pixel <= 255 ->
      Monochrome pixel
      = channel_value (ImagePixel.red pixel) RED_WEIGHT
        + channel_value (ImagePixel.green pixel) GREEN_WEIGHT
        + channel_value (ImagePixel.blue pixel) BLUE_WEIGHT
      /\ 0 <= Monochrome pixel <= 255)
  /\ (forall a, Monochrome (ImagePixel.Build_t 0 0 0 a) = 0
                /\ Monochrome (ImagePixel.Build_t 255 255 255 a) = 255)
  /\ (forall v a, 0 <= v <= 255 ->
                  v - 1 <= Monochrome (ImagePixel.Build_t v v v a) <= v + 1)
  /\ (forall r g b a r' g' b' a',
         0 <= r <= r' -> r' <= 255 -> 0 <= g <= g' -> g' <= 255 ->
         0 <= b <= b' -> b' <= 255 ->
         Monochrome (ImagePixel.Build_t r g b a)
         <= Monochrome (ImagePixel.Build_t r' g' b' a'))
  /\ (forall image_data : list ImagePixel.t,
         length (convert_to_monochrome image_data) = length image_data
         /\ Forall (fun m => m = 0 \/ m = 255) (convert_to_monochrome image_data)
         /\ forall (i : nat) pixel,
              image_data !! i = Some pixel ->
              convert_to_monochrome image_data !! i
              = Some (if Monochrome pixel <? 0x4F then 0 else 255)).
Proof.
  split; [exact Monochrome_sum |].
  split; [intros a; split; reflexivity |].
  split; [| split].
  - intros v a Hv.
    destruct (Monochrome_sum (ImagePixel.Build_t v v v a)) as (Hsum & _);
      [exact Hv | exact Hv | exact Hv |].
    rewrite Hsum. simpl. unfold channel_value, UINT8_MAX, RED_WEIGHT, GREEN_WEIGHT,
      BLUE_WEIGHT. change ((255 + 1) / 2) with 128.
    pose proof (Z.div_mod (v * 144 + 128) 255 ltac:(lia)).
    pose proof (Z.mod_pos_bound (v * 144 + 128) 255 ltac:(lia)).
    pose proof (Z.div_mod (v * 15 + 128) 255 ltac:(lia)).
    pose proof (Z.mod_pos_bound (v * 15 + 128) 255 ltac:(lia)).
    pose proof (Z.div_mod (v * 96 + 128) 255 ltac:(lia)).
    pose proof (Z.mod_pos_bound (v * 96 + 128) 255 ltac:(lia)).
    lia.
  - intros r g b a r' g' b' a' Hr Hr' Hg Hg' Hb Hb'.
    destruct (Monochrome_sum (ImagePixel.Build_t r g b a)) as (Hsum & _); simpl; try lia.
    destruct (Monochrome_sum (ImagePixel.Build_t r' g' b' a')) as (Hsum' & _); simpl; try lia.
    rewrite Hsum, Hsum'. simpl.
    unfold channel_value, UINT8_MAX, RED_WEIGHT, GREEN_WEIGHT, BLUE_WEIGHT.
    assert ((r * 144 + (255 + 1) / 2) / 255 <= (r' * 144 + (255 + 1) / 2) / 255)
      by (apply Z.div_le_mono; lia).
    assert ((g * 15 + (255 + 1) / 2) / 255 <= (g' * 15 + (255 + 1) / 2) / 255)
      by (apply Z.div_le_mono; lia).
    assert ((b * 96 + (255 + 1) / 2) / 255 <= (b' * 96 + (255 + 1) / 2) / 255)
      by (apply Z.div_le_mono; lia).
    lia.
  - intros image_data. unfold convert_to_monochrome, filter_monochrome.
    split; [rewrite !length_map; reflexivity |]. split.
    + apply Forall_forall. intros m Hm. apply list_elem_of_In, in_map_iff in Hm.
      destruct Hm as (v & <- & _). unfold filter_pixel. destruct (v <? MINIMUM); auto.
    + intros i pixel Hi. rewrite map_map.
      change (map (fun x => filter_pixel (Monochrome x)) image_data)
        with ((fun x => filter_pixel (Monochrome x)) <$> image_data).
      rewrite list_lookup_fmap, Hi. reflexivity.
Qed.

Lemma Monochrome_luma_witness :
  Monochrome (ImagePixel.Build_t 200 40 10 255) = 113 + 2 + 4
  /\ 127 <= Monochrome (ImagePixel.Build_t 128 128 128 0) <= 129.
Proof.
  destruct Monochrome_luma as (Hsum & _ & Hgray & _).
  split.
  - destruct (Hsum (ImagePixel.Build_t 200 40 10 255)) as (H & _); simpl; try lia.
    exact H.
  - apply (Hgray 128 0). lia.
Defined.

(** ** The glyph table *)

Lemma load_characters_snoc all_characters r :
  load_characters (all_characters ++ [r])
  = let character_index := swap_endian16 (character r) in
    if (character_index <? 256) && (0 <? character_index)
    then <[Z.to_nat character_index := r]> (load_characters all_characters)
    else load_characters all_characters.
Proof. unfold load_characters. rewrite foldl_app. reflexivity. Qed.

Lemma load_characters_length all_characters :
  length (load_characters all_characters) = 256%nat.
Proof.
  induction all_characters as [| r rest IH] using rev_ind; [reflexivity |].
  rewrite load_characters_snoc. cbv zeta.
  destruct (_ && _); [rewrite length_insert |]; exact IH.
Qed.

(** X3.  The glyph table built from the records of the font file always has
    256 slots; slot 0 stays empty whatever the file holds; and the slot of a
    code 1..255 holds the last record of the file that carries this code,
    or stays empty when there is none. *)
Theorem load_characters_slots (all_characters : list FontCharacter) :
  length (load_characters all_characters) = 256%nat
  /\ (forall c, u8 c = 0 -> glyph (load_characters all_characters) c = no_character)
  /\ (forall c, u8 c <> 0 ->
        glyph (load_characters all_characters) c
        = default no_character
            (last (List.filter (fun r => swap_endian16 (character r) =? u8 c)
                               all_characters))).
Proof.
  split; [apply load_characters_length |].
  assert (Hslot : forall c,
            glyph (load_characters all_characters) c
            = if u8 c =? 0 then no_character
              else default no_character
                     (last (List.filter (fun r => swap_endian16 (character r) =? u8 c)
                                        all_characters))).
  { intros c. pose proof (Z.mod_pos_bound c (2 ^ 8) ltac:(lia)) as Hc. fold (u8 c) in Hc.
    induction all_characters as [| r rest IH] using rev_ind.
    - unfold glyph, load_characters. cbn [foldl]. rewrite nth_lookup.
      destruct (replicate 256 no_character !! Z.to_nat (u8 c)) as [s |] eqn:E.
      + apply lookup_replicate in E as (-> & _). destruct (u8 c =? 0); reflexivity.
      + destruct (u8 c =? 0); reflexivity.
    - rewrite load_characters_snoc, List.filter_app. cbv zeta. simpl List.filter.
      unfold glyph in *. rewrite nth_lookup in IH. rewrite nth_lookup.
      destruct (Z.ltb_spec (swap_endian16 (character r)) 256) as [Hlt | Hge];
        destruct (Z.ltb_spec 0 (swap_endian16 (character r))) as [Hpos | Hneg]; simpl andb.
      + destruct (Z.eqb_spec (swap_endian16 (character r)) (u8 c)) as [Heq | Hne].
        * rewrite Heq, list_lookup_insert_eq by (rewrite load_characters_length; lia).
          rewrite last_snoc. simpl. destruct (Z.eqb_spec (u8 c) 0); [lia | reflexivity].
        * rewrite list_lookup_insert_ne by lia. rewrite app_nil_r. exact IH.
      + destruct (Z.eqb_spec (swap_endian16 (character r)) (u8 c)) as [Heq | Hne].
        * rewrite IH. destruct (Z.eqb_spec (u8 c) 0); [reflexivity | lia].
        * rewrite app_nil_r. exact IH.
      + destruct (Z.eqb_spec (swap_endian16 (character r)) (u8 c)) as [Heq | Hne];
          [lia | rewrite app_nil_r; exact IH].
      + destruct (Z.eqb_spec (swap_endian16 (character r)) (u8 c)) as [Heq | Hne];
          [lia | rewrite app_nil_r; exact IH]. }
  split; intros c Hc; rewrite Hslot.
  - rewrite Hc. reflexivity.
  - destruct (Z.eqb_spec (u8 c) 0); [contradiction | reflexivity].
Qed.

Lemma load_characters_slots_witness :
  glyph (load_characters [blank_glyph 65; square_glyph]) 0 = no_character
  /\ glyph (load_characters [blank_glyph 65; square_glyph]) 65 = square_glyph.
Proof.
  destruct (load_characters_slots [blank_glyph 65; square_glyph]) as (_ & Hzero & Hlast).
  split; [apply Hzero; reflexivity |].
  rewrite Hlast by (vm_compute; discriminate). reflexivity.
Defined.

(** ** Ordinal suffixes *)

Lemma mod_10_of_mod_100 place : ((place mod 100) mod 10 = place mod 10)%nat.
Proof.
  pose proof (Nat.div_mod_eq place 100) as Hsplit.
  rewrite Hsplit at 2.
  replace (100 * (place / 100) + place mod 100)%nat
    with (place mod 100 + (10 * (place / 100)) * 10)%nat by lia.
  rewrite Nat.Div0.mod_add. reflexivity.
Qed.

Lemma ordinal_suffix_mod_100 place :
  ordinal_suffix place = ordinal_suffix (place mod 100).
Proof.
  unfold ordinal_suffix. rewrite Nat.Div0.mod_mod, mod_10_of_mod_100. reflexivity.
Qed.

Ltac settle_suffix :=
  vm_compute; repeat split; intros; try discriminate; try reflexivity;
  try (exfalso; intuition (discriminate || lia)); intuition lia.

Lemma ordinal_suffix_below_100 m :
  (m < 100)%nat ->
  (ordinal_suffix m = "st"%string <-> (m mod 10 = 1 /\ m <> 11)%nat)
  /\ (ordinal_suffix m = "nd"%string <-> (m mod 10 = 2 /\ m <> 12)%nat)
  /\ (ordinal_suffix m = "rd"%string <-> (m mod 10 = 3 /\ m <> 13)%nat)
  /\ (ordinal_suffix m = "th"%string
      <-> (m mod 10 = 0 \/ 4 <= m mod 10 \/ 11 <= m <= 13)%nat).
Proof.
  intros Hm.
  do 100 (destruct m as [| m]; [settle_suffix |]).
  lia.
Qed.

(** X4.  The suffix written after a place is "st", "nd" or "rd" exactly when
    the place ends in 1, 2 or 3 and its last two digits are not 11, 12 or
    13; every other place gets "th". *)
Theorem ordinal_suffix_spec (place : nat) :
  (ordinal_suffix place = "st"%string
   <-> (place mod 10 = 1 /\ place mod 100 <> 11)%nat)
  /\ (ordinal_suffix place = "nd"%string
      <-> (place mod 10 = 2 /\ place mod 100 <> 12)%nat)
  /\ (ordinal_suffix place = "rd"%string
      <-> (place mod 10 = 3 /\ place mod 100 <> 13)%nat)
  /\ (ordinal_suffix place = "th"%string
      <-> (place mod 10 = 0 \/ 4 <= place mod 10 \/ 11 <= place mod 100 <= 13)%nat).
Proof.
  rewrite ordinal_suffix_mod_100, <- (mod_10_of_mod_100 place).
  apply ordinal_suffix_below_100. apply Nat.mod_upper_bound. discriminate.
Qed.

(** ** The report *)

Lemma i8_small z : - 2 ^ 7 <= z < 2 ^ 7 -> i8 z = z.
Proof. intros H. unfold i8. rewrite Z.mod_small by lia. lia. Qed.

Lemma i8_add_l a b : i8 (i8 a + b) = i8 (a + b).
Proof.
  unfold i8. f_equal.
  replace ((a + 2 ^ 7) mod 2 ^ 8 - 2 ^ 7 + b + 2 ^ 7)
    with ((a + 2 ^ 7) mod 2 ^ 8 + b) by lia.
  rewrite Zplus_mod_idemp_l. f_equal. lia.
Qed.

Lemma free_for_all_spec players :
  free_for_all players = true <-> Forall (fun p => red p = false) players.
Proof.
  induction players as [| p rest IH]; simpl.
  - split; [constructor | reflexivity].
  - destruct (red p) eqn:E.
    + split; [discriminate |]. intros H. inversion H; subst. congruence.
    + rewrite IH. split; [intros H; constructor; assumption |].
      intros H. inversion H; subst. assumption.
Qed.

Lemma i8_range z : - 2 ^ 7 <= i8 z < 2 ^ 7.
Proof. unfold i8. pose proof (Z.mod_pos_bound (z + 2 ^ 7) (2 ^ 8)). lia. Qed.

(** The totals of the two teams, field by field. *)
Lemma team_totals_from (stat : PlayerStats -> Z) players :
  (forall team p, stat (tally team p) = i8 (stat team + stat p)) ->
  forall teams,
  i8 (stat (fst teams)) = stat (fst teams) -> i8 (stat (snd teams)) = stat (snd teams) ->
  let after := foldl (fun teams player =>
                        if red player then (fst teams, tally (snd teams) player)
                        else (tally (fst teams) player, snd teams)) teams players in
  stat (fst after)
  = i8 (stat (fst teams) + total (map stat (List.filter (fun p => negb (red p)) players)))
  /\ stat (snd after)
     = i8 (stat (snd teams) + total (map stat (List.filter red players))).
Proof.
  intros Hstat. induction players as [| p rest IH]; intros teams Hfst Hsnd.
  - simpl. rewrite !Z.add_0_r. split; congruence.
  - cbn [foldl List.filter]. destruct (red p) eqn:E; cbn [negb map total foldr].
    + destruct (IH (fst teams, tally (snd teams) p)) as (Hblue & Hred); cbn [fst snd] in *.
      * exact Hfst.
      * rewrite Hstat. apply i8_small, i8_range.
      * split; [exact Hblue |]. rewrite Hred, Hstat, i8_add_l. unfold total. f_equal. lia.
    + destruct (IH (tally (fst teams) p, snd teams)) as (Hblue & Hred); cbn [fst snd] in *.
      * rewrite Hstat. apply i8_small, i8_range.
      * exact Hsnd.
      * split; [| exact Hred]. rewrite Hblue, Hstat, i8_add_l. unfold total. f_equal. lia.
Qed.

Lemma team_totals_sums players :
  let blue := fst (team_totals players) in
  let reds := snd (team_totals players) in
  let members (team : bool) := List.filter (fun p => Bool.eqb (red p) team) players in
  score reds = i8 (total (map score (members true)))
  /\ kills reds = i8 (total (map kills (members true)))
  /\ assists reds = i8 (total (map assists (members true)))
  /\ deaths reds = i8 (total (map deaths (members true)))
  /\ score blue = i8 (total (map score (members false)))
  /\ kills blue = i8 (total (map kills (members false)))
  /\ assists blue = i8 (total (map assists (members false)))
  /\ deaths blue = i8 (total (map deaths (members false))).
Proof.
  cbv beta zeta.
  assert (Hred : List.filter (fun p => Bool.eqb (red p) true) players
                 = List.filter red players).
  { apply filter_same. intros p. destruct (red p); reflexivity. }
  assert (Hblue : List.filter (fun p => Bool.eqb (red p) false) players
                  = List.filter (fun p => negb (red p)) players).
  { apply filter_same. intros p. destruct (red p); reflexivity. }
  rewrite Hred, Hblue. unfold team_totals.
  destruct (team_totals_from score players (fun _ _ => eq_refl) (no_stats, no_stats)
              eq_refl eq_refl) as (Hs0 & Hs1).
  destruct (team_totals_from kills players (fun _ _ => eq_refl) (no_stats, no_stats)
              eq_refl eq_refl) as (Hk0 & Hk1).
  destruct (team_totals_from assists players (fun _ _ => eq_refl) (no_stats, no_stats)
              eq_refl eq_refl) as (Ha0 & Ha1).
  destruct (team_totals_from deaths players (fun _ _ => eq_refl) (no_stats, no_stats)
              eq_refl eq_refl) as (Hd0 & Hd1).
  cbv zeta in *. simpl (_ no_stats) in *. rewrite Z.add_0_l in *.
  repeat split; assumption.
Qed.

Lemma places_length players : length (places players) = length players.
Proof. unfold places. apply length_imap. Qed.

Lemma report_length players :
  length (report players)
  = (1 + length players + (if free_for_all players then 0 else 2))%nat.
Proof.
  unfold report. cbv zeta. cbn [length]. rewrite length_app, length_imap.
  destruct (free_for_all players); simpl; lia.
Qed.

Lemma report_player_line players p player :
  players !! p = Some player ->
  report players !! S p
  = Some (PlayerLine (name player) (nth p (places players) 0%nat)
            (ordinal_suffix (nth p (places players) 0%nat))
            (if free_for_all players then "ffa"
             else if red player then "red" else "blue")
            (score player) (kills player) (assists player) (deaths player)).
Proof.
  intros Hp. unfold report. cbv zeta. rewrite lookup_cons.
  rewrite lookup_app_l by (rewrite length_imap; eapply lookup_lt_Some; exact Hp).
  rewrite list_lookup_imap, Hp. reflexivity.
Qed.

(** X5.  When no decoded row is red (which includes the case of a match
    where every row is blue), the report is the header followed by one line
    per row, in order, each with team "ffa", and no team total is written;
    and only then. *)
Theorem report_free_for_all (players : list PlayerStats) :
  (free_for_all players = true <-> Forall (fun p => red p = false) players)
  /\ (Forall (fun p => red p = false) players ->
      length (report players) = S (length players)
      /\ report players !! 0%nat = Some Header
      /\ forall p player, players !! p = Some player ->
           exists place,
             places players !! p = Some place
             /\ report players !! S p
                = Some (PlayerLine (name player) place (ordinal_suffix place) "ffa"
                          (score player) (kills player) (assists player)
                          (deaths player)))
  /\ (~ Forall (fun p => red p = false) players ->
      length (report players) = S (S (S (length players)))
      /\ forall p player, players !! p = Some player ->
           exists place,
             places players !! p = Some place
             /\ report players !! S p
                = Some (PlayerLine (name player) place (ordinal_suffix place)
                          (if red player then "red" else "blue")
                          (score player) (kills player) (assists player)
                          (deaths player))).
Proof.
  assert (Hplace : forall p player, players !! p = Some player ->
            places players !! p = Some (nth p (places players) 0%nat)).
  { intros p player Hp. rewrite nth_lookup.
    destruct (places players !! p) as [place |] eqn:E; [reflexivity |].
    apply lookup_ge_None in E. rewrite places_length in E.
    apply lookup_lt_Some in Hp. lia. }
  split; [apply free_for_all_spec |]. split.
  - intros Hblue. apply free_for_all_spec in Hblue.
    split; [rewrite report_length, Hblue; lia |]. split; [reflexivity |].
    intros p player Hp. exists (nth p (places players) 0%nat).
    split; [eapply Hplace; exact Hp |].
    rewrite (report_player_line players p player Hp), Hblue. reflexivity.
  - intros Hred.
    assert (Hffa : free_for_all players = false).
    { destruct (free_for_all players) eqn:E; [| reflexivity].
      exfalso. apply Hred, free_for_all_spec, E. }
    split; [rewrite report_length, Hffa; lia |].
    intros p player Hp. exists (nth p (places players) 0%nat).
    split; [eapply Hplace; exact Hp |].
    rewrite (report_player_line players p player Hp), Hffa. reflexivity.
Qed.

Lemma report_free_for_all_witness :
  length (report [player 7 1 0 2; player 3 0 1 4]) = 3%nat
  /\ length (report [player 7 1 0 2;
                     {| red := true; name := []; score := 3; kills := 0; assists := 1;
                        deaths := 4 |}]) = 5%nat.
Proof.
  split.
  - destruct (report_free_for_all [player 7 1 0 2; player 3 0 1 4]) as (_ & Hffa & _).
    destruct Hffa as (Hlength & _); [repeat constructor | exact Hlength].
  - destruct (report_free_for_all
                [player 7 1 0 2;
                 {| red := true; name := []; score := 3; kills := 0; assists := 1;
                    deaths := 4 |}]) as (_ & _ & Hteams).
    destruct Hteams as (Hlength & _); [| exact Hlength].
    intros H. inversion H as [| ? ? _ Hrest]; subst.
    inversion Hrest as [| ? ? Hred _]; subst. discriminate Hred.
Defined.

(** X6.  When some row is red, the report ends with the total of the red
    team and then the total of the blue team.  Each field of a total is the
    sum of the field over the rows of the team, reduced to a signed 8-bit
    value (it is the plain sum when that lies in -128..127).  A team is
    ranked "1st" exactly when its total score is strictly greater than the
    other's, so the two teams are never both "1st" and are both "2nd" when
    their totals are equal. *)
Theorem report_team_totals (players : list PlayerStats) :
  free_for_all players = false ->
  let blue := fst (team_totals players) in
  let reds := snd (team_totals players) in
  let members (team : bool) := List.filter (fun p => Bool.eqb (red p) team) players in
  exists rank_red rank_blue : string,
    report players !! S (length players)
    = Some (TeamLine "red_team_total" rank_red "red"
              (score reds) (kills reds) (assists reds) (deaths reds))
    /\ report players !! S (S (length players))
       = Some (TeamLine "blue_team_total" rank_blue "blue"
                 (score blue) (kills blue) (assists blue) (deaths blue))
    /\ score reds = i8 (total (map score (members true)))
    /\ kills reds = i8 (total (map kills (members true)))
    /\ assists reds = i8 (total (map assists (members true)))
    /\ deaths reds = i8 (total (map deaths (members true)))
    /\ score blue = i8 (total (map score (members false)))
    /\ kills blue = i8 (total (map kills (members false)))
    /\ assists blue = i8 (total (map assists (members false)))
    /\ deaths blue = i8 (total (map deaths (members false)))
    /\ (- 2 ^ 7 <= total (map score (members true)) < 2 ^ 7 ->
        score reds = total (map score (members true)))
    /\ (rank_red = "1st"%string <-> score blue < score reds)
    /\ (rank_blue = "1st"%string <-> score reds < score blue)
    /\ (rank_red = "1st"%string \/ rank_red = "2nd"%string)
    /\ (rank_blue = "1st"%string \/ rank_blue = "2nd"%string)
    /\ ~ (rank_red = "1st"%string /\ rank_blue = "1st"%string)
    /\ (score reds = score blue ->
        rank_red = "2nd"%string /\ rank_blue = "2nd"%string).
Proof.
  intros Hffa blue reds members.
  pose proof (team_totals_sums players) as Hsums. cbv zeta in Hsums.
  fold blue reds in Hsums.
  destruct Hsums as (Hs1 & Hk1 & Ha1 & Hd1 & Hs0 & Hk0 & Ha0 & Hd0).
  exists (if score blue <? score reds then "1st"%string else "2nd"%string),
         (if score reds <? score blue then "1st"%string else "2nd"%string).
  assert (Htail : forall k,
            report players !! (S (length players) + k)%nat
            = [PRINT_TEAM_TOTAL (team_totals players) "red_team_total" true;
               PRINT_TEAM_TOTAL (team_totals players) "blue_team_total" false] !! k).
  { intros k. unfold report. cbv zeta. rewrite Hffa.
    change (S (length players) + k)%nat with (S (length players + k)).
    rewrite lookup_cons.
    rewrite lookup_app_r by (rewrite length_imap; lia).
    rewrite length_imap. f_equal. lia. }
  split; [rewrite <- (Nat.add_0_r (S (length players))), Htail; reflexivity |].
  split.
  { replace (S (S (length players))) with (S (length players) + 1)%nat by lia.
    rewrite Htail. reflexivity. }
  subst members. cbv beta.
  do 8 (split; [assumption |]).
  split; [intros Hsmall; rewrite Hs1; apply i8_small, Hsmall |].
  destruct (Z.ltb_spec (score blue) (score reds)) as [Hred | Hred];
    destruct (Z.ltb_spec (score reds) (score blue)) as [Hblue | Hblue];
    try lia.
  - split; [tauto |]. split; [split; [discriminate | lia] |].
    split; [auto |]. split; [auto |]. split; [intros (_ & H); discriminate H | lia].
  - split; [split; [discriminate | lia] |]. split; [tauto |].
    split; [auto |]. split; [auto |]. split; [intros (H & _); discriminate H | lia].
  - split; [split; [discriminate | lia] |]. split; [split; [discriminate | lia] |].
    split; [auto |]. split; [auto |]. split; [intros (H & _); discriminate H | auto].
Qed.

Lemma report_team_totals_witness :
  exists rank_red rank_blue : string,
    report [{| red := true; name := []; score := 100; kills := 0; assists := 0;
               deaths := 0 |};
            {| red := true; name := []; score := 100; kills := 0; assists := 0;
               deaths := 0 |};
            player 5 0 0 0] !! 4%nat
    = Some (TeamLine "red_team_total" rank_red "red" (-56) 0 0 0)
    /\ rank_red = "2nd"%string /\ rank_blue = "1st"%string.
Proof.
  destruct (report_team_totals
              [{| red := true; name := []; score := 100; kills := 0; assists := 0;
                  deaths := 0 |};
               {| red := true; name := []; score := 100; kills := 0; assists := 0;
                  deaths := 0 |};
               player 5 0 0 0] eq_refl)
    as (rank_red & rank_blue & Hline & _ & _ & _ & _ & _ & _ & _ & _ & _ & _
        & Hred & Hblue & Hred2 & _).
  exists rank_red, rank_blue. split; [exact Hline |]. split.
  - destruct Hred2 as [H1 | H2]; [| exact H2].
    apply Hred in H1. vm_compute in H1. discriminate H1.
  - apply Hblue. vm_compute. reflexivity.
Defined.

(** ** Places *)

Lemma filter_length_Permutation {A} (f : A -> bool) (l l' : list A) :
  Permutation l l' -> length (List.filter f l) = length (List.filter f l').
Proof.
  induction 1 as [| a l l' _ IH | a b l | l l' l'' _ IH1 _ IH2]; simpl.
  - reflexivity.
  - destruct (f a); simpl; rewrite IH; reflexivity.
  - destruct (f a), (f b); reflexivity.
  - congruence.
Qed.

Lemma place_by_rank players i p :
  players !! i = Some p ->
  places players !! i
  = Some (length (List.filter (fun q => ranks_above q p || fully_tied q p) players)).
Proof.
  intros Hp. unfold places. rewrite list_lookup_imap, Hp. simpl.
  rewrite players_below_count_others.
  pose proof (count_others_without_row
                (fun q p => ranks_above q p || fully_tied q p) players i p Hp) as Hcount.
  simpl in Hcount. rewrite fully_tied_refl, orb_true_r in Hcount.
  do 2 f_equal. lia.
Qed.

(** X7.  The place of a row is the number of rows of the list, itself
    included, that rank above it or are fully tied with it; it lies between
    1 and the number of rows, and it does not depend on the order of the
    rows: the same row has the same place in every permutation of the
    list. *)
Theorem places_order_independent (players : list PlayerStats) (i : nat) (p : PlayerStats) :
  players !! i = Some p ->
  (exists place,
      places players !! i = Some place
      /\ place = length (List.filter (fun q => ranks_above q p || fully_tied q p) players)
      /\ (1 <= place <= length players)%nat)
  /\ forall (players' : list PlayerStats) (j : nat),
       Permutation players players' -> players' !! j = Some p ->
       places players' !! j = places players !! i.
Proof.
  intros Hp. split.
  - eexists. split; [apply place_by_rank, Hp |]. split; [reflexivity |]. split.
    + apply list_elem_of_lookup_2, list_elem_of_In in Hp.
      assert (Hin : In p (List.filter (fun q => ranks_above q p || fully_tied q p) players)).
      { apply filter_In. split; [exact Hp |]. rewrite fully_tied_refl. apply orb_true_r. }
      destruct (List.filter (fun q => ranks_above q p || fully_tied q p) players);
        [contradiction | simpl; lia].
    + apply filter_length_le.
  - intros players' j Hperm Hj.
    rewrite (place_by_rank players i p Hp), (place_by_rank players' j p Hj).
    f_equal. symmetry. apply filter_length_Permutation, Hperm.
Qed.

Lemma places_order_independent_witness :
  places [player 5 0 0 2; player 10 3 0 1; player 7 0 0 0] !! 0%nat
  = places [player 10 3 0 1; player 7 0 0 0; player 5 0 0 2] !! 2%nat.
Proof.
  symmetry.
  apply (places_order_independent [player 5 0 0 2; player 10 3 0 1; player 7 0 0 0]
           0 (player 5 0 0 2) eq_refl).
  - apply Permutation_cons_append.
  - reflexivity.
Defined.

(** ** The rasterizer: the buffer *)

Section BufferFacts.
Variable monochrome_pixels : list Z.
Variable characters : list FontCharacter.
Variable font : Font.
Hypothesis pool_ok : bytes_ok monochrome_pixels.

Lemma foldl_invariant {A B} (P : B -> Prop) (f : B -> A -> B) (l : list A) :
  (forall b a, P b -> P (f b a)) -> forall b, P b -> P (foldl f b l).
Proof.
  intros Hf. induction l as [| a l IH]; intros b Hb; simpl; [exact Hb |].
  apply IH, Hf, Hb.
Qed.

Lemma set_pixel_attenuated drawn x y i :
  Forall (fun v => 0 <= v <= 191) (pixels drawn) ->
  Forall (fun v => 0 <= v <= 191) (pixels (set_pixel drawn x y (px monochrome_pixels i))).
Proof.
  intros Hd. unfold set_pixel. destruct (_ && _); [| exact Hd].
  simpl. apply Forall_insert; [exact Hd |].
  pose proof (px_byte monochrome_pixels i pool_ok) as Hbyte.
  rewrite u8_small.
  - split; [apply Z.div_pos; lia |].
    assert (px monochrome_pixels i * 3 / 4 < 192) by (apply Z.div_lt_upper_bound; lia).
    lia.
  - split; [apply Z.div_pos; lia | apply Z.div_lt_upper_bound; lia].
Qed.

Lemma draw_glyph_attenuated c x_cursor drawn :
  Forall (fun v => 0 <= v <= 191) (pixels drawn) ->
  Forall (fun v => 0 <= v <= 191)
         (pixels (draw_glyph monochrome_pixels font c x_cursor drawn)).
Proof.
  intros Hd. unfold draw_glyph. destruct (_ && _); [| exact Hd].
  apply (foldl_invariant (fun d => Forall (fun v => 0 <= v <= 191) (pixels d)));
    [| exact Hd].
  intros d y Hy.
  apply (foldl_invariant (fun d => Forall (fun v => 0 <= v <= 191) (pixels d)));
    [| exact Hy].
  intros d' x Hx. apply set_pixel_attenuated, Hx.
Qed.

(** X8.  The image [draw_text] returns keeps the characters of the string
    as its label, its buffer has [height * width] entries (the 32-bit
    product), and, the pool holding bytes, every entry is at most 191 (three
    quarters of 255); after [filter_monochrome] every entry is 0 or 255 and
    the dimensions and the label are unchanged. *)
Theorem draw_text_buffer (line : list Z) :
  let drawn := draw_text monochrome_pixels characters font line in
  text drawn = c_str line
  /\ length (pixels drawn) = Z.to_nat (u32 (height drawn * width drawn))
  /\ Forall (fun v => 0 <= v <= 191) (pixels drawn)
  /\ width (filtered drawn) = width drawn /\ height (filtered drawn) = height drawn
  /\ text (filtered drawn) = c_str line
  /\ length (pixels (filtered drawn)) = length (pixels drawn)
  /\ Forall (fun v => v = 0 \/ v = 255) (pixels (filtered drawn)).
Proof.
  intros drawn.
  assert (Hframe : same_frame drawn
            {| width := text_width (map (glyph characters) (c_str line));
               height := u32 (swap_endian16 (ascending_height font)
                              + swap_endian16 (descending_height font));
               pixels := replicate
                 (Z.to_nat (u32 (u32 (swap_endian16 (ascending_height font)
                                      + swap_endian16 (descending_height font))
                                 * text_width (map (glyph characters) (c_str line))))) 0;
               text := c_str line |}).
  { subst drawn. unfold draw_text.
    match goal with |- same_frame (fst (foldl _ ?st ?l)) _ =>
      exact (draw_characters_frame monochrome_pixels font l st) end. }
  destruct Hframe as (Hw & Hh & Ht & Hlen). simpl in Hw, Hh, Ht, Hlen.
  split; [exact Ht |]. split.
  { rewrite Hlen, length_replicate, Hw, Hh. reflexivity. }
  split.
  { subst drawn. unfold draw_text.
    apply (foldl_invariant
             (fun state : MonochromeImage * Z =>
                Forall (fun v => 0 <= v <= 191) (pixels (fst state)))).
    - intros state c Hstate. simpl. apply draw_glyph_attenuated, Hstate.
    - simpl. apply Forall_replicate. lia. }
  split; [reflexivity |]. split; [reflexivity |]. split; [exact Ht |].
  split; [apply length_map |].
  simpl. unfold filter_monochrome. apply Forall_forall. intros v Hv.
  apply list_elem_of_In, in_map_iff in Hv as (m & <- & _).
  unfold filter_pixel. destruct (m <? MINIMUM); auto.
Qed.
End BufferFacts.

Lemma draw_text_buffer_witness :
  length (pixels (draw_text square_pool square_characters square_font (bytes "AA")))
  = Z.to_nat (u32 (3 * 4)).
Proof.
  assert (Hpool : bytes_ok square_pool) by (apply bytes_ok_check; reflexivity).
  apply (draw_text_buffer square_pool square_characters square_font Hpool (bytes "AA")).
Defined.

(** ** The first best score of a scan *)

Section FirstBest.
Context {A S : Type}.
Variable skipped : A -> bool.
Variable value : A -> Q.
Variable percent : S -> Q.
Variable make : A -> S.
Hypothesis percent_make : forall a, percent (make a) = value a.

Abbreviation keep := (keep_best skipped value percent make).

(** The element that wins a scan is the first one that reaches the best
    score: every element before it scores strictly less. *)
Lemma keep_best_first l : forall b,
  (foldl keep b l = b
   /\ forall a, In a l -> skipped a = false -> (value a <= percent b)%Q)
  \/ exists pre a post,
       l = pre ++ a :: post /\ skipped a = false
       /\ foldl keep b l = make a /\ (percent b < value a)%Q
       /\ (forall a', In a' pre -> skipped a' = false -> (value a' < value a)%Q)
       /\ (forall a', In a' post -> skipped a' = false -> (value a' <= value a)%Q).
Proof.
  induction l as [| a l IH]; intros b; simpl.
  - left. split; [reflexivity | intros a []].
  - assert (Hstep : (keep b a = b
                     /\ (skipped a = false -> (value a <= percent b)%Q))
                    \/ (keep b a = make a /\ skipped a = false
                        /\ (percent b < value a)%Q)).
    { unfold keep_best. destruct (skipped a) eqn:Es; [left; split; [reflexivity | discriminate] |].
      destruct (Qlt_b (percent b) (value a)) eqn:E.
      - right. repeat split. apply Qlt_b_true, E.
      - left. split; [reflexivity |]. intros _. apply Qlt_b_false, E. }
    destruct (IH (keep b a)) as [(Heq & Hle) | (pre & a' & post & Hl & Hs & Heq & Hlt & Hpre & Hpost)].
    + rewrite Heq. destruct Hstep as [(Hb & Ha) | (Hb & Hs & Hlt)].
      * left. rewrite Hb in *. split; [reflexivity |].
        intros a' [<- | Hin] Hs'; [apply Ha, Hs' | apply Hle; assumption].
      * right. exists [], a, l. rewrite Hb in *. rewrite percent_make in Hle.
        repeat split; try assumption. intros a' [].
    + right. exists (a :: pre), a', post. rewrite Hl.
      split; [reflexivity |]. split; [exact Hs |]. split; [rewrite <- Hl; exact Heq |].
      destruct Hstep as [(Hb & Ha) | (Hb & Hsa & Hlta)]; rewrite Hb in Hlt.
      * split; [exact Hlt |]. split; [| exact Hpost].
        intros x [<- | Hin] Hsx; [| apply Hpre; assumption].
        eapply Qle_lt_trans; [apply Ha, Hsx | exact Hlt].
      * rewrite percent_make in Hlt. split; [eapply Qlt_trans; eassumption |].
        split; [| exact Hpost].
        intros x [<- | Hin] Hsx; [exact Hlt | apply Hpre; assumption].
Qed.

(** What a scan leaves depends on its initial state through the score
    only, once some element has beaten it. *)
Lemma keep_best_initial l : forall b b',
  percent b = percent b' ->
  foldl keep b l = foldl keep b' l
  \/ (foldl keep b l = b /\ foldl keep b' l = b').
Proof.
  induction l as [| a l IH]; intros b b' Hp; simpl; [right; split; reflexivity |].
  assert (Hstep : (keep b a = b /\ keep b' a = b')
                  \/ (keep b a = make a /\ keep b' a = make a)).
  { unfold keep_best. rewrite Hp. destruct (skipped a); [left; split; reflexivity |].
    destruct (Qlt_b (percent b') (value a)); [right | left]; split; reflexivity. }
  destruct Hstep as [(-> & ->) | (-> & ->)]; [apply IH, Hp | left; reflexivity].
Qed.
End FirstBest.

(** ** The order of the search window *)

Lemma StronglySorted_append {A} (R : A -> A -> Prop) (l1 l2 : list A) :
  StronglySorted R l1 -> StronglySorted R l2 ->
  (forall a b, In a l1 -> In b l2 -> R a b) ->
  StronglySorted R (l1 ++ l2).
Proof.
  intros H1 H2 H12. induction H1 as [| a l1 Hs IH Ha]; simpl; [exact H2 |].
  constructor.
  - apply IH. intros x y Hx Hy. apply H12; [right; exact Hx | exact Hy].
  - apply List.Forall_forall. intros x Hx. apply in_app_or in Hx as [Hx | Hx].
    + rewrite List.Forall_forall in Ha. apply Ha, Hx.
    + apply H12; [left; reflexivity | exact Hx].
Qed.

Lemma StronglySorted_split {A} (R : A -> A -> Prop) (pre post : list A) (p : A) :
  (forall a b c, R a b -> R b c -> R a c) ->
  StronglySorted R (pre ++ p :: post) ->
  (forall q, In q pre -> R q p) /\ (forall q, In q post -> R p q).
Proof.
  intros Htrans. induction pre as [| a pre IH]; simpl; intros Hs.
  - inversion Hs as [| ? ? _ Hall]; subst. rewrite List.Forall_forall in Hall.
    split; [intros q [] | exact Hall].
  - inversion Hs as [| ? ? Hrest Hall]; subst. rewrite List.Forall_forall in Hall.
    destruct (IH Hrest) as (Hpre & Hpost). split; [| exact Hpost].
    intros q [<- | Hq]; [| apply Hpre, Hq].
    apply Hall, in_or_app. right. left. reflexivity.
Qed.

Lemma range_sorted lo hi : StronglySorted Z.lt (range lo hi).
Proof.
  unfold range, seqZ. generalize (Z.to_nat (hi - lo)) as k. generalize 0%nat as a.
  intros a k. revert a. induction k as [| k IH]; intros a; simpl; constructor.
  - apply IH.
  - apply List.Forall_forall. intros z Hz.
    change (In z ((fun i : nat => Z.of_nat i + lo) <$> seq (S a) k)) in Hz.
    apply list_elem_of_In, list_elem_of_fmap in Hz as (i & -> & Hi).
    apply list_elem_of_In, in_seq in Hi. lia.
Qed.

Lemma coordinates_sorted (cols rows : list Z) :
  StronglySorted Z.lt cols -> StronglySorted Z.lt rows ->
  StronglySorted scanned_before (flat_map (fun y => map (fun x => (x, y)) cols) rows).
Proof.
  intros Hcols. induction 1 as [| y rows Hs IH Hy]; simpl; [constructor |].
  apply StronglySorted_append.
  - clear - Hcols. induction Hcols as [| x cols Hs IH Hx]; simpl; constructor.
    + exact IH.
    + apply List.Forall_forall. intros q Hq. apply in_map_iff in Hq as (x' & <- & Hx').
      rewrite List.Forall_forall in Hx. right. simpl. split; [reflexivity | apply Hx, Hx'].
  - exact IH.
  - intros p q Hp Hq. apply in_map_iff in Hp as (x & <- & _).
    destruct q as [x' y']. apply In_coordinates in Hq as (_ & Hy').
    rewrite List.Forall_forall in Hy. left. simpl. apply Hy, Hy'.
Qed.

Lemma scanned_before_trans p q r :
  scanned_before p q -> scanned_before q r -> scanned_before p r.
Proof. unfold scanned_before. lia. Qed.

Lemma scanned_before_total p q :
  p = q \/ scanned_before p q \/ scanned_before q p.
Proof.
  destruct p as [x y], q as [x' y']. unfold scanned_before. simpl.
  destruct (Z.lt_total y y') as [H | [H | H]]; [right; left; lia | | right; right; lia].
  destruct (Z.lt_total x x') as [H' | [H' | H']];
    [right; left; lia | left; congruence | right; right; lia].
Qed.

Lemma scanned_before_irrefl p : ~ scanned_before p p.
Proof. unfold scanned_before. lia. Qed.

(** ** Header calibration: which position is found *)

Section CalibrationOrder.
Variable monochrome_version : list Z.
Variable image_width : Z.
Variable monochrome_pixels : list Z.
Variable characters : list FontCharacter.
Variable font : Font.

Abbreviation match_' := (match_ monochrome_version image_width).
Abbreviation find_header_text' :=
  (find_header_text monochrome_version image_width monochrome_pixels characters font).
Abbreviation header := (fun text => filtered (draw_text monochrome_pixels characters font text)).
Abbreviation window := (search_window image_width font).

Lemma search_window_sorted min_x min_y :
  StronglySorted scanned_before (window min_x min_y).
Proof. unfold search_window. apply coordinates_sorted; apply range_sorted. Qed.


Lemma total_zero (f : Z -> Z) l : Forall (fun c => f c = 0) l -> total (map f l) = 0.
Proof. induction 1 as [| c l Hc _ IH]; simpl; [reflexivity | rewrite Hc, IH; reflexivity]. Qed.

(** X10.  A header none of whose characters has an advance width in the
    font (the empty string, or a font without these glyphs) is rasterized
    with no width, scores 0 at every position of every screenshot, and so
    makes [find_header_text] exit with a failure that reports the initial
    guess and a score of 0. *)
Theorem find_header_text_without_glyphs (text : list Z)
  (min_x min_y found_x found_y : Z) :
  Forall (fun c => advance characters c = 0) (c_str text) ->
  width (header text) = 0
  /\ (forall x y, match_' (header text) x y = 0%Q)
  /\ find_header_text' text min_x min_y found_x found_y
     = Exit EXIT_FAILURE
         {| failed_text := text; guess_x := found_x; guess_y := found_y;
            guess_percent := (0 * 100)%Q |}.
Proof.
  intros Hadvance.
  assert (Hwidth : width (header text) = 0).
  { simpl. rewrite draw_text_width, text_width_total, map_map.
    fold (advance characters). rewrite (total_zero (advance characters)) by exact Hadvance.
    reflexivity. }
  assert (Hzero : forall x y, match_' (header text) x y = 0%Q)
    by (intros x y; apply match_no_width, Hwidth).
  assert (Hexit : forall fx fy,
            find_header_text' text min_x min_y fx fy
            = Exit EXIT_FAILURE
                {| failed_text := text; guess_x := fx; guess_y := fy;
                   guess_percent := (0 * 100)%Q |}).
  { intros fx fy. unfold find_header_text.
    destruct (scan_window_best monochrome_version image_width font (header text)
                min_x min_y fx fy) as (_ & [(Heq & _) | (p & _ & _ & Hlt)]).
    - rewrite Heq. reflexivity.
    - rewrite Hzero in Hlt. exfalso. exact (Qlt_irrefl _ Hlt). }
  split; [exact Hwidth |]. split; [exact Hzero |]. apply Hexit.
Qed.
End CalibrationOrder.

(** ** Perfect matches *)

Lemma filter_length_all {A} (f : A -> bool) l :
  length (List.filter f l) = length l <-> forall a, In a l -> f a = true.
Proof.
  induction l as [| a l IH]; simpl; [tauto |].
  destruct (f a) eqn:E; simpl.
  - split.
    + intros Hlen b [<- | Hb]; [exact E |]. apply IH; [lia | exact Hb].
    + intros Hall. f_equal. apply IH. intros b Hb. apply Hall. right. exact Hb.
  - split.
    + intros Hlen. pose proof (filter_length_le f l). lia.
    + intros Hall. specialize (Hall a (or_introl eq_refl)). congruence.
Qed.




Lemma find_header_text_without_glyphs_witness :
  Forall (fun c => advance (load_characters []) c = 0) (c_str (bytes "Name"))
  /\ find_header_text blank_screenshot 122 [] (load_characters []) sample_font
                      (bytes "Name") 120 120 7 9
     = Exit EXIT_FAILURE
         {| failed_text := bytes "Name"; guess_x := 7; guess_y := 9;
            guess_percent := (0 * 100)%Q |}.
Proof.
  assert (Hnone : Forall (fun c => advance (load_characters []) c = 0)
                         (c_str (bytes "Name")))
    by (unfold c_str, bytes; cbn; repeat constructor; vm_compute; reflexivity).
  split; [exact Hnone |].
  destruct (find_header_text_without_glyphs blank_screenshot 122 [] (load_characters [])
              sample_font (bytes "Name") 120 120 7 9 Hnone) as (_ & _ & Hexit).
  exact Hexit.
Defined.



(** ** The end of [string_at] *)

Lemma strip_spec turns : forall final_string,
  (length final_string <= turns)%nat ->
  (exists n, final_string = strip turns final_string ++ replicate n (char " "))
  /\ last (strip turns final_string) <> Some (char " ").
Proof.
  induction turns as [| turns IH]; intros s Hlen.
  - destruct s; [| simpl in Hlen; lia]. simpl. split; [exists 0%nat; reflexivity |].
    discriminate.
  - simpl. destruct (last s) as [c |] eqn:Elast.
    + destruct (Z.eqb_spec c (char " ")) as [-> | Hne].
      * apply last_Some in Elast as (s' & ->).
        rewrite removelast_last.
        destruct (IH s') as ((n & Hn) & Hlast).
        { rewrite length_app in Hlen. simpl in Hlen. lia. }
        split; [| exact Hlast].
        exists (S n). rewrite Hn at 1. rewrite <- app_assoc. f_equal.
        change (replicate (S n) (char " ")) with (char " " :: replicate n (char " ")).
        rewrite replicate_cons_app. reflexivity.
      * split; [exists 0%nat; rewrite app_nil_r; reflexivity |].
        rewrite Elast. congruence.
    + split; [exists 0%nat; rewrite app_nil_r; reflexivity |].
      rewrite Elast. discriminate.
Qed.

Lemma strip_enough turns : forall final_string,
  (length final_string <= turns)%nat ->
  strip turns final_string = strip (length final_string) final_string.
Proof.
  induction turns as [| turns IH]; intros s Hlen.
  - destruct s; [reflexivity | simpl in Hlen; lia].
  - destruct s as [| c0 s0] eqn:Es; [reflexivity |]. rewrite <- Es in *.
    assert (Hs : length s = S (length s0)) by (rewrite Es; reflexivity).
    rewrite Hs. simpl.
    destruct (last s) as [c |] eqn:Elast; [| reflexivity].
    destruct (c =? char " "); [| reflexivity].
    apply last_Some in Elast as (s' & Hs').
    rewrite Hs', removelast_last.
    assert (Hlen' : length s' = length s0).
    { rewrite Hs', length_app in Hs. simpl in Hs. lia. }
    rewrite IH by lia. rewrite <- Hlen'. reflexivity.
Qed.

(** X12.  The loop that strips the whitespace returns the decoded string
    without the spaces at its end: what it removes is a run of spaces, what
    it returns does not end with a space, and a string that ends with no
    space is returned as it is.  The loop has left by itself within
    [final_string.size()] turns. *)
Theorem strip_trailing_spaces (final_string : list Z) :
  let stripped := strip (length final_string) final_string in
  (exists n, final_string = stripped ++ replicate n (char " "))
  /\ last stripped <> Some (char " ")
  /\ (last final_string <> Some (char " ") -> stripped = final_string)
  /\ strip (length stripped) stripped = stripped
  /\ forall turns, (length final_string <= turns)%nat ->
       strip turns final_string = stripped.
Proof.
  intros stripped.
  destruct (strip_spec (length final_string) final_string (le_n _)) as (Hrun & Hlast).
  fold stripped in Hrun, Hlast.
  assert (Hkeep : forall s, last s <> Some (char " ") -> strip (length s) s = s).
  { intros s Hs. destruct s as [| c0 s0] eqn:Es; [reflexivity |]. rewrite <- Es in *.
    assert (Hl : length s = S (length s0)) by (rewrite Es; reflexivity).
    rewrite Hl. simpl. destruct (last s) as [c |]; [| reflexivity].
    destruct (Z.eqb_spec c (char " ")) as [-> | _]; [congruence | reflexivity]. }
  split; [exact Hrun |]. split; [exact Hlast |].
  split; [apply Hkeep |]. split; [apply Hkeep, Hlast |].
  intros turns Hturns. apply strip_enough, Hturns.
Qed.

Lemma strip_trailing_spaces_witness :
  strip 4 (bytes "ab  ") = bytes "ab" /\ strip 7 (bytes "ab  ") = bytes "ab".
Proof.
  destruct (strip_trailing_spaces (bytes "ab  ")) as (_ & _ & _ & _ & Henough).
  split; [reflexivity |].
  rewrite (Henough 7%nat) by (simpl; lia). reflexivity.
Defined.

Section FixFacts.
Variable monochrome_version : list Z.
Variable image_width : Z.
Variable monochrome_pixels : list Z.
Variable characters : list FontCharacter.
Variable font : Font.
Variables search_x search_y : Z.

Abbreviation fix_error' :=
  (fix_error monochrome_version image_width monochrome_pixels characters font
             search_x search_y).
Abbreviation fix_errors_at' :=
  (fix_errors_at monochrome_version image_width monochrome_pixels characters font
                 search_x search_y).
Abbreviation fix_errors' :=
  (fun turns => fix_errors monochrome_version image_width monochrome_pixels characters font
                           turns search_x search_y).

Lemma alike_refl s : alike s s.
Proof. split; [reflexivity |]. intros j c Hc. exists c. split; [exact Hc | reflexivity]. Qed.

Lemma alike_trans s1 s2 s3 : alike s1 s2 -> alike s2 s3 -> alike s1 s3.
Proof.
  intros (Hl12 & H12) (Hl23 & H23). split; [congruence |].
  intros j c Hc. destruct (H12 j c Hc) as (c2 & Hc2 & Ha2).
  destruct (H23 j c2 Hc2) as (c3 & Hc3 & Ha3).
  exists c3. split; [exact Hc3 | congruence].
Qed.

Lemma insert_alike (i : nat) (v : Z) (s : list Z) :
  (forall c, s !! i = Some c -> look_alike v = look_alike c) ->
  alike s (<[i := v]> s).
Proof.
  intros Hv. split; [apply length_insert |].
  intros j c Hc. destruct (Nat.eq_dec j i) as [-> | Hne].
  - exists v. split; [| apply Hv, Hc].
    apply list_lookup_insert_eq. apply lookup_lt_Some in Hc. exact Hc.
  - exists c. split; [| reflexivity].
    rewrite list_lookup_insert_ne by congruence. exact Hc.
Qed.

Lemma fix_error_alike (i : nat) (a b : Z) (s : list Z) :
  look_alike a = look_alike b -> alike s (fix_error' i a b s).
Proof.
  intros Hab. unfold fix_error. cbv zeta.
  destruct (negb (nth i s 0 =? a) && negb (nth i s 0 =? b)) eqn:Eskip;
    [apply alike_refl |].
  assert (Hcases : forall c, s !! i = Some c -> c = a \/ c = b).
  { intros c Hc. rewrite nth_lookup, Hc in Eskip. simpl in Eskip.
    destruct (Z.eqb_spec c a); [left; assumption |].
    destruct (Z.eqb_spec c b); [right; assumption | discriminate]. }
  destruct (Qlt_b _ _); apply insert_alike; intros c Hc;
    destruct (Hcases c Hc); congruence.
Qed.

Lemma fix_errors_at_alike (i : nat) (s : list Z) : alike s (fix_errors_at' i s).
Proof.
  unfold fix_errors_at. cbv zeta.
  repeat (eapply alike_trans; [| apply fix_error_alike; reflexivity]).
  apply alike_refl.
Qed.

Lemma fix_errors_alike turns : forall i s, alike s (fix_errors' turns i s).
Proof.
  induction turns as [| turns IH]; intros i s; simpl; [apply alike_refl |].
  destruct (i <? length s)%nat; [| apply alike_refl].
  eapply alike_trans; [apply fix_errors_at_alike | apply IH].
Qed.

Lemma fix_errors_enough turns : forall i s,
  (length s - i <= turns)%nat ->
  fix_errors' turns i s = fix_errors' (length s - i)%nat i s.
Proof.
  induction turns as [| turns IH]; intros i s Hturns.
  - replace (length s - i)%nat with 0%nat by lia. reflexivity.
  - destruct (length s - i)%nat as [| left] eqn:Eleft.
    + simpl. destruct (Nat.ltb_spec i (length s)); [lia | reflexivity].
    + simpl. destruct (Nat.ltb_spec i (length s)); [| reflexivity].
      destruct (fix_errors_at_alike i s) as (Hlen & _).
      rewrite IH by lia. f_equal. lia.
Qed.

(** X13.  "Fix some common errors" keeps the length of the name and, at
    every index, replaces the character by one of its look-alikes only
    (l, i and I; 2 and Z; a and e; n and m): a character that is none of
    these nine is left as it is.  The loop has visited every index within
    [final_string.size()] turns. *)
Theorem fix_errors_look_alike (final_string : list Z) :
  let fixed := fix_errors' (length final_string) 0%nat final_string in
  length fixed = length final_string
  /\ (forall j c, final_string !! j = Some c ->
        exists c', fixed !! j = Some c' /\ look_alike c' = look_alike c)
  /\ (forall j c, final_string !! j = Some c ->
        ~ In c (map char ["l"; "i"; "I"; "2"; "Z"; "a"; "e"; "n"; "m"]%char) ->
        fixed !! j = Some c)
  /\ forall turns, (length final_string <= turns)%nat ->
       fix_errors' turns 0%nat final_string = fixed.
Proof.
  intros fixed.
  destruct (fix_errors_alike (length final_string) 0 final_string) as (Hlen & Halike).
  fold fixed in Hlen, Halike.
  split; [exact Hlen |]. split; [exact Halike |]. split.
  - intros j c Hc Hplain. destruct (Halike j c Hc) as (c' & Hc' & Hsame).
    rewrite Hc'. f_equal.
    assert (Hc9 : c <> char "l" /\ c <> char "i" /\ c <> char "I" /\ c <> char "2"
                  /\ c <> char "Z" /\ c <> char "a" /\ c <> char "e"
                  /\ c <> char "n" /\ c <> char "m").
    { simpl in Hplain. repeat split; intros ->; apply Hplain; tauto. }
    clear Hplain. destruct Hc9 as (H1 & H2 & H3 & H4 & H5 & H6 & H7 & H8 & H9).
    unfold look_alike in Hsame.
    repeat match type of Hsame with
           | context [?x =? ?y] => destruct (Z.eqb_spec x y); simpl in Hsame
           end; congruence.
  - intros turns Hturns. subst fixed.
    rewrite fix_errors_enough by lia. f_equal. lia.
Qed.
End FixFacts.

Lemma fix_errors_look_alike_witness :
  fix_errors tiny_screenshot 4 square_pool square_characters square_font 2 0 0 0
             (bytes "Hi") !! 0%nat = Some (char "H").
Proof.
  destruct (fix_errors_look_alike tiny_screenshot 4 square_pool square_characters
              square_font 0 0 (bytes "Hi")) as (_ & _ & Hplain & _).
  apply Hplain; [reflexivity |].
  simpl. intros Hin. repeat destruct Hin as [Hin | Hin]; try discriminate Hin.
  exact Hin.
Defined.

(** ** What a decoded string is made of *)

Lemma draw_text_label monochrome_pixels characters font line :
  text (draw_text monochrome_pixels characters font line) = c_str line.
Proof.
  unfold draw_text.
  match goal with |- text (fst (foldl _ ?st ?l)) = _ =>
    destruct (draw_characters_frame monochrome_pixels font l st) as (_ & _ & Ht & _) end.
  exact Ht.
Qed.

Section DecodedCharacters.
Variable monochrome_version : list Z.
Variable image_width : Z.
Variable table : list MonochromeImage.

Abbreviation best_candidate' := (best_candidate monochrome_version image_width table).
Abbreviation decode' := (fun fuel => decode monochrome_version image_width fuel table).
Abbreviation entry := (fun ch : Z => exists c, In c table /\ ch = hd 0 (text c)).

Lemma best_candidate_entry x max_x search_y best_character best_length best_x :
  snd (best_candidate' x max_x search_y) = Some (best_character, best_length, best_x) ->
  exists c, In c table /\ best_character = hd 0 (text c) /\ best_length = width c.
Proof.
  intros Ebest.
  pose proof (keep_best_attained (trial_skipped x max_x)
                (trial_score monochrome_version image_width x search_y) fst
                (trial_state monochrome_version image_width x search_y)
                (fun _ => eq_refl) (trials table) (0%Q, None)) as Hbest.
  rewrite <- best_candidate_keep_best in Hbest.
  destruct Hbest as [(Heq & _) | (t & Hin & _ & Heq & _)].
  { rewrite Heq in Ebest. discriminate Ebest. }
  destruct t as [[my mx] c]. apply In_trials in Hin as (_ & _ & Hc).
  rewrite Heq in Ebest. simpl in Ebest. inversion Ebest; subst.
  exists c. auto.
Qed.

Lemma decode_entries fuel : forall max_x search_y x final_string decoded,
  decode' fuel max_x search_y x final_string = Done decoded ->
  exists suffix, decoded = final_string ++ suffix /\ Forall entry suffix.
Proof.
  induction fuel as [| fuel IH]; intros max_x search_y x final_string decoded Hdone;
    [discriminate Hdone |].
  simpl in Hdone.
  assert (Hstop : Done final_string = Done decoded ->
                  exists suffix, decoded = final_string ++ suffix /\ Forall entry suffix).
  { intros [= <-]. exists []. rewrite app_nil_r. split; [reflexivity | constructor]. }
  destruct (x <? max_x); [| apply Hstop, Hdone].
  destruct (snd (best_candidate' x max_x search_y))
    as [[[best_character best_length] best_x] |] eqn:Ebest; [| apply Hstop, Hdone].
  apply best_candidate_entry in Ebest as (c & Hc & -> & ->).
  apply IH in Hdone as (suffix & -> & Hsuffix).
  exists (hd 0 (text c) :: suffix). rewrite <- app_assoc. split; [reflexivity |].
  constructor; [| exact Hsuffix]. exists c. auto.
Qed.
End DecodedCharacters.

Lemma strip_prefix (s : list Z) : exists n, s = strip (length s) s ++ replicate n (char " ").
Proof. apply (strip_spec (length s) s (le_n _)). Qed.

Lemma numbers_entries monochrome_pixels characters font c :
  In c (numbers monochrome_pixels characters font) ->
  char "0" <= hd 0 (text c) <= char "9" \/ hd 0 (text c) = char "-".
Proof.
  unfold numbers. intros Hc. apply in_app_or in Hc as [Hc | [<- | []]].
  - apply in_map_iff in Hc as (i & <- & Hi). apply In_range in Hi.
    simpl. rewrite draw_text_label. simpl.
    destruct (Z.eqb_spec (i + char "0") 0) as [Hz | _].
    + change (char "0") with 48 in Hz. lia.
    + simpl. change (char "0") with 48. change (char "9") with 57. lia.
  - right. simpl. rewrite draw_text_label. reflexivity.
Qed.

Lemma all_entries monochrome_pixels characters font c :
  In c (all monochrome_pixels characters font) ->
  char " " <= hd 0 (text c) < 0x7F.
Proof.
  unfold all. intros Hc. apply in_flat_map in Hc as (i & Hi & Hc).
  destruct (negb _ && _) eqn:Ekeep; [| destruct Hc].
  destruct Hc as [<- | []].
  apply andb_prop in Ekeep as (_ & Hprintable).
  apply andb_prop in Hprintable as (Hlo & Hhi).
  apply Z.leb_le in Hlo. apply Z.ltb_lt in Hhi. change (char " ") with 32 in *.
  simpl. rewrite draw_text_label. simpl.
  destruct (Z.eqb_spec i 0) as [Hz | _]; [lia |]. simpl. lia.
Qed.

Lemma look_alike_printable c c' :
  look_alike c' = look_alike c -> char " " <= c < 0x7F -> char " " <= c' < 0x7F.
Proof.
  unfold look_alike. change (char " ") with 32.
  intros Hsame Hc.
  repeat match type of Hsame with
         | context [?x =? ?y] => destruct (Z.eqb_spec x y); simpl in Hsame
         end; subst;
    repeat match goal with H : _ = char _ |- _ => vm_compute in H end;
    try (vm_compute; split; congruence); try (vm_compute in Hsame; lia); lia.
Qed.

Lemma look_alike_space c : look_alike c = look_alike (char " ") -> c = char " ".
Proof.
  unfold look_alike. simpl. intros Hsame.
  repeat match type of Hsame with
         | context [?x =? ?y] => destruct (Z.eqb_spec x y); simpl in Hsame
         end; try discriminate Hsame; exact Hsame.
Qed.

Section DecodedStrings.
Variable monochrome_version : list Z.
Variable image_width : Z.
Variable monochrome_pixels : list Z.
Variable characters : list FontCharacter.
Variable font : Font.

Abbreviation string_at_fixed' :=
  (string_at_fixed monochrome_version image_width monochrome_pixels characters font).

Lemma string_at_fixed_inv fuel search_x search_y end_x table fix_string s :
  string_at_fixed' fuel search_x search_y end_x table fix_string = Done s ->
  exists decoded n,
    Forall (fun ch => exists c, In c table /\ ch = hd 0 (text c)) decoded
    /\ decoded = strip (length decoded) decoded ++ replicate n (char " ")
    /\ last (strip (length decoded) decoded) <> Some (char " ")
    /\ s = (if fix_string
            then fix_errors monochrome_version image_width monochrome_pixels characters
                            font (length (strip (length decoded) decoded))
                            search_x search_y 0 (strip (length decoded) decoded)
            else strip (length decoded) decoded).
Proof.
  unfold string_at_fixed, string_at. intros Hdone.
  destruct (trimmed_end _ _ _ _ _ _) as [max_x | |]; try discriminate Hdone.
  simpl in Hdone.
  destruct (decode _ _ _ _ _ _ _ _) as [decoded | |] eqn:Edecode; try discriminate Hdone.
  simpl in Hdone. injection Hdone as <-.
  apply decode_entries in Edecode as (suffix & -> & Hsuffix). simpl.
  destruct (strip_spec (length suffix) suffix (le_n _)) as ((n & Hn) & Hlast).
  exists suffix, n. auto.
Qed.

(** X14.  A statistic is decoded with the table of the digits and the
    minus sign, without the fixes: whatever the screenshot, the string
    that [string_at] returns for it holds only the characters 0 to 9
    and -. *)
Theorem string_at_numbers fuel search_x search_y end_x s :
  string_at_fixed' fuel search_x search_y end_x
                   (numbers monochrome_pixels characters font) false = Done s ->
  Forall (fun ch => char "0" <= ch <= char "9" \/ ch = char "-") s.
Proof.
  intros Hdone.
  apply string_at_fixed_inv in Hdone as (decoded & n & Hentries & Hn & _ & ->).
  rewrite Hn in Hentries. apply Forall_app in Hentries as (Hentries & _).
  eapply Forall_impl; [exact Hentries |].
  intros ch (c & Hc & ->). apply (numbers_entries _ _ _ _ Hc).
Qed.

(** X15.  A name is decoded with the table of the characters from the
    space to the tilde that have a width in the font, then fixed: whatever
    the screenshot, the name that [string_at] returns holds only these
    characters, and does not end with a space. *)
Theorem string_at_names fuel search_x search_y end_x s :
  string_at_fixed' fuel search_x search_y end_x
                   (all monochrome_pixels characters font) true = Done s ->
  Forall (fun ch => char " " <= ch < 0x7F) s /\ last s <> Some (char " ").
Proof.
  intros Hdone.
  apply string_at_fixed_inv in Hdone as (decoded & n & Hentries & Hn & Hlast & ->).
  rewrite Hn in Hentries. apply Forall_app in Hentries as (Hentries & _).
  set (stripped := strip (length decoded) decoded) in *.
  destruct (fix_errors_alike monochrome_version image_width monochrome_pixels characters
              font search_x search_y (length stripped) 0 stripped) as (Hlen & Halike).
  set (fixed := fix_errors _ _ _ _ _ _ _ _ _ _) in *.
  split.
  - apply Forall_lookup_2. intros j ch Hch.
    assert (Hj : (j < length stripped)%nat)
      by (rewrite <- Hlen; apply lookup_lt_Some in Hch; exact Hch).
    apply lookup_lt_is_Some_2 in Hj as (c0 & Hc0).
    destruct (Halike j c0 Hc0) as (c' & Hc' & Hsame).
    assert (c' = ch) by congruence. subst c'.
    apply (look_alike_printable c0 ch Hsame).
    rewrite Forall_lookup in Hentries. destruct (Hentries j c0 Hc0) as (c & Hc & ->).
    apply (all_entries _ _ _ _ Hc).
  - intros Hspace. apply Hlast.
    rewrite last_lookup in Hspace |- *. rewrite Hlen in Hspace.
    destruct (stripped !! Init.Nat.pred (length stripped)) as [c0 |] eqn:Hc0.
    + destruct (Halike _ c0 Hc0) as (c' & Hc' & Hsame).
      assert (c' = char " ") by congruence. subst c'.
      f_equal. symmetry in Hsame. apply look_alike_space in Hsame. exact Hsame.
    + apply lookup_ge_None in Hc0. apply lookup_lt_Some in Hspace. lia.
Qed.
End DecodedStrings.


Lemma string_at_numbers_witness :
  string_at_fixed dotted_screenshot 4 [] digit_characters tall_font 5 0 5 4
                  (numbers [] digit_characters tall_font) false = Done (bytes "000")
  /\ Forall (fun ch => char "0" <= ch <= char "9" \/ ch = char "-") (bytes "000").
Proof.
  assert (Hdone : string_at_fixed dotted_screenshot 4 [] digit_characters tall_font 5 0 5 4
                    (numbers [] digit_characters tall_font) false = Done (bytes "000"))
    by (vm_compute; reflexivity).
  split; [exact Hdone |].
  exact (string_at_numbers dotted_screenshot 4 [] digit_characters tall_font 5 0 5 4
           (bytes "000") Hdone).
Defined.

Lemma string_at_names_witness :
  string_at_fixed dotted_screenshot 4 [] sample_characters tall_font 5 0 5 4
                  (all [] sample_characters tall_font) true = Done (bytes "AAA")
  /\ Forall (fun ch => char " " <= ch < 0x7F) (bytes "AAA")
  /\ last (bytes "AAA") <> Some (char " ").
Proof.
  assert (Hdone : string_at_fixed dotted_screenshot 4 [] sample_characters tall_font 5 0 5 4
                    (all [] sample_characters tall_font) true = Done (bytes "AAA"))
    by (vm_compute; reflexivity).
  split; [exact Hdone |].
  exact (string_at_names dotted_screenshot 4 [] sample_characters tall_font 5 0 5 4
           (bytes "AAA") Hdone).
Defined.


(** ** The extent of a run of characters *)

Section ExtentFacts.
Variable monochrome_version : list Z.
Variable image_width : Z.
Variable font : Font.
Hypothesis screenshot : screenshot_ok monochrome_version image_width.

Abbreviation column_has_ink' := (column_has_ink monochrome_version image_width).
Abbreviation drought_scan' := (drought_scan monochrome_version image_width font).
Abbreviation trimmed_end' := (trimmed_end monochrome_version image_width font).
Abbreviation inked := (ink_in_column monochrome_version image_width).

Lemma column_has_ink_spec (column : Z) (ys : list Z) :
  0 <= column < image_width -> Forall (fun y => 0 <= y < 480) ys ->
  exists ink, column_has_ink' column ys = Done ink
              /\ (ink = true
                  <-> exists y, In y ys
                        /\ screenshot_pixel monochrome_version image_width column y <> 0).
Proof.
  intros Hcolumn Hys. induction Hys as [| y ys Hy _ IH]; simpl.
  - exists false. split; [reflexivity |]. split; [discriminate | intros (y & [] & _)].
  - rewrite (pixel_index monochrome_version image_width screenshot column y Hcolumn Hy).
    simpl. fold (screenshot_pixel monochrome_version image_width column y).
    destruct (Z.eqb_spec (screenshot_pixel monochrome_version image_width column y) 0)
      as [Hz | Hnz].
    + destruct IH as (ink & Hdone & Hink). exists ink. split; [exact Hdone |].
      rewrite Hink. split.
      * intros (y' & Hin & Hp). exists y'. split; [right; exact Hin | exact Hp].
      * intros (y' & [<- | Hin] & Hp); [contradiction |]. exists y'. auto.
    + exists true. split; [reflexivity |]. split; [| reflexivity].
      intros _. exists y. split; [left; reflexivity | exact Hnz].
Qed.

Lemma drought_scan_spec (search_y : Z) (columns : nat) :
  0 <= search_y -> 0 <= line_height_search font ->
  search_y + line_height_search font <= 480 ->
  forall lo hi drought,
    Z.of_nat columns = Z.max 0 (hi - lo) -> 0 <= lo -> hi <= image_width ->
    0 <= drought -> drought + (hi - lo) < 2 ^ 32 ->
    exists d, drought_scan' search_y (range lo hi) drought = Done d
      /\ (((forall column, lo <= column < hi ->
              ~ inked (search_y + 4) (search_y + line_height_search font) column)
           /\ d = drought + Z.max 0 (hi - lo))
          \/ exists c, lo <= c < hi
               /\ inked (search_y + 4) (search_y + line_height_search font) c
               /\ (forall column, c < column < hi ->
                     ~ inked (search_y + 4) (search_y + line_height_search font) column)
               /\ d = hi - 1 - c).
Proof.
  intros Hsy Hlhs Hband.
  induction columns as [| columns IH]; intros lo hi drought Hcount Hlo Hhi Hd Hsum.
  - unfold range. rewrite seqZ_nil by lia. simpl. exists drought.
    split; [reflexivity |]. left. split; [intros column Hc; lia | lia].
  - unfold range. rewrite seqZ_cons by lia.
    replace (Z.pred (hi - lo)) with (hi - Z.succ lo) by lia. fold (range (Z.succ lo) hi).
    cbn [drought_scan].
    rewrite (u32_small (search_y + 4)),
            (u32_small (search_y + line_height_search font)) by lia.
    destruct (column_has_ink_spec lo
                (range (search_y + 4) (search_y + line_height_search font)))
      as (ink & Hdone & Hink).
    { lia. }
    { apply List.Forall_forall. intros y Hy. apply In_range in Hy. lia. }
    rewrite Hdone. cbn [run_bind].
    assert (Hinked : ink = true
                     <-> inked (search_y + 4) (search_y + line_height_search font) lo).
    { rewrite Hink. unfold ink_in_column. split; intros (y & Hy & Hp); exists y;
        (split; [| exact Hp]); apply In_range; exact Hy. }
    destruct (IH (Z.succ lo) hi (if ink then 0 else u32 (drought + 1)))
      as (d & Hscan & Hd'); try lia.
    { destruct ink; [lia |]. rewrite u32_small by lia. lia. }
    { destruct ink; [lia |]. rewrite u32_small by lia. lia. }
    exists d. split; [exact Hscan |].
    destruct Hd' as [(Hblank & ->) | (c & Hc & Hcink & Hafter & ->)].
    + destruct ink.
      * right. exists lo. split; [lia |]. split; [apply Hinked; reflexivity |].
        split; [intros column Hcol; apply Hblank; lia | lia].
      * left. split.
        -- intros column Hcol. destruct (Z.eq_dec column lo) as [-> | Hne].
           ++ intros Habs. apply Hinked in Habs. discriminate Habs.
           ++ apply Hblank. lia.
        -- rewrite u32_small by lia. lia.
    + right. exists c. split; [lia |]. split; [exact Hcink |]. split; [exact Hafter | lia].
Qed.

(** Within the screenshot the drought scan returns, and the end it finds
    is past [search_x] and not past [end_x]. *)
Lemma trimmed_end_bounds (search_x search_y end_x : Z) :
  0 <= search_x -> search_x + 1 < 2 ^ 32 -> end_x <= image_width ->
  0 <= search_y -> 0 <= line_height_search font ->
  search_y + line_height_search font <= 480 ->
  exists max_x,
    trimmed_end' search_x search_y end_x = Done max_x
    /\ search_x + 1 <= max_x <= Z.max (search_x + 1) end_x.
Proof.
  intros Hsx Hsx' Hend Hsy Hlhs Hband.
  destruct screenshot as (Hiw & Hmax & _).
  unfold trimmed_end. cbv zeta. rewrite u32_small by lia.
  destruct (drought_scan_spec search_y (Z.to_nat (Z.max 0 (end_x - (search_x + 1))))
              Hsy Hlhs Hband (search_x + 1) end_x 0)
    as (d & Hscan & Hd); try lia.
  rewrite Hscan. cbn [run_bind]. eexists. split; [reflexivity |].
  destruct Hd as [(_ & ->) | (c & Hc & _ & _ & ->)]; rewrite u32_small; lia.
Qed.

(** X16.  When the band of rows that [string_at] scans is inside the
    screenshot, the end of the run of characters is found without reading
    outside the buffer: it is one column past the last column before
    [end_x] that has ink on the rows from [search_y + 4] to
    [search_y + line_height_search - 1], and [search_x + 1] when no column
    has; so the decoding loop always has at least one column to decode. *)
Theorem trimmed_end_last_ink (search_x search_y end_x : Z) :
  0 <= search_x -> search_x + 1 < 2 ^ 32 -> end_x <= image_width ->
  0 <= search_y -> 0 <= line_height_search font ->
  search_y + line_height_search font <= 480 ->
  exists max_x,
    trimmed_end' search_x search_y end_x = Done max_x
    /\ search_x + 1 <= max_x <= Z.max (search_x + 1) end_x
    /\ (forall column, max_x <= column < end_x ->
          ~ inked (search_y + 4) (search_y + line_height_search font) column)
    /\ (search_x + 1 < max_x ->
          inked (search_y + 4) (search_y + line_height_search font) (max_x - 1)).
Proof.
  intros Hsx Hsx' Hend Hsy Hlhs Hband.
  destruct screenshot as (Hiw & Hmax & _).
  unfold trimmed_end. cbv zeta. rewrite u32_small by lia.
  destruct (drought_scan_spec search_y (Z.to_nat (Z.max 0 (end_x - (search_x + 1))))
              Hsy Hlhs Hband (search_x + 1) end_x 0)
    as (d & Hscan & Hd); try lia.
  rewrite Hscan. cbn [run_bind].
  destruct Hd as [(Hblank & ->) | (c & Hc & Hcink & Hafter & ->)].
  - exists (search_x + 1). split; [f_equal; rewrite u32_small; lia |].
    split; [lia |]. split; [intros column Hcol; apply Hblank; lia | lia].
  - exists (c + 1). split; [f_equal; rewrite u32_small; nia |].
    split; [lia |]. split; [intros column Hcol; apply Hafter; lia |].
    intros _. replace (c + 1 - 1) with c by lia. exact Hcink.
Qed.
End ExtentFacts.

Lemma trimmed_end_last_ink_witness :
  trimmed_end dotted_screenshot 4 tall_font 0 5 4 = Done 3
  /\ ink_in_column dotted_screenshot 4 (5 + 4) (5 + line_height_search tall_font) (3 - 1).
Proof.
  assert (Hs : screenshot_ok dotted_screenshot 4)
    by (unfold screenshot_ok; split; [lia | split; [lia | vm_compute; reflexivity]]).
  destruct (trimmed_end_last_ink dotted_screenshot 4 tall_font Hs 0 5 4)
    as (max_x & Hdone & _ & _ & Hink);
    try (vm_compute; congruence).
  assert (Hvalue : trimmed_end dotted_screenshot 4 tall_font 0 5 4 = Done 3)
    by (vm_compute; reflexivity).
  rewrite Hvalue in Hdone. injection Hdone as <-.
  split; [reflexivity |]. apply Hink. lia.
Defined.

(** ** The row loop returns *)

Lemma increasing_length (gap : Z) (l : list Z) : forall lo hi,
  lo <= hi -> Forall (fun r => lo <= r < hi) l ->
  StronglySorted (fun a b => a < b /\ a + gap <= b) l ->
  Z.of_nat (length l) <= hi - lo.
Proof.
  induction l as [| a l IH]; intros lo hi Hle Hall Hsorted; simpl length; [lia |].
  apply Forall_cons in Hall as (Ha & Hall).
  apply StronglySorted_inv in Hsorted as (Hsorted & Hlater).
  assert (Hbound : Z.of_nat (length l) <= hi - (a + 1)).
  { apply IH; [lia | | exact Hsorted].
    apply Forall_forall. intros r Hr.
    rewrite Forall_forall in Hall, Hlater.
    specialize (Hall r Hr). specialize (Hlater r Hr). simpl in *. lia. }
  lia.
Qed.

Section RowLoopFacts.
Variable monochrome_version : list Z.
Variable image_width : Z.
Variable font : Font.
Variable deaths_x : Z.
Hypothesis screenshot : screenshot_ok monochrome_version image_width.
Hypothesis narrow : image_width <= 2 ^ 16.
Hypothesis deaths_x_range : 0 <= deaths_x.

Abbreviation found_in_row' := (found_in_row monochrome_version image_width).
Abbreviation found_in_rows' := (found_in_rows monochrome_version image_width deaths_x).
Abbreviation found_something' :=
  (found_something monochrome_version image_width font deaths_x).
Abbreviation skip_to_next_line' :=
  (skip_to_next_line monochrome_version image_width font deaths_x).
Abbreviation row_loop' :=
  (fun fuel => row_loop monochrome_version image_width font fuel deaths_x).
Abbreviation ink_in_row' := (ink_in_row monochrome_version image_width deaths_x).

Lemma found_in_row_fueled y xs : found_in_row' y xs <> OutOfFuel.
Proof.
  induction xs as [| x xs IH]; simpl; [discriminate |].
  unfold read. destruct (monochrome_version !! _) as [v |]; simpl; [| discriminate].
  destruct (0 <? v); [discriminate | exact IH].
Qed.

Lemma found_in_rows_fueled ys : found_in_rows' ys <> OutOfFuel.
Proof.
  induction ys as [| y ys IH]; simpl; [discriminate |].
  pose proof (found_in_row_fueled y (range deaths_x image_width)) as Hrow.
  destruct (found_in_row' y (range deaths_x image_width)) as [[|] | |]; simpl;
    try discriminate; [exact IH | congruence].
Qed.

(** A row scan that returns has read inside the buffer: its row is above
    row 480, and it says whether the row has ink. *)
Lemma found_in_row_done y xs found :
  0 <= y < 2 ^ 16 -> Forall (fun x => 0 <= x < image_width) xs -> xs <> [] ->
  found_in_row' y xs = Done found ->
  y < 480
  /\ (found = true ->
      exists x, In x xs /\ screenshot_pixel monochrome_version image_width x y <> 0).
Proof.
  destruct screenshot as (Hiw & Hmax & Hlen).
  intros Hy Hxs Hne Hdone.
  assert (Hrow : y < 480).
  { destruct xs as [| x xs']; [congruence |]. simpl in Hdone.
    apply Forall_cons in Hxs as (Hx & _).
    destruct (Z_lt_le_dec y 480) as [Hlt | Hge]; [exact Hlt |].
    rewrite u32_small in Hdone by nia.
    rewrite read_out_of_bounds in Hdone by (rewrite Hlen; nia).
    discriminate Hdone. }
  split; [exact Hrow |]. clear Hne.
  induction Hxs as [| x xs' Hx _ IH]; simpl in Hdone; intros Hfound.
  - congruence.
  - rewrite (pixel_index monochrome_version image_width screenshot x y Hx) in Hdone
      by lia.
    simpl in Hdone.
    destruct (Z.ltb_spec 0 (screenshot_pixel monochrome_version image_width x y)).
    + exists x. split; [left; reflexivity | lia].
    + destruct (IH Hdone Hfound) as (x' & Hin & Hp). exists x'. split; [right |]; auto.
Qed.

Lemma found_in_rows_true ys :
  Forall (fun y => 0 <= y < 2 ^ 16) ys ->
  found_in_rows' ys = Done true ->
  deaths_x < image_width
  /\ (forall y0 rest, ys = y0 :: rest -> y0 < 480)
  /\ exists r, In r ys /\ ink_in_row' r.
Proof.
  intros Hys. induction Hys as [| y ys Hy _ IH]; simpl; intros Hdone; [discriminate |].
  destruct (Z_lt_le_dec deaths_x image_width) as [Hspan | Hempty].
  - split; [exact Hspan |].
    destruct (found_in_row' y (range deaths_x image_width)) as [found | |] eqn:Erow;
      try discriminate Hdone.
    apply found_in_row_done in Erow as (Hrow & Hink); try assumption.
    + split; [intros y0 rest [= <- _]; exact Hrow |].
      simpl in Hdone. destruct found.
      * destruct (Hink eq_refl) as (x & Hx & Hp). apply In_range in Hx.
        exists y. split; [left; reflexivity |]. exists x. split; [lia | exact Hp].
      * destruct (IH Hdone) as (_ & _ & r & Hr & Hinkr).
        exists r. split; [right; exact Hr | exact Hinkr].
    + apply List.Forall_forall. intros x Hx. apply In_range in Hx. lia.
    + unfold range. rewrite seqZ_cons by lia. discriminate.
  - exfalso. unfold range in Hdone. rewrite (seqZ_nil deaths_x) in Hdone by lia.
    simpl in Hdone. destruct (IH Hdone) as (Habs & _). lia.
Qed.

Hypothesis search_height : 1 <= line_height_search font.

Lemma line_height_search_range : line_height_search font < 2 ^ 15.
Proof. unfold line_height_search. pose proof (swap_endian16_range (ascending_height font)). lia. Qed.

Lemma found_something_true y_cursor :
  0 <= y_cursor < 2 ^ 15 ->
  found_something' y_cursor = Done true ->
  y_cursor < 480
  /\ exists r, y_cursor <= r < y_cursor + line_height_search font /\ ink_in_row' r.
Proof.
  pose proof line_height_search_range as Hlhs.
  intros Hy Hdone. unfold found_something in Hdone.
  rewrite u32_small in Hdone by lia.
  apply found_in_rows_true in Hdone as (_ & Hfirst & r & Hr & Hink).
  - split.
    + apply (Hfirst y_cursor (range (Z.succ y_cursor) (y_cursor + line_height_search font))).
      unfold range. rewrite seqZ_cons by lia. f_equal. f_equal. lia.
    + exists r. apply In_range in Hr. auto.
  - apply List.Forall_forall. intros y Hin. apply In_range in Hin. lia.
Qed.

(** After a row with ink, [skip_to_next_line] moves the cursor down. *)
Lemma skip_to_next_line_moves y_cursor :
  0 <= y_cursor < 480 ->
  (exists r, y_cursor <= r < y_cursor + line_height_search font /\ ink_in_row' r) ->
  exists next,
    skip_to_next_line' y_cursor = Done next
    /\ y_cursor < next /\ y_cursor + line_height_search font ÷ 2 <= next < 2 ^ 15.
Proof.
  pose proof line_height_search_range as Hlhs.
  intros Hy (r & Hr & Hink). unfold skip_to_next_line. cbv zeta.
  assert (Hhalf : 0 <= line_height_search font ÷ 2 < 2 ^ 14).
  { split; [apply Z.quot_pos; lia |]. apply Z.quot_lt_upper_bound; lia. }
  rewrite u32_small by lia.
  set (start := y_cursor + line_height_search font ÷ 2).
  destruct (skip_rows_spec monochrome_version image_width deaths_x screenshot
              deaths_x_range (Z.to_nat (480 - start)) start)
    as (next & Hdone & Hge & Hbetween & Hstop & _); try lia.
  exists next. split; [exact Hdone |].
  assert (Hnext : next <= Z.max 480 start).
  { destruct (Z_lt_le_dec start next) as [Hlt | Hle]; [| lia].
    destruct (Hbetween (next - 1)) as (Hb & _); lia. }
  split; [| lia].
  destruct (Z.eq_dec (line_height_search font ÷ 2) 0) as [Hzero | Hpos]; [| lia].
  assert (Hone : line_height_search font = 1).
  { destruct (Z.eq_dec (line_height_search font) 1) as [E | E]; [exact E |].
    exfalso. assert (2 <= line_height_search font) by lia.
    assert (1 <= line_height_search font ÷ 2) by (apply Z.quot_le_lower_bound; lia).
    lia. }
  assert (r = y_cursor) by lia. subst r.
  destruct (Z.eq_dec next y_cursor) as [-> | Hne]; [| lia].
  exfalso. apply Hstop; [lia | exact Hink].
Qed.

Lemma row_loop_rows fuel : forall y_cursor,
  0 <= y_cursor < 2 ^ 15 -> (Z.to_nat (480 - y_cursor) < fuel)%nat ->
  row_loop' fuel y_cursor <> OutOfFuel
  /\ forall rows, row_loop' fuel y_cursor = Done rows ->
       Forall (fun r => y_cursor <= r < 480) rows
       /\ StronglySorted (fun a b => a < b /\ a + line_height_search font ÷ 2 <= b) rows.
Proof.
  induction fuel as [| fuel IH]; intros y_cursor Hy Hfuel; [lia |].
  simpl.
  pose proof (found_in_rows_fueled
                (range y_cursor (u32 (y_cursor + line_height_search font)))) as Hfueled.
  fold (found_something' y_cursor) in Hfueled.
  destruct (found_something' y_cursor) as [[|] | |] eqn:Efound; simpl.
  - apply found_something_true in Efound as (Hrow & Hink); [| exact Hy].
    destruct (skip_to_next_line_moves y_cursor (conj (proj1 Hy) Hrow) Hink)
      as (next & Hnext & Hmoved & Hhalf & Hbound).
    rewrite Hnext. simpl.
    destruct (IH next) as (Hfuel' & Hrows); try lia.
    destruct (row_loop' fuel next) as [rows | |]; simpl.
    + split; [discriminate |]. intros rows' [= <-].
      destruct (Hrows rows eq_refl) as (Hall & Hsorted).
      split.
      * constructor; [lia |]. eapply Forall_impl; [exact Hall |].
        intros r Hr. simpl in Hr. lia.
      * constructor; [exact Hsorted |].
        eapply Forall_impl; [exact Hall |]. intros r Hr. simpl in Hr. lia.
    + split; [discriminate | intros rows' Habs; discriminate Habs].
    + congruence.
  - split; [discriminate |]. intros rows [= <-]. split; constructor.
  - split; [discriminate | intros rows Habs; discriminate Habs].
  - congruence.
Qed.

(** X17.  With a positive search height and a screenshot at most 65536
    pixels wide, the row loop of [main] started at a row from 0 to 480
    ends within 481 turns: it returns its rows or stops at a read outside the
    buffer, and never runs on.  The rows it returns are rows of the
    screenshot at or below the start, each strictly below the one before
    and at least half the search height away from it, so there are at most
    [480 - y_cursor] of them. *)
Theorem row_loop_returns (fuel : nat) (y_cursor : Z) :
  0 <= y_cursor <= 480 -> (480 < fuel)%nat ->
  row_loop' fuel y_cursor <> OutOfFuel
  /\ forall rows, row_loop' fuel y_cursor = Done rows ->
       Forall (fun r => y_cursor <= r < 480) rows
       /\ StronglySorted (fun a b => a < b /\ a + line_height_search font ÷ 2 <= b) rows
       /\ Z.of_nat (length rows) <= 480 - y_cursor.
Proof.
  intros Hy Hfuel.
  destruct (row_loop_rows fuel y_cursor) as (Hfueled & Hrows); try lia.
  split; [exact Hfueled |]. intros rows Hdone.
  destruct (Hrows rows Hdone) as (Hall & Hsorted).
  split; [exact Hall |]. split; [exact Hsorted |].
  apply (increasing_length (line_height_search font ÷ 2) rows y_cursor 480);
    [lia | exact Hall | exact Hsorted].
Qed.
End RowLoopFacts.

Lemma row_loop_returns_witness :
  row_loop dotted_screenshot 4 tall_font 481 0 5 = Done [5; 8]
  /\ Z.of_nat (length [5; 8]) <= 480 - 5.
Proof.
  assert (Hs : screenshot_ok dotted_screenshot 4)
    by (unfold screenshot_ok; split; [lia | split; [lia | vm_compute; reflexivity]]).
  assert (Hdone : row_loop dotted_screenshot 4 tall_font 481 0 5 = Done [5; 8])
    by (vm_compute; reflexivity).
  split; [exact Hdone |].
  assert (Hnarrow : 4 <= 2 ^ 16) by lia.
  assert (Hcolumn : 0 <= 0) by lia.
  assert (Hheight : 1 <= line_height_search tall_font) by (vm_compute; congruence).
  assert (Hstart : 0 <= 5 <= 480) by lia.
  assert (Hfuel : (480 < 481)%nat) by lia.
  destruct (row_loop_returns dotted_screenshot 4 tall_font 0 Hs Hnarrow Hcolumn Hheight
              481 5 Hstart Hfuel) as (_ & Hrows).
  destruct (Hrows [5; 8] Hdone) as (_ & _ & Hlength). exact Hlength.
Defined.



(** ** The names file *)

Lemma In_name_trials names my mx i :
  In (my, mx, i) (name_trials names)
  <-> -2 <= my <= 2 /\ -2 <= mx <= 2 /\ (i < length names)%nat.
Proof.
  unfold name_trials. rewrite in_flat_map. split.
  - intros (my' & Hmy & Hin). apply in_flat_map in Hin as (mx' & Hmx & Hin).
    apply in_map_iff in Hin as (i' & Heq & Hi). inversion Heq; subst.
    apply In_range in Hmy, Hmx. apply in_seq in Hi. repeat split; lia.
  - intros (Hmy & Hmx & Hi). exists my. split; [apply In_range; lia |].
    apply in_flat_map. exists mx. split; [apply In_range; lia |].
    apply in_map_iff. exists i. split; [reflexivity | apply in_seq; lia].
Qed.

Section NamesFacts.
Variable monochrome_version : list Z.
Variable image_width : Z.
Variable monochrome_pixels : list Z.
Variable characters : list FontCharacter.
Variable font : Font.

Abbreviation best_name' := (best_name monochrome_version image_width).
Abbreviation name_of_row' :=
  (name_of_row monochrome_version image_width monochrome_pixels characters font).
Abbreviation name_score :=
  (fun (names : list MonochromeImage) (name_x y_cursor : Z) (t : Z * Z * nat) =>
     match_ monochrome_version image_width (nth (snd t) names no_image)
            (u32 (name_x + snd (fst t))) (u32 (y_cursor + fst (fst t)))).

Lemma best_name_keep_best names name_x y_cursor :
  best_name' names name_x y_cursor
  = foldl (keep_best (fun _ => false) (name_score names name_x y_cursor) fst
                     (fun t => (name_score names name_x y_cursor t, snd t)))
          (0%Q, 0%nat) (name_trials names).
Proof.
  unfold best_name, name_trials. rewrite foldl_flat_map.
  apply foldl_same. intros b my. rewrite foldl_flat_map.
  revert b. apply foldl_same. intros b mx. rewrite foldl_map.
  revert b. apply foldl_same. intros b i.
  unfold keep_best. simpl. reflexivity.
Qed.

End NamesFacts.





(** ** The team of a row *)

Lemma find_append {A} (f : A -> bool) (l1 l2 : list A) :
  List.find f (l1 ++ l2)
  = match List.find f l1 with Some a => Some a | None => List.find f l2 end.
Proof.
  induction l1 as [| a l1 IH]; simpl; [reflexivity |].
  destruct (f a); [reflexivity | exact IH].
Qed.

Lemma convert_to_monochrome_lookup image_data (i : nat) pixel :
  image_data !! i = Some pixel ->
  convert_to_monochrome image_data !! i = Some (filter_pixel (Monochrome pixel)).
Proof.
  intros Hp. unfold convert_to_monochrome, filter_monochrome.
  rewrite !list_lookup_fmap, Hp. reflexivity.
Qed.

Section TeamFacts.
Variable image_data : list ImagePixel.t.
Variable image_width : Z.
Variable font : Font.
Hypothesis screenshot : screenshot_ok (convert_to_monochrome image_data) image_width.

Abbreviation team_in_row' :=
  (team_in_row image_data (convert_to_monochrome image_data) image_width).
Abbreviation team_in_rows' :=
  (team_in_rows image_data (convert_to_monochrome image_data) image_width).
Abbreviation player_red' :=
  (player_red image_data (convert_to_monochrome image_data) image_width font).
Abbreviation first_bright :=
  (fun cell => option_map (redder image_data image_width)
                          (List.find (bright image_data image_width) cell)).

Lemma team_in_row_spec y xs :
  0 <= y < 480 -> Forall (fun x => 0 <= x < image_width) xs ->
  team_in_row' y xs = Done (first_bright (map (fun x => (x, y)) xs)).
Proof.
  destruct screenshot as (Hiw & Hmax & Hlen).
  intros Hy Hxs. induction Hxs as [| x xs Hx _ IH]; [reflexivity |].
  cbn [team_in_row map List.find option_map].
  assert (Hindex : 0 <= x + image_width * y < image_width * 480) by nia.
  rewrite u32_small by lia.
  assert (Hin : (Z.to_nat (x + image_width * y) < length image_data)%nat).
  { unfold convert_to_monochrome, filter_monochrome in Hlen.
    rewrite !length_map in Hlen. lia. }
  apply lookup_lt_is_Some_2 in Hin as (pixel & Hpixel).
  unfold read. rewrite (convert_to_monochrome_lookup _ _ _ Hpixel). cbn [run_bind].
  unfold bright at 1. cbn [fst snd]. rewrite Hpixel.
  unfold filter_pixel, MINIMUM.
  destruct (Z.ltb_spec (Monochrome pixel) 79) as [Hdim | Hlit].
  - change (127 <? 0) with false. cbv iota.
    destruct (Z.ltb_spec 127 (Monochrome pixel)); [lia | exact IH].
  - change (127 <? 255) with true. cbv iota.
    destruct (Z.ltb_spec 127 (Monochrome pixel)); [| exact IH].
    cbn [option_map]. unfold redder. cbn [fst snd]. rewrite Hpixel. reflexivity.
Qed.

Lemma team_in_rows_spec name_x kills_x ys :
  0 <= name_x -> kills_x <= image_width -> Forall (fun y => 0 <= y < 480) ys ->
  team_in_rows' name_x kills_x ys
  = Done (first_bright (flat_map (fun y => map (fun x => (x, y)) (range name_x kills_x)) ys)).
Proof.
  intros Hname Hkills Hys. induction Hys as [| y ys Hy _ IH]; [reflexivity |].
  cbn [team_in_rows flat_map].
  rewrite team_in_row_spec;
    [| exact Hy | apply List.Forall_forall; intros x Hx; apply In_range in Hx; lia].
  cbn [run_bind]. rewrite find_append.
  destruct (List.find _ (map _ (range name_x kills_x))) as [p |]; [reflexivity |].
  exact IH.
Qed.

(** X19.  For a row whose search band is inside the picture, the team is
    read from the first pixel, in reading order over the rows of the band
    and the columns from the name to the kills, whose intensity is above
    0x7F: the player is red when that pixel has more red than blue; with
    no such pixel the player is left blue.  The test on the thresholded
    buffer changes nothing, and no read leaves the buffers. *)
Theorem player_red_first_bright (name_x kills_x y_cursor : Z) :
  0 <= name_x -> kills_x <= image_width -> 0 <= y_cursor ->
  0 <= line_height_search font -> y_cursor + line_height_search font <= 480 ->
  player_red' name_x kills_x y_cursor
  = Done (match List.find (bright image_data image_width)
                          (name_cell name_x kills_x y_cursor (line_height_search font)) with
          | Some p => redder image_data image_width p
          | None => false
          end).
Proof.
  intros Hname Hkills Hy Hsearch Hband. unfold player_red.
  rewrite u32_small by lia.
  rewrite team_in_rows_spec;
    [| exact Hname | exact Hkills
     | apply List.Forall_forall; intros y Hin; apply In_range in Hin; lia].
  cbn [run_bind]. unfold name_cell.
  destruct (List.find _ _); reflexivity.
Qed.
End TeamFacts.


Lemma player_red_first_bright_witness :
  player_red red_dot_picture (convert_to_monochrome red_dot_picture) 2 tall_font 0 2 5
  = Done true.
Proof.
  assert (Hs : screenshot_ok (convert_to_monochrome red_dot_picture) 2)
    by (unfold screenshot_ok; split; [lia | split; [lia | vm_compute; reflexivity]]).
  assert (Hname : 0 <= 0) by lia.
  assert (Hkills : 2 <= 2) by lia.
  assert (Hy : 0 <= 5) by lia.
  assert (Hsearch : 0 <= line_height_search tall_font) by (vm_compute; congruence).
  assert (Hband : 5 + line_height_search tall_font <= 480) by (vm_compute; congruence).
  rewrite (player_red_first_bright red_dot_picture 2 tall_font Hs 0 2 5
             Hname Hkills Hy Hsearch Hband).
  vm_compute. reflexivity.
Defined.

(** ** [string_at] returns *)

Section StringAtReturns.
Variable monochrome_version : list Z.
Variable image_width : Z.
Variable monochrome_pixels : list Z.
Variable characters : list FontCharacter.
Variable font : Font.
Variable table : list MonochromeImage.
Hypothesis screenshot : screenshot_ok monochrome_version image_width.
Hypothesis widths : Forall (fun c => 0 <= width c < 2 ^ 32) table.

Lemma decode_bounded max_x search_y fuel : forall x final_string,
  max_x <= 2 ^ 31 -> 0 <= x -> (Z.to_nat (max_x - x) < fuel)%nat ->
  exists suffix,
    decode monochrome_version image_width fuel table max_x search_y x final_string
    = Done (final_string ++ suffix)
    /\ Z.of_nat (length suffix) <= Z.max 0 (max_x - x).
Proof.
  intros x final_string Hend. revert x final_string.
  induction fuel as [| fuel IH]; intros x final_string Hx Hfuel; [lia |].
  simpl.
  assert (Hstop : exists suffix,
            Done final_string = Done (final_string ++ suffix)
            /\ Z.of_nat (length suffix) <= Z.max 0 (max_x - x)).
  { exists []. rewrite app_nil_r. split; [reflexivity | simpl; lia]. }
  destruct (Z.ltb_spec x max_x) as [Hlt | Hge]; [| exact Hstop].
  destruct (snd (best_candidate monochrome_version image_width table x max_x search_y))
    as [[[best_character best_length] best_x] |] eqn:Ebest; [| exact Hstop].
  apply (best_candidate_winner monochrome_version image_width table max_x search_y
           widths) in Ebest as (Hlen & Hfit).
  rewrite u32_small by lia.
  destruct (IH (x + best_length) (final_string ++ [best_character])) as (suffix & Hdone & Hs);
    try lia.
  exists (best_character :: suffix). rewrite Hdone, <- app_assoc.
  split; [reflexivity |]. simpl length. lia.
Qed.

End StringAtReturns.

Lemma all_widths monochrome_pixels characters font :
  Forall (fun c => 0 <= width c < 2 ^ 32) (all monochrome_pixels characters font).
Proof.
  apply List.Forall_forall. intros c Hc. unfold all in Hc.
  apply in_flat_map in Hc as (i & _ & Hc).
  destruct (negb _ && _); [| destruct Hc]. destruct Hc as [<- | []].
  cbn [filtered with_pixels width]. rewrite draw_text_width, text_width_total.
  apply u32_range.
Qed.

